(** * MyPromise: a Promises/A+ implementation (src/promise/src/promise.ts)

    A shallow embedding of the [MyPromise] class and of the host facilities
    it consumes (object identity, the microtask queue), followed by the
    properties of the module.

    Instances, arrays and captured counters live in an explicit store and are
    named by their index in it, so that aliasing is visible.  Closures are
    defunctionalised: every function expression of the source is one
    constructor of [callback], carrying the variables it captures. *)

From stdpp Require Import base numbers list strings.

(** ** Data model *)

(** [type PromiseState = "pending" | "fulfilled" | "rejected"] *)
Inductive PromiseState := pending | fulfilled | rejected.

(** JavaScript values as far as the module can tell them apart.  An object
    (or a function: the source treats both alike) is described by what reading
    its [then] member does.  A [script] is what a client function of two
    callbacks (a foreign [then], an executor) does with them before it
    returns or throws; the callbacks it keeps can be called later, see
    [GuardedResolve] and [ResolveOf] below. *)
#[warnings="-register-all"]
Inductive jsvalue :=
  | VUndefined
  | VNull
  | VBool (b : bool)
  | VNum (n : Z)
  | VStr (s : string)
  | VTypeError (message : string)
  | VAggregateError (errors : list jsvalue) (message : string)
  | VArray (a : nat)
  | VFulfilledDescriptor (v : jsvalue)
  | VRejectedDescriptor (reason : jsvalue)
  | VPromise (p : nat)
  | VObject (m : then_member)
with then_member :=
  | ThenGetterThrows (error : jsvalue)
  | ThenValue (v : jsvalue)
  | ThenFunction (body : script)
with script :=
  | Done
  | Raise (error : jsvalue)
  | CallFirst (v : jsvalue) (rest : script)
  | CallSecond (r : jsvalue) (rest : script).

(** How a call ends. *)
Inductive completion :=
  | Normal (v : jsvalue)
  | Throw (error : jsvalue).

(** Every function the module stores or passes around.  [NotCallable] stands
    for [undefined] and [null]; [UserFn] is a function of the client, which
    sees its arguments only and is named by a label. *)
Inductive callback :=
  | NotCallable
  | UserFn (label : nat) (body : list jsvalue → completion)
  | ResolveOf (p : nat)
  | RejectOf (p : nat)
  | GuardedResolve (called p : nat)
  | GuardedReject (called p : nat)
  | PassThroughFulfilled (onfinally : callback)
  | PassThroughRejected (onfinally : callback)
  | ReturnValue (v : jsvalue)
  | ThrowReason (reason : jsvalue)
  | AllOnFulfilled (promiseResults resolvedPromises len index : nat) (resolve : callback)
  | AllOnRejected (reject : callback)
  | AllSettledOnFulfilled (promiseResults index : nat)
  | AllSettledOnRejected (promiseResults index : nat)
  | AllSettledOnFinally (promiseResults resolvedPromises len : nat) (resolve : callback)
  | AnyOnRejected (promiseErrors rejectedPromises len index : nat) (reject : callback).

(** [type Handler<T>] *)
Record Handler := mkHandler {
  onfulfilled : callback;
  onrejected : callback;
  resolve : callback;
  reject : callback
}.

(** The private fields of one instance. *)
Record instance := mkInstance {
  state : PromiseState;
  value : jsvalue;
  handlers : list Handler
}.

(** The closure handed to [queueMicrotask] by [runHandlers]: it captures
    [this] and one handler. *)
Inductive job := Job (this : nat) (handler : Handler).

Record world := mkWorld {
  heap : list instance;
  arrays : list (list (option jsvalue));
  counters : list nat;
  flags : list bool;
  microtasks : list job;
  calls : list (nat * list jsvalue)
}.

Definition empty_world : world := mkWorld [] [] [] [] [] [].

Definition set_heap (f : list instance → list instance) (w : world) : world :=
  mkWorld (f (heap w)) (arrays w) (counters w) (flags w) (microtasks w) (calls w).

Definition set_arrays (f : list (list (option jsvalue)) → list (list (option jsvalue)))
    (w : world) : world :=
  mkWorld (heap w) (f (arrays w)) (counters w) (flags w) (microtasks w) (calls w).

Definition set_counters (f : list nat → list nat) (w : world) : world :=
  mkWorld (heap w) (arrays w) (f (counters w)) (flags w) (microtasks w) (calls w).

Definition set_flags (f : list bool → list bool) (w : world) : world :=
  mkWorld (heap w) (arrays w) (counters w) (f (flags w)) (microtasks w) (calls w).

Definition set_microtasks (f : list job → list job) (w : world) : world :=
  mkWorld (heap w) (arrays w) (counters w) (flags w) (f (microtasks w)) (calls w).

Definition set_calls (f : list (nat * list jsvalue) → list (nat * list jsvalue))
    (w : world) : world :=
  mkWorld (heap w) (arrays w) (counters w) (flags w) (microtasks w) (f (calls w)).

Definition state_of (p : nat) (w : world) : PromiseState :=
  match heap w !! p with Some i => state i | None => pending end.

Definition value_of (p : nat) (w : world) : jsvalue :=
  match heap w !! p with Some i => value i | None => VUndefined end.

Definition handlers_of (p : nat) (w : world) : list Handler :=
  match heap w !! p with Some i => handlers i | None => [] end.

Definition is_pending (s : PromiseState) : bool :=
  match s with pending => true | _ => false end.

(** [typeof f === "function"] *)
Definition is_function (f : callback) : bool :=
  match f with NotCallable => false | _ => true end.

(** The first argument of a call, [undefined] when absent. *)
Definition arg0 (args : list jsvalue) : jsvalue :=
  match args with v :: _ => v | [] => VUndefined end.

(** [queueMicrotask(job)] *)
Definition queueMicrotask (j : job) (w : world) : world :=
  set_microtasks (λ q, q ++ [j]) w.

(** [a[index] = v] on a JavaScript array: writing past the end extends the
    array, leaving holes. *)
Definition array_store (index : nat) (v : jsvalue) (l : list (option jsvalue))
    : list (option jsvalue) :=
  if decide (index < length l) then <[index := Some v]> l
  else l ++ replicate (index - length l) None ++ [Some v].

(** Reading an element: a hole reads as [undefined]. *)
Definition array_elements (l : list (option jsvalue)) : list jsvalue :=
  (λ o, default VUndefined o) <$> l.

(** [array.forEach((value, index) => ...)] *)
Fixpoint forEach_from {A} (index : nat) (f : A → nat → world → world)
    (l : list A) (w : world) : world :=
  match l with
  | [] => w
  | x :: l' => forEach_from (S index) f l' (f x index w)
  end.

Definition forEach {A} (f : A → nat → world → world) (l : list A) (w : world) : world :=
  forEach_from 0 f l w.

Definition new_array (l : list (option jsvalue)) (w : world) : nat * world :=
  (length (arrays w), set_arrays (λ s, s ++ [l]) w).

Definition new_counter (n : nat) (w : world) : nat * world :=
  (length (counters w), set_counters (λ s, s ++ [n]) w).

(** [let called = false], captured by the two guarded callbacks. *)
Definition new_flag (w : world) : nat * world :=
  (length (flags w), set_flags (λ s, s ++ [false]) w).

Definition flag_of (called : nat) (w : world) : bool :=
  default false (flags w !! called).

Definition self_resolution_error : jsvalue :=
  VTypeError "A promise cannot be resolved with itself."%string.

(** What the client and the host can do, one step at a time. *)
Inductive op :=
  | New (executor : script)
  | Call (f : callback) (args : list jsvalue)
  | Then (p : nat) (onfulfilled onrejected : callback)
  | Catch (p : nat) (onrejected : callback)
  | Finally (p : nat) (onfinally : callback)
  | Resolve (v : jsvalue)
  | Reject (reason : jsvalue)
  | All (values : list jsvalue)
  | AllSettled (values : list jsvalue)
  | Race (values : list jsvalue)
  | Any (values : list jsvalue)
  | Tick.


(** ** The class, first draft (promise.ts, lines 42-315) *)

Module Draft1.

(** [private runHandlers()], lines 161-200: the queue is swapped for an
    empty one and one microtask per handler is queued, in order. *)
Definition runHandlers (this : nat) (w : world) : world :=
  if is_pending (state_of this w) then w
  else
    let hs := handlers_of this w in
    let w1 := set_heap (alter (λ i, mkInstance (state i) (value i) []) this) w in
    foldl (λ w' h, queueMicrotask (Job this h) w') w1 hs.

(** The [reject] closure of the constructor, lines 108-113. *)
Definition reject_fn (this : nat) (reason : jsvalue) (w : world) : world :=
  if negb (is_pending (state_of this w)) then w
  else
    runHandlers this
      (set_heap (alter (λ i, mkInstance rejected reason (handlers i)) this) w).

(** The tail of the [resolve] closure, lines 103-105. *)
Definition fulfil (this : nat) (v : jsvalue) (w : world) : world :=
  runHandlers this
    (set_heap (alter (λ i, mkInstance fulfilled v (handlers i)) this) w).

(** [constructor(executor)], lines 49-120.  The executor gets the new
    instance, which stands for its [resolve] and [reject] closures, and
    returns the error it throws, if any. *)
Definition construct (executor : nat → world → option jsvalue * world)
    (w : world) : nat * world :=
  let this := length (heap w) in
  let w1 := set_heap (λ h, h ++ [mkInstance pending VUndefined []]) w in
  match executor this w1 with
  | (Some error, w2) => (this, reject_fn this error w2)
  | (None, w2) => (this, w2)
  end.

(** [then(onfulfilled, onrejected)], lines 122-136. *)
Definition then_ (this : nat) (onfulfilled onrejected : callback) (w : world)
    : nat * world :=
  construct (λ d w1,
    let h := mkHandler onfulfilled onrejected (ResolveOf d) (RejectOf d) in
    let w2 := set_heap (alter (λ i, mkInstance (state i) (value i) (handlers i ++ [h])) this) w1 in
    (None, runHandlers this w2)) w.

(** [catch(onrejected)], lines 138-145. *)
Definition catch (this : nat) (onrejected : callback) (w : world) : nat * world :=
  then_ this NotCallable onrejected w.

(** The second guarded callback, lines 86-90. *)
Definition guarded_reject (called this : nat) (r : jsvalue) (w : world) : world :=
  if flag_of called w then w
  else reject_fn this r (set_flags (<[called := true]>) w).

(** The [resolve] closure of the constructor, lines 50-106, and the call
    [then.call(value, ...)] of lines 78-97: the foreign function runs its
    script on the two guarded callbacks, which share the flag [called]. *)
Fixpoint resolve_fn (this : nat) (v : jsvalue) (w : world) {struct v} : world :=
  if negb (is_pending (state_of this w)) then w
  else
    match v with
    | VPromise q =>
        if decide (q = this) then reject_fn this self_resolution_error w
        else (then_ q (ResolveOf this) (RejectOf this) w).2
    | VObject m =>
        match m with
        | ThenGetterThrows error => reject_fn this error w
        | ThenValue _ => fulfil this v w
        | ThenFunction body =>
            let '(called, w1) := new_flag w in
            call_then this called body w1
        end
    | _ => fulfil this v w
    end
with call_then (this called : nat) (body : script) (w : world) {struct body} : world :=
  match body with
  | Done => w
  | Raise error =>
      if flag_of called w then w
      else reject_fn this error (set_flags (<[called := true]>) w)
  | CallFirst v rest =>
      call_then this called rest
        (if flag_of called w then w
         else resolve_fn this v (set_flags (<[called := true]>) w))
  | CallSecond r rest =>
      call_then this called rest (guarded_reject called this r w)
  end.

(** The first guarded callback, lines 81-85. *)
Definition guarded_resolve (called this : nat) (v : jsvalue) (w : world) : world :=
  if flag_of called w then w
  else resolve_fn this v (set_flags (<[called := true]>) w).

(** A client executor run by the constructor: the calls it makes on
    [resolve] and [reject], and the error it throws, if any. *)
Fixpoint run_executor (executor : script) (this : nat) (w : world)
    : option jsvalue * world :=
  match executor with
  | Done => (None, w)
  | Raise error => (Some error, w)
  | CallFirst v rest => run_executor rest this (resolve_fn this v w)
  | CallSecond r rest => run_executor rest this (reject_fn this r w)
  end.

(** [new MyPromise(executor)] *)
Definition new_promise (executor : script) (w : world) : nat * world :=
  construct (run_executor executor) w.

(** [static resolve(value)], lines 202-211. *)
Definition static_resolve (v : jsvalue) (w : world) : nat * world :=
  match v with
  | VPromise q => (q, w)
  | _ => construct (λ d w1, (None, resolve_fn d v w1)) w
  end.

(** [static reject(reason)], lines 213-217. *)
Definition static_reject (reason : jsvalue) (w : world) : nat * world :=
  construct (λ d w1, (None, reject_fn d reason w1)) w.

(** Calling a function value.  The cases follow the function expressions of
    the source: the two closures of the constructor, the two of [finally]
    (lines 148-157) with the continuations they register (lines 150 and
    154-156), and the callbacks of the combinators (lines 230-239, 257-274,
    300-311). *)
Fixpoint call (f : callback) (args : list jsvalue) (w : world) {struct f}
    : completion * world :=
  match f with
  | NotCallable => (Throw (VTypeError "not a function"), w)
  | UserFn label body => (body args, set_calls (λ l, l ++ [(label, args)]) w)
  | ResolveOf p => (Normal VUndefined, resolve_fn p (arg0 args) w)
  | RejectOf p => (Normal VUndefined, reject_fn p (arg0 args) w)
  | GuardedResolve called p =>
      (Normal VUndefined, guarded_resolve called p (arg0 args) w)
  | GuardedReject called p =>
      (Normal VUndefined, guarded_reject called p (arg0 args) w)
  | PassThroughFulfilled onfinally =>
      if negb (is_function onfinally) then (Normal (arg0 args), w)
      else
        match call onfinally [] w with
        | (Throw error, w1) => (Throw error, w1)
        | (Normal r, w1) =>
            let '(q, w2) := static_resolve r w1 in
            let '(t, w3) := then_ q (ReturnValue (arg0 args)) NotCallable w2 in
            (Normal (VPromise t), w3)
        end
  | PassThroughRejected onfinally =>
      match (if negb (is_function onfinally) then (Normal VUndefined, w)
             else call onfinally [] w) with
      | (Throw error, w1) => (Throw error, w1)
      | (Normal r, w1) =>
          let '(q, w2) := static_resolve r w1 in
          let '(t, w3) := then_ q (ThrowReason (arg0 args)) NotCallable w2 in
          (Normal (VPromise t), w3)
      end
  | ReturnValue v => (Normal v, w)
  | ThrowReason reason => (Throw reason, w)
  | AllOnFulfilled promiseResults resolvedPromises len index resolve =>
      let w1 := set_counters (alter S resolvedPromises) w in
      let w2 := set_arrays (alter (array_store index (arg0 args)) promiseResults) w1 in
      if decide (default 0 (counters w2 !! resolvedPromises) = len)
      then (Normal VUndefined, (call resolve [VArray promiseResults] w2).2)
      else (Normal VUndefined, w2)
  | AllOnRejected reject =>
      (Normal VUndefined, (call reject [arg0 args] w).2)
  | AllSettledOnFulfilled promiseResults index =>
      (Normal VUndefined,
       set_arrays (alter (array_store index (VFulfilledDescriptor (arg0 args)))
                     promiseResults) w)
  | AllSettledOnRejected promiseResults index =>
      (Normal VUndefined,
       set_arrays (alter (array_store index (VRejectedDescriptor (arg0 args)))
                     promiseResults) w)
  | AllSettledOnFinally promiseResults resolvedPromises len resolve =>
      let w1 := set_counters (alter S resolvedPromises) w in
      if decide (default 0 (counters w1 !! resolvedPromises) = len)
      then (Normal VUndefined, (call resolve [VArray promiseResults] w1).2)
      else (Normal VUndefined, w1)
  | AnyOnRejected promiseErrors rejectedPromises len index reject =>
      let w1 := set_counters (alter S rejectedPromises) w in
      let w2 := set_arrays (alter (array_store index (arg0 args)) promiseErrors) w1 in
      if decide (default 0 (counters w2 !! rejectedPromises) = len)
      then
        let errors := array_elements (default [] (arrays w2 !! promiseErrors)) in
        (Normal VUndefined,
         (call reject [VAggregateError errors "All promises rejected."] w2).2)
      else (Normal VUndefined, w2)
  end.

(** [finally(onfinally)], lines 147-159. *)
Definition finally (this : nat) (onfinally : callback) (w : world) : nat * world :=
  then_ this (PassThroughFulfilled onfinally) (PassThroughRejected onfinally) w.

(** The body of one microtask, lines 172-198: two [if] statements in a row,
    each reading [this.state] afresh. *)
Definition run_job (j : job) (w : world) : world :=
  let 'Job this h := j in
  let w1 :=
    match state_of this w with
    | fulfilled =>
        if negb (is_function (onfulfilled h)) then
          (call (resolve h) [value_of this w] w).2
        else
          match call (onfulfilled h) [value_of this w] w with
          | (Normal result, w') => (call (resolve h) [result] w').2
          | (Throw error, w') => (call (reject h) [error] w').2
          end
    | _ => w
    end in
  match state_of this w1 with
  | rejected =>
      if negb (is_function (onrejected h)) then
        (call (reject h) [value_of this w1] w1).2
      else
        match call (onrejected h) [value_of this w1] w1 with
        | (Normal result, w') => (call (resolve h) [result] w').2
        | (Throw error, w') => (call (reject h) [error] w').2
        end
  | _ => w1
  end.

(** The host runs the oldest microtask. *)
Definition tick (w : world) : world :=
  match microtasks w with
  | [] => w
  | j :: rest => run_job j (set_microtasks (λ _, rest) w)
  end.

Fixpoint ticks (n : nat) (w : world) : world :=
  match n with
  | 0 => w
  | S n' => ticks n' (tick w)
  end.

(** The host empties the microtask queue, at most [fuel] jobs. *)
Fixpoint drain (fuel : nat) (w : world) : world :=
  match fuel with
  | 0 => w
  | S fuel' =>
      match microtasks w with
      | [] => w
      | _ => drain fuel' (tick w)
      end
  end.

(** [static all(values)], lines 219-242. *)
Definition all (values : list jsvalue) (w : world) : nat * world :=
  let '(promiseResults, w0) := new_array [] w in
  let '(resolvedPromises, w0) := new_counter 0 w0 in
  construct (λ R w1,
    if decide (length values = 0) then
      let '(a, w2) := new_array [] w1 in
      (None, resolve_fn R (VArray a) w2)
    else
      (None,
       forEach (λ v index w2,
         let '(q, w3) := static_resolve v w2 in
         let '(t, w4) :=
           then_ q (AllOnFulfilled promiseResults resolvedPromises
                      (length values) index (ResolveOf R)) NotCallable w3 in
         (catch t (AllOnRejected (RejectOf R)) w4).2) values w1)) w0.

(** [static allSettled(values)], lines 244-277. *)
Definition allSettled (values : list jsvalue) (w : world) : nat * world :=
  let '(promiseResults, w0) := new_array [] w in
  let '(resolvedPromises, w0) := new_counter 0 w0 in
  construct (λ R w1,
    if decide (length values = 0) then
      let '(a, w2) := new_array [] w1 in
      (None, resolve_fn R (VArray a) w2)
    else
      (None,
       forEach (λ v index w2,
         let '(q, w3) := static_resolve v w2 in
         let '(t, w4) :=
           then_ q (AllSettledOnFulfilled promiseResults index) NotCallable w3 in
         let '(c, w5) := catch t (AllSettledOnRejected promiseResults index) w4 in
         (finally c (AllSettledOnFinally promiseResults resolvedPromises
                       (length values) (ResolveOf R)) w5).2) values w1)) w0.

(** [static race(values)], lines 279-285. *)
Definition race (values : list jsvalue) (w : world) : nat * world :=
  construct (λ R w1,
    (None,
     forEach (λ v (_ : nat) w2,
       let '(q, w3) := static_resolve v w2 in
       (then_ q (ResolveOf R) (RejectOf R) w3).2) values w1)) w.

(** [static any(values)], lines 287-314. *)
Definition any (values : list jsvalue) (w : world) : nat * world :=
  let '(promiseErrors, w0) := new_array [] w in
  let '(rejectedPromises, w0) := new_counter 0 w0 in
  construct (λ R w1,
    if decide (length values = 0) then
      (None, reject_fn R (VAggregateError [] "Values is empty.") w1)
    else
      (None,
       forEach (λ v index w2,
         let '(q, w3) := static_resolve v w2 in
         let '(t, w4) := then_ q (ResolveOf R) NotCallable w3 in
         (catch t (AnyOnRejected promiseErrors rejectedPromises
                     (length values) index (RejectOf R)) w4).2) values w1)) w0.

(** One step of the client or of the host. *)
Definition exec (o : op) (w : world) : world :=
  match o with
  | New executor => (new_promise executor w).2
  | Call f args => (call f args w).2
  | Then p f g => (then_ p f g w).2
  | Catch p g => (catch p g w).2
  | Finally p f => (finally p f w).2
  | Resolve v => (static_resolve v w).2
  | Reject r => (static_reject r w).2
  | All values => (all values w).2
  | AllSettled values => (allSettled values w).2
  | Race values => (race values w).2
  | Any values => (any values w).2
  | Tick => tick w
  end.

Definition run (os : list op) (w : world) : world :=
  foldl (λ w' o, exec o w') w os.

End Draft1.


(** ** The class, second draft (promise.ts, lines 360-746) *)

Module Draft2.

(** [private runHandlers()], lines 534-593: the queue is swapped for an
    empty one and one microtask per handler is queued, in order. *)
Definition runHandlers (this : nat) (w : world) : world :=
  if is_pending (state_of this w) then w
  else
    let hs := handlers_of this w in
    let w1 := set_heap (alter (λ i, mkInstance (state i) (value i) []) this) w in
    foldl (λ w' h, queueMicrotask (Job this h) w') w1 hs.

(** The [reject] closure of the constructor, lines 456-466. *)
Definition reject_fn (this : nat) (reason : jsvalue) (w : world) : world :=
  if negb (is_pending (state_of this w)) then w
  else
    runHandlers this
      (set_heap (alter (λ i, mkInstance rejected reason (handlers i)) this) w).

(** The tail of the [resolve] closure, lines 451-453. *)
Definition fulfil (this : nat) (v : jsvalue) (w : world) : world :=
  runHandlers this
    (set_heap (alter (λ i, mkInstance fulfilled v (handlers i)) this) w).

(** [constructor(executor)], lines 373-475.  The executor gets the new
    instance, which stands for its [resolve] and [reject] closures, and
    returns the error it throws, if any. *)
Definition construct (executor : nat → world → option jsvalue * world)
    (w : world) : nat * world :=
  let this := length (heap w) in
  let w1 := set_heap (λ h, h ++ [mkInstance pending VUndefined []]) w in
  match executor this w1 with
  | (Some error, w2) => (this, reject_fn this error w2)
  | (None, w2) => (this, w2)
  end.

(** [then(onfulfilled, onrejected)], lines 479-498. *)
Definition then_ (this : nat) (onfulfilled onrejected : callback) (w : world)
    : nat * world :=
  construct (λ d w1,
    let h := mkHandler onfulfilled onrejected (ResolveOf d) (RejectOf d) in
    let w2 := set_heap (alter (λ i, mkInstance (state i) (value i) (handlers i ++ [h])) this) w1 in
    (None, runHandlers this w2)) w.

(** [catch(onrejected)], lines 502-509. *)
Definition catch (this : nat) (onrejected : callback) (w : world) : nat * world :=
  then_ this NotCallable onrejected w.

(** The second guarded callback, lines 430-434. *)
Definition guarded_reject (called this : nat) (r : jsvalue) (w : world) : world :=
  if flag_of called w then w
  else reject_fn this r (set_flags (<[called := true]>) w).

(** The [resolve] closure of the constructor, lines 378-454, and the call
    [then.call(value, ...)] of lines 422-443: the foreign function runs its
    script on the two guarded callbacks, which share the flag [called]. *)
Fixpoint resolve_fn (this : nat) (v : jsvalue) (w : world) {struct v} : world :=
  if negb (is_pending (state_of this w)) then w
  else
    match v with
    | VPromise q =>
        if decide (q = this) then reject_fn this self_resolution_error w
        else (then_ q (ResolveOf this) (RejectOf this) w).2
    | VObject m =>
        match m with
        | ThenGetterThrows error => reject_fn this error w
        | ThenValue _ => fulfil this v w
        | ThenFunction body =>
            let '(called, w1) := new_flag w in
            call_then this called body w1
        end
    | _ => fulfil this v w
    end
with call_then (this called : nat) (body : script) (w : world) {struct body} : world :=
  match body with
  | Done => w
  | Raise error =>
      if flag_of called w then w
      else reject_fn this error (set_flags (<[called := true]>) w)
  | CallFirst v rest =>
      call_then this called rest
        (if flag_of called w then w
         else resolve_fn this v (set_flags (<[called := true]>) w))
  | CallSecond r rest =>
      call_then this called rest (guarded_reject called this r w)
  end.

(** The first guarded callback, lines 425-429. *)
Definition guarded_resolve (called this : nat) (v : jsvalue) (w : world) : world :=
  if flag_of called w then w
  else resolve_fn this v (set_flags (<[called := true]>) w).

(** A client executor run by the constructor: the calls it makes on
    [resolve] and [reject], and the error it throws, if any. *)
Fixpoint run_executor (executor : script) (this : nat) (w : world)
    : option jsvalue * world :=
  match executor with
  | Done => (None, w)
  | Raise error => (Some error, w)
  | CallFirst v rest => run_executor rest this (resolve_fn this v w)
  | CallSecond r rest => run_executor rest this (reject_fn this r w)
  end.

(** [new MyPromise(executor)] *)
Definition new_promise (executor : script) (w : world) : nat * world :=
  construct (run_executor executor) w.

(** [static resolve(value)], lines 598-609. *)
Definition static_resolve (v : jsvalue) (w : world) : nat * world :=
  match v with
  | VPromise q => (q, w)
  | _ => construct (λ d w1, (None, resolve_fn d v w1)) w
  end.

(** [static reject(reason)], lines 613-617. *)
Definition static_reject (reason : jsvalue) (w : world) : nat * world :=
  construct (λ d w1, (None, reject_fn d reason w1)) w.

(** Calling a function value.  The cases follow the function expressions of
    the source: the two closures of the constructor, the two of [finally]
    (lines 517-530) with the continuations they register (lines 521 and
    527-529), and the callbacks of the combinators (lines 635-649, 671-691,
    728-742). *)
Fixpoint call (f : callback) (args : list jsvalue) (w : world) {struct f}
    : completion * world :=
  match f with
  | NotCallable => (Throw (VTypeError "not a function"), w)
  | UserFn label body => (body args, set_calls (λ l, l ++ [(label, args)]) w)
  | ResolveOf p => (Normal VUndefined, resolve_fn p (arg0 args) w)
  | RejectOf p => (Normal VUndefined, reject_fn p (arg0 args) w)
  | GuardedResolve called p =>
      (Normal VUndefined, guarded_resolve called p (arg0 args) w)
  | GuardedReject called p =>
      (Normal VUndefined, guarded_reject called p (arg0 args) w)
  | PassThroughFulfilled onfinally =>
      if negb (is_function onfinally) then (Normal (arg0 args), w)
      else
        match call onfinally [] w with
        | (Throw error, w1) => (Throw error, w1)
        | (Normal r, w1) =>
            let '(q, w2) := static_resolve r w1 in
            let '(t, w3) := then_ q (ReturnValue (arg0 args)) NotCallable w2 in
            (Normal (VPromise t), w3)
        end
  | PassThroughRejected onfinally =>
      match (if negb (is_function onfinally) then (Normal VUndefined, w)
             else call onfinally [] w) with
      | (Throw error, w1) => (Throw error, w1)
      | (Normal r, w1) =>
          let '(q, w2) := static_resolve r w1 in
          let '(t, w3) := then_ q (ThrowReason (arg0 args)) NotCallable w2 in
          (Normal (VPromise t), w3)
      end
  | ReturnValue v => (Normal v, w)
  | ThrowReason reason => (Throw reason, w)
  | AllOnFulfilled promiseResults resolvedPromises len index resolve =>
      let w1 := set_counters (alter S resolvedPromises) w in
      let w2 := set_arrays (alter (array_store index (arg0 args)) promiseResults) w1 in
      if decide (default 0 (counters w2 !! resolvedPromises) = len)
      then (Normal VUndefined, (call resolve [VArray promiseResults] w2).2)
      else (Normal VUndefined, w2)
  | AllOnRejected reject =>
      (Normal VUndefined, (call reject [arg0 args] w).2)
  | AllSettledOnFulfilled promiseResults index =>
      (Normal VUndefined,
       set_arrays (alter (array_store index (VFulfilledDescriptor (arg0 args)))
                     promiseResults) w)
  | AllSettledOnRejected promiseResults index =>
      (Normal VUndefined,
       set_arrays (alter (array_store index (VRejectedDescriptor (arg0 args)))
                     promiseResults) w)
  | AllSettledOnFinally promiseResults resolvedPromises len resolve =>
      let w1 := set_counters (alter S resolvedPromises) w in
      if decide (default 0 (counters w1 !! resolvedPromises) = len)
      then (Normal VUndefined, (call resolve [VArray promiseResults] w1).2)
      else (Normal VUndefined, w1)
  | AnyOnRejected promiseErrors rejectedPromises len index reject =>
      let w1 := set_counters (alter S rejectedPromises) w in
      let w2 := set_arrays (alter (array_store index (arg0 args)) promiseErrors) w1 in
      if decide (default 0 (counters w2 !! rejectedPromises) = len)
      then
        let errors := array_elements (default [] (arrays w2 !! promiseErrors)) in
        (Normal VUndefined,
         (call reject [VAggregateError errors "All promises rejected."] w2).2)
      else (Normal VUndefined, w2)
  end.

(** [finally(onfinally)], lines 514-532. *)
Definition finally (this : nat) (onfinally : callback) (w : world) : nat * world :=
  then_ this (PassThroughFulfilled onfinally) (PassThroughRejected onfinally) w.

(** The body of one microtask, lines 553-591: two [if] statements in a row,
    each reading [this.state] afresh. *)
Definition run_job (j : job) (w : world) : world :=
  let 'Job this h := j in
  let w1 :=
    match state_of this w with
    | fulfilled =>
        if negb (is_function (onfulfilled h)) then
          (call (resolve h) [value_of this w] w).2
        else
          match call (onfulfilled h) [value_of this w] w with
          | (Normal result, w') => (call (resolve h) [result] w').2
          | (Throw error, w') => (call (reject h) [error] w').2
          end
    | _ => w
    end in
  match state_of this w1 with
  | rejected =>
      if negb (is_function (onrejected h)) then
        (call (reject h) [value_of this w1] w1).2
      else
        match call (onrejected h) [value_of this w1] w1 with
        | (Normal result, w') => (call (resolve h) [result] w').2
        | (Throw error, w') => (call (reject h) [error] w').2
        end
  | _ => w1
  end.

(** The host runs the oldest microtask. *)
Definition tick (w : world) : world :=
  match microtasks w with
  | [] => w
  | j :: rest => run_job j (set_microtasks (λ _, rest) w)
  end.

Fixpoint ticks (n : nat) (w : world) : world :=
  match n with
  | 0 => w
  | S n' => ticks n' (tick w)
  end.

(** The host empties the microtask queue, at most [fuel] jobs. *)
Fixpoint drain (fuel : nat) (w : world) : world :=
  match fuel with
  | 0 => w
  | S fuel' =>
      match microtasks w with
      | [] => w
      | _ => drain fuel' (tick w)
      end
  end.

(** [static all(values)], lines 622-652. *)
Definition all (values : list jsvalue) (w : world) : nat * world :=
  let '(promiseResults, w0) := new_array [] w in
  let '(resolvedPromises, w0) := new_counter 0 w0 in
  construct (λ R w1,
    if decide (length values = 0) then
      let '(a, w2) := new_array [] w1 in
      (None, resolve_fn R (VArray a) w2)
    else
      (None,
       forEach (λ v index w2,
         let '(q, w3) := static_resolve v w2 in
         let '(t, w4) :=
           then_ q (AllOnFulfilled promiseResults resolvedPromises
                      (length values) index (ResolveOf R)) NotCallable w3 in
         (catch t (AllOnRejected (RejectOf R)) w4).2) values w1)) w0.

(** [static allSettled(values)], lines 657-694. *)
Definition allSettled (values : list jsvalue) (w : world) : nat * world :=
  let '(promiseResults, w0) := new_array [] w in
  let '(resolvedPromises, w0) := new_counter 0 w0 in
  construct (λ R w1,
    if decide (length values = 0) then
      let '(a, w2) := new_array [] w1 in
      (None, resolve_fn R (VArray a) w2)
    else
      (None,
       forEach (λ v index w2,
         let '(q, w3) := static_resolve v w2 in
         let '(t, w4) :=
           then_ q (AllSettledOnFulfilled promiseResults index) NotCallable w3 in
         let '(c, w5) := catch t (AllSettledOnRejected promiseResults index) w4 in
         (finally c (AllSettledOnFinally promiseResults resolvedPromises
                       (length values) (ResolveOf R)) w5).2) values w1)) w0.

(** [static race(values)], lines 699-707. *)
Definition race (values : list jsvalue) (w : world) : nat * world :=
  construct (λ R w1,
    (None,
     forEach (λ v (_ : nat) w2,
       let '(q, w3) := static_resolve v w2 in
       (then_ q (ResolveOf R) (RejectOf R) w3).2) values w1)) w.

(** [static any(values)], lines 712-745. *)
Definition any (values : list jsvalue) (w : world) : nat * world :=
  let '(promiseErrors, w0) := new_array [] w in
  let '(rejectedPromises, w0) := new_counter 0 w0 in
  construct (λ R w1,
    if decide (length values = 0) then
      (None, reject_fn R (VAggregateError [] "Values is empty.") w1)
    else
      (None,
       forEach (λ v index w2,
         let '(q, w3) := static_resolve v w2 in
         let '(t, w4) := then_ q (ResolveOf R) NotCallable w3 in
         (catch t (AnyOnRejected promiseErrors rejectedPromises
                     (length values) index (RejectOf R)) w4).2) values w1)) w0.

(** One step of the client or of the host. *)
Definition exec (o : op) (w : world) : world :=
  match o with
  | New executor => (new_promise executor w).2
  | Call f args => (call f args w).2
  | Then p f g => (then_ p f g w).2
  | Catch p g => (catch p g w).2
  | Finally p f => (finally p f w).2
  | Resolve v => (static_resolve v w).2
  | Reject r => (static_reject r w).2
  | All values => (all values w).2
  | AllSettled values => (allSettled values w).2
  | Race values => (race values w).2
  | Any values => (any values w).2
  | Tick => tick w
  end.

Definition run (os : list op) (w : world) : world :=
  foldl (λ w' o, exec o w') w os.

End Draft2.

(** ** The class, first sketch (promise.ts, lines 778-886)

    Continuations are run inside the call that registers or settles, so the
    sketch needs no microtask queue: a world is a heap and the log. *)

Module Draft3.

(** [type PromiseState = "pending" | "fullfilled" | "rejected"], line 757. *)
Inductive PromiseState := pending | fullfilled | rejected.

(** The functions of the sketch: what the client passes, the two closures of
    the constructor and the two of [finally] (lines 834-848). *)
Inductive callback :=
  | NotCallable
  | UserFn (label : nat) (body : list jsvalue → completion)
  | ResolveOf (p : nat)
  | RejectOf (p : nat)
  | PassThroughFulfilled (onfinally : callback)
  | PassThroughRejected (onfinally : callback).

(** [type Handler<T>], lines 771-776. *)
Record Handler := mkHandler {
  onfulfilled : callback;
  onrejected : callback;
  resolve : callback;
  reject : callback
}.

Record instance := mkInstance {
  state : PromiseState;
  value : jsvalue;
  handlers : list Handler
}.

Record world := mkWorld {
  heap : list instance;
  calls : list (nat * list jsvalue)
}.

Definition empty_world : world := mkWorld [] [].

Definition set_heap (f : list instance → list instance) (w : world) : world :=
  mkWorld (f (heap w)) (calls w).

Definition set_calls (f : list (nat * list jsvalue) → list (nat * list jsvalue))
    (w : world) : world :=
  mkWorld (heap w) (f (calls w)).

Definition state_of (p : nat) (w : world) : PromiseState :=
  match heap w !! p with Some i => state i | None => pending end.

Definition value_of (p : nat) (w : world) : jsvalue :=
  match heap w !! p with Some i => value i | None => VUndefined end.

Definition handlers_of (p : nat) (w : world) : list Handler :=
  match heap w !! p with Some i => handlers i | None => [] end.

Definition is_pending (s : PromiseState) : bool :=
  match s with pending => true | _ => false end.

(** [!f], for [f] a function, [null] or [undefined]. *)
Definition is_absent (f : callback) : bool :=
  match f with NotCallable => true | _ => false end.

Section cascade.

(** [runHandlers] as it is called on the instances that a call settles. *)
Variable runHandlers_rec : nat → world → option world.

(** The [resolve] closure (lines 786-791, [s] is ["fullfilled"]) and the
    [reject] closure (lines 792-797, [s] is ["rejected"]). *)
Definition settle_with (s : PromiseState) (this : nat) (v : jsvalue) (w : world)
    : option world :=
  if negb (is_pending (state_of this w)) then Some w
  else runHandlers_rec this
         (set_heap (alter (λ i, mkInstance s v (handlers i)) this) w).

(** Calling a function value. *)
Fixpoint call_with (f : callback) (args : list jsvalue) (w : world) {struct f}
    : option (completion * world) :=
  match f with
  | NotCallable => Some (Throw (VTypeError "not a function"), w)
  | UserFn label body => Some (body args, set_calls (λ l, l ++ [(label, args)]) w)
  | ResolveOf p =>
      w' ← settle_with fullfilled p (arg0 args) w; Some (Normal VUndefined, w')
  | RejectOf p =>
      w' ← settle_with rejected p (arg0 args) w; Some (Normal VUndefined, w')
  | PassThroughFulfilled onfinally =>
      if is_absent onfinally then Some (Normal (arg0 args), w)
      else
        r ← call_with onfinally [] w;
        match r.1 with
        | Throw error => Some (Throw error, r.2)
        | Normal _ => Some (Normal (arg0 args), r.2)
        end
  | PassThroughRejected onfinally =>
      if is_absent onfinally then Some (Throw (arg0 args), w)
      else
        r ← call_with onfinally [] w;
        match r.1 with
        | Throw error => Some (Throw error, r.2)
        | Normal _ => Some (Throw (arg0 args), r.2)
        end
  end.

(** The body of the [forEach] of [runHandlers], lines 858-882: two [if]
    statements in a row, each reading [this.state] afresh. *)
Definition run_handler (this : nat) (h : Handler) (w : world) : option world :=
  w1 ← match state_of this w with
       | fullfilled =>
           if is_absent (onfulfilled h) then
             snd <$> call_with (resolve h) [value_of this w] w
           else
             r ← call_with (onfulfilled h) [value_of this w] w;
             match r.1 with
             | Normal result => snd <$> call_with (resolve h) [result] r.2
             | Throw error => snd <$> call_with (reject h) [error] r.2
             end
       | _ => Some w
       end;
  match state_of this w1 with
  | rejected =>
      if is_absent (onrejected h) then
        snd <$> call_with (reject h) [value_of this w1] w1
      else
        r ← call_with (onrejected h) [value_of this w1] w1;
        match r.1 with
        | Normal result => snd <$> call_with (reject h) [result] r.2
        | Throw error => snd <$> call_with (reject h) [error] r.2
        end
  | _ => Some w1
  end.

End cascade.

(** [private runHandlers()], lines 852-885.  The handlers run inside the
    call, and the closures they call run the handlers of the instances they
    settle: the depth of this nesting is bounded by [fuel]. *)
Fixpoint runHandlers (fuel : nat) (this : nat) (w : world) : option world :=
  match fuel with
  | 0 => None
  | S fuel' =>
      if is_pending (state_of this w) then Some w
      else
        w' ← foldl (λ ow h, ow ≫= run_handler (runHandlers fuel') this h)
               (Some w) (handlers_of this w);
        Some (set_heap (alter (λ i, mkInstance (state i) (value i) []) this) w')
  end.

(** The client functions of this model return or throw without calling the
    class themselves.  For them every nested call of [runHandlers] follows
    the settlement of a pending instance, so there are no more of them than
    instances. *)
Definition enough_fuel (w : world) : nat := S (length (heap w)).

Definition resolve_fn (this : nat) (v : jsvalue) (w : world) : option world :=
  settle_with (runHandlers (enough_fuel w)) fullfilled this v w.

Definition reject_fn (this : nat) (reason : jsvalue) (w : world) : option world :=
  settle_with (runHandlers (enough_fuel w)) rejected this reason w.

Definition call (f : callback) (args : list jsvalue) (w : world)
    : option (completion * world) :=
  call_with (runHandlers (enough_fuel w)) f args w.

(** [constructor(executor)], lines 785-804. *)
Definition construct (executor : nat → world → option (option jsvalue * world))
    (w : world) : option (nat * world) :=
  let this := length (heap w) in
  let w1 := set_heap (λ h, h ++ [mkInstance pending VUndefined []]) w in
  r ← executor this w1;
  match r.1 with
  | Some error => w3 ← reject_fn this error r.2; Some (this, w3)
  | None => Some (this, r.2)
  end.

(** [then(onfulfilled, onrejected)], lines 806-820. *)
Definition then_ (this : nat) (onfulfilled onrejected : callback) (w : world)
    : option (nat * world) :=
  construct (λ d w1,
    let h := mkHandler onfulfilled onrejected (ResolveOf d) (RejectOf d) in
    let w2 := set_heap (alter (λ i, mkInstance (state i) (value i) (handlers i ++ [h])) this) w1 in
    w3 ← runHandlers (enough_fuel w2) this w2; Some (None, w3)) w.

(** [catch(onrejected)], lines 822-829. *)
Definition catch (this : nat) (onrejected : callback) (w : world)
    : option (nat * world) :=
  then_ this NotCallable onrejected w.

(** [finally(onfinally)], lines 831-850. *)
Definition finally (this : nat) (onfinally : callback) (w : world)
    : option (nat * world) :=
  then_ this (PassThroughFulfilled onfinally) (PassThroughRejected onfinally) w.

(** A client executor run by the constructor. *)
Fixpoint run_executor (executor : script) (this : nat) (w : world)
    : option (option jsvalue * world) :=
  match executor with
  | Done => Some (None, w)
  | Raise error => Some (Some error, w)
  | CallFirst v rest => resolve_fn this v w ≫= run_executor rest this
  | CallSecond r rest => reject_fn this r w ≫= run_executor rest this
  end.

(** [new MyPromise(executor)] *)
Definition new_promise (executor : script) (w : world) : option (nat * world) :=
  construct (run_executor executor) w.

(** What the client can do, one step at a time. *)
Inductive op :=
  | New (executor : script)
  | Call (f : callback) (args : list jsvalue)
  | Then (p : nat) (onfulfilled onrejected : callback)
  | Catch (p : nat) (onrejected : callback)
  | Finally (p : nat) (onfinally : callback).

Definition exec (o : op) (w : world) : option world :=
  match o with
  | New executor => snd <$> new_promise executor w
  | Call f args => snd <$> call f args w
  | Then p f g => snd <$> then_ p f g w
  | Catch p g => snd <$> catch p g w
  | Finally p f => snd <$> finally p f w
  end.

Definition run (os : list op) (w : world) : option world :=
  foldl (λ ow o, ow ≫= exec o) (Some w) os.

End Draft3.


(** ** The test adapter (src/promise/test/adapter.js) *)

Module Adapter.

(** [resolved(value)], lines 7-9. *)
Definition resolved (value : jsvalue) (w : world) : nat * world :=
  Draft1.static_resolve value w.

(** [rejected(reason)], lines 11-13. *)
Definition rejected (reason : jsvalue) (w : world) : nat * world :=
  Draft1.static_reject reason w.

(** The object that [deferred] returns. *)
Record Deferred := mkDeferred {
  promise : nat;
  resolve : callback;
  reject : callback
}.

(** [deferred()], lines 15-22: the executor keeps the two closures and calls
    neither. *)
Definition deferred (w : world) : Deferred * world :=
  let '(p, w1) := Draft1.new_promise Done w in
  (mkDeferred p (ResolveOf p) (RejectOf p), w1).

End Adapter.

Import Draft1.

(** ** Notions used in the statements *)

(** An object or function exposing a callable [then]; the instances of the
    class are such objects. *)
Definition callable_then (v : jsvalue) : bool :=
  match v with
  | VPromise _ | VObject (ThenFunction _) => true
  | _ => false
  end.

(** An object whose [then] member cannot be read: the getter throws. *)
Definition then_throws (v : jsvalue) : bool :=
  match v with
  | VObject (ThenGetterThrows _) => true
  | _ => false
  end.

Definition settled_world (this : nat) (s : PromiseState) (v : jsvalue)
    (hs : list Handler) (w : world) : world :=
  set_microtasks (λ q, q ++ (Job this <$> hs))
    (set_heap (<[this := mkInstance s v []]>) w).

(** A new instance, as the constructor finds it. *)
Definition fresh_instance : instance := mkInstance pending VUndefined [].


Definition keeps_settled (w w' : world) : Prop :=
  ∀ p, state_of p w ≠ pending →
       state_of p w' = state_of p w ∧ value_of p w' = value_of p w.

Definition keeps_flags (w w' : world) : Prop :=
  ∀ c, flag_of c w = true → flag_of c w' = true.

(** What every step of the client or of the host preserves. *)
Record stable (w w' : world) : Prop := mkStable {
  stable_settled : keeps_settled w w';
  stable_flags : keeps_flags w w';
  stable_calls : calls w `prefix_of` calls w';
  stable_heap : length (heap w) ≤ length (heap w')
}.

(** What every step other than a tick preserves: microtasks are only added,
    at the end of the queue. *)
Record evolves (w w' : world) : Prop := mkEvolves {
  evolves_stable : stable w w';
  evolves_queue : microtasks w `prefix_of` microtasks w'
}.

(** A step in which no function of the client runs. *)
Record quiet (w w' : world) : Prop := mkQuiet {
  quiet_evolves : evolves w w';
  quiet_calls : calls w' = calls w
}.


(** A continuation of the client: a label and a body, used for both
    branches. *)
Definition continuation : Type := nat * (list jsvalue → completion).

(** [p.then(k, k)] for each continuation in turn. *)
Definition register_all (p : nat) (ks : list continuation) (w : world) : world :=
  foldl (λ w' (k : continuation), (then_ p (UserFn k.1 k.2) (UserFn k.1 k.2) w').2) w ks.

(** The handler that [then] stores for a continuation. *)
Definition registered (k : continuation) (h : Handler) : Prop :=
  onfulfilled h = UserFn k.1 k.2 ∧ onrejected h = UserFn k.1 k.2 ∧
  ∃ d, resolve h = ResolveOf d ∧ reject h = RejectOf d.

(** One round of the [forEach] of [all] and [any]: the element is wrapped,
    [f1 index] is registered on it with [then] and [f2 index] on the result
    with [catch]. *)
Definition subscribe (f1 f2 : nat → callback) (v : jsvalue) (index : nat)
    (w : world) : world :=
  let '(q, w3) := static_resolve v w in
  let '(t, w4) := then_ q (f1 index) NotCallable w3 in
  (catch t (f2 index) w4).2.


(** The parts of a world other than its instances. *)
Definition same_stores (w w' : world) : Prop :=
  arrays w' = arrays w ∧ counters w' = counters w ∧ flags w' = flags w ∧
  microtasks w' = microtasks w ∧ calls w' = calls w.

(** The host has taken the microtasks out of the queue. *)
Definition pop_all (w : world) : world := set_microtasks (λ _, []) w.





(** The client settles [p] through one of its closures. *)
Definition settle (p : nat) (s : PromiseState) (v : jsvalue) (w : world) : world :=
  match s with
  | fulfilled => exec (Call (ResolveOf p) [v]) w
  | rejected => exec (Call (RejectOf p) [v]) w
  | pending => w
  end.

(** A continuation has been registered on [p], giving the world [w1]; [p]
    was settled with [s] and [v] before that, or is settled with them now. *)
Definition once_settled (was : PromiseState) (p : nat) (s : PromiseState)
    (v : jsvalue) (w1 : world) : world :=
  match was with pending => settle p s v w1 | _ => w1 end.

(** ** Notions used in the properties of the other operations *)

(** *** Client functions that throw *)

(** The error with which a client function ends, if it throws. *)
Fixpoint thrown (body : script) : option jsvalue :=
  match body with
  | Done => None
  | Raise error => Some error
  | CallFirst _ rest | CallSecond _ rest => thrown rest
  end.

(** The same calls, followed by a normal return. *)
Fixpoint returning (body : script) : script :=
  match body with
  | Done | Raise _ => Done
  | CallFirst v rest => CallFirst v (returning rest)
  | CallSecond r rest => CallSecond r (returning rest)
  end.

(** *** [race] *)

(** One round of the [forEach] of [race]. *)
Definition race_round (R : nat) (v : jsvalue) (index : nat) (w : world) : world :=
  let '(q, w3) := static_resolve v w in
  (then_ q (ResolveOf R) (RejectOf R) w3).2.

(** The handler that a round of [race] stores when [d] is the instance that
    its [then] returns. *)
Definition race_handler (R d : nat) : Handler :=
  mkHandler (ResolveOf R) (RejectOf R) (ResolveOf d) (RejectOf d).

(** The microtasks that the rounds of [race] queue: one for each element that
    is settled already, in the order of the elements; [d] is the instance
    returned by the first round. *)
Fixpoint race_jobs (w : world) (R d : nat) (ps : list nat) : list job :=
  match ps with
  | [] => []
  | p :: ps' =>
      (if is_pending (state_of p w) then [] else [Job p (race_handler R d)])
      ++ race_jobs w R (S d) ps'
  end.

(** An instance on which nothing is registered. *)
Definition idle (p : nat) (w : world) : Prop :=
  ∃ i, heap w !! p = Some i ∧ handlers i = [].

(** The instance [p] after a round of [race] that returned [d]. *)
Definition raced (R d : nat) (i : instance) : instance :=
  if is_pending (state i) then mkInstance pending (value i) [race_handler R d] else i.

(** *** [allSettled] *)

(** One round of the [forEach] of [allSettled]: [a] is the array
    [promiseResults], [c] the counter [resolvedPromises], [len] the number of
    elements and [R] the instance under construction. *)
Definition allSettled_round (a c len R : nat) (v : jsvalue) (index : nat)
    (w : world) : world :=
  let '(q, w3) := static_resolve v w in
  let '(t, w4) := then_ q (AllSettledOnFulfilled a index) NotCallable w3 in
  let '(u, w5) := catch t (AllSettledOnRejected a index) w4 in
  (finally u (AllSettledOnFinally a c len (ResolveOf R)) w5).2.

(** The handler that [finally] stores for [onfinally] when it returns [f]. *)
Definition finally_handler (onfinally : callback) (f : nat) : Handler :=
  mkHandler (PassThroughFulfilled onfinally) (PassThroughRejected onfinally)
    (ResolveOf f) (RejectOf f).

(** The element [p] of index [index] is pending, and so are the three
    instances chained to it by a round of [allSettled]. *)
Definition awaits_settlement (a c len R index p t u f : nat) (w : world) : Prop :=
  heap w !! p = Some (mkInstance pending VUndefined
                        [mkHandler (AllSettledOnFulfilled a index) NotCallable
                           (ResolveOf t) (RejectOf t)]) ∧
  heap w !! t = Some (mkInstance pending VUndefined
                        [mkHandler NotCallable (AllSettledOnRejected a index)
                           (ResolveOf u) (RejectOf u)]) ∧
  heap w !! u = Some (mkInstance pending VUndefined
                        [finally_handler (AllSettledOnFinally a c len (ResolveOf R)) f]) ∧
  heap w !! f = Some fresh_instance.

(** What [allSettled] stores for an element settled with [s] and [v]. *)
Definition descriptor (s : PromiseState) (v : jsvalue) : jsvalue :=
  match s with
  | rejected => VRejectedDescriptor v
  | _ => VFulfilledDescriptor v
  end.

(** The elements are settled one after the other, each settlement followed by
    the five microtasks it causes. *)
Definition settle_elements (ps : list nat)
    (es : list (nat * (PromiseState * jsvalue))) (w : world) : world :=
  foldl (λ w' (e : nat * (PromiseState * jsvalue)),
           ticks 5 (settle (ps !!! e.1) e.2.1 e.2.2 w')) w es.

(** The world of [allSettled(ps)] once the elements listed in [seen] (index
    and descriptor) are settled. *)
Record allSettled_inv (ps : list nat) (R a c : nat) (seen : list (nat * jsvalue))
    (w : world) : Prop := mkAllSettledInv {
  allSettled_queue : microtasks w = [];
  allSettled_counter : counters w !! c = Some (length seen);
  allSettled_array : ∃ arr, arrays w !! a = Some arr ∧ length arr ≤ length ps ∧
                            ∀ i d, (i, d) ∈ seen → arr !! i = Some (Some d);
  allSettled_result : heap w !! R =
                        Some (if decide (length seen = length ps)
                              then mkInstance fulfilled (VArray a) []
                              else fresh_instance);
  allSettled_waiting : ∀ i p, ps !! i = Some p → i ∉ seen.*1 →
                         awaits_settlement a c (length ps) R i p
                           (R + 1 + 3 * i) (R + 1 + 3 * i + 1) (R + 1 + 3 * i + 2) w
}.

(** *** Handlers of settled instances *)

(** No settled instance holds a handler. *)
Definition tidy (w : world) : Prop :=
  ∀ p i, heap w !! p = Some i → state i ≠ pending → handlers i = [].

(** The same, for the instances other than [this]. *)
Definition tidy_but (this : nat) (w : world) : Prop :=
  ∀ p i, p ≠ this → heap w !! p = Some i → state i ≠ pending → handlers i = [].

(** *** Combinators on values that are not thenables *)

(** Neither an instance nor an object with a callable or unreadable [then]:
    [MyPromise.resolve] wraps such a value in a new, fulfilled instance. *)
Definition plain (v : jsvalue) : Prop :=
  callable_then v = false ∧ then_throws v = false.

(** The handlers that a round of [all] or [any] stores: on the wrapped
    element, which is the instance [d], and on the instance that [then]
    returned. *)
Definition first_handler (f1 : nat → callback) (d index : nat) : Handler :=
  mkHandler (f1 index) NotCallable (ResolveOf (d + 1)) (RejectOf (d + 1)).

Definition second_handler (f2 : nat → callback) (d index : nat) : Handler :=
  mkHandler NotCallable (f2 index) (ResolveOf (d + 2)) (RejectOf (d + 2)).

(** The microtasks queued by the rounds of [all] or [any] on values that are
    plain: one for each wrapping instance, the first of them being [d]. *)
Fixpoint wrapper_jobs (f1 : nat → callback) (d index : nat) (vs : list jsvalue)
    : list job :=
  match vs with
  | [] => []
  | _ :: vs' => Job d (first_handler f1 d index) :: wrapper_jobs f1 (d + 3) (S index) vs'
  end.

(** The world of [all(vs)], all of [vs] plain, after [k] microtasks: the
    first [k] values are counted and stored, and the instances that [then]
    returned for them wait in the queue behind the wrappers of the other
    values. *)
Record all_plain_inv (vs : list jsvalue) (R a c k : nat) (w : world) : Prop :=
  mkAllPlainInv {
  all_plain_queue :
    microtasks w =
      wrapper_jobs (λ index, AllOnFulfilled a c (length vs) index (ResolveOf R))
        (R + 1 + 3 * k) k (drop k vs) ++
      ((λ j, Job (R + 1 + 3 * j + 1)
               (second_handler (λ _, AllOnRejected (RejectOf R)) (R + 1 + 3 * j) j))
         <$> seq 0 k);
  all_plain_counter : counters w !! c = Some k;
  all_plain_array : arrays w !! a = Some (Some <$> take k vs);
  all_plain_result : heap w !! R =
                       Some (if decide (k = length vs)
                             then mkInstance fulfilled (VArray a) []
                             else fresh_instance);
  all_plain_waiting : ∀ j v, k ≤ j → vs !! j = Some v →
      heap w !! (R + 1 + 3 * j) = Some (mkInstance fulfilled v []) ∧
      heap w !! (R + 1 + 3 * j + 1) =
        Some (mkInstance pending VUndefined
                [second_handler (λ _, AllOnRejected (RejectOf R)) (R + 1 + 3 * j) j])
}.

(** *** The first sketch *)

(** The instances of a heap that are pending. *)
Fixpoint count_pending (h : list Draft3.instance) : nat :=
  match h with
  | [] => 0
  | i :: h' => (if Draft3.is_pending (Draft3.state i) then 1 else 0) + count_pending h'
  end.

(** The handler that [then] stores when it returns [d]. *)
Definition d3_handler (f g : Draft3.callback) (d : nat) : Draft3.Handler :=
  Draft3.mkHandler f g (Draft3.ResolveOf d) (Draft3.RejectOf d).

(** The world in which [then] runs the handlers of a settled instance on
    which nothing else is registered. *)
Definition d3_registered (p : nat) (s : Draft3.PromiseState) (v : jsvalue)
    (hd : Draft3.Handler) (w : Draft3.world) : Draft3.world :=
  Draft3.set_heap
    (λ h, <[p := Draft3.mkInstance s v [hd]]> h
          ++ [Draft3.mkInstance Draft3.pending VUndefined []]) w.

(** More fuel changes no result: [rec'] returns what [rec] returns. *)
Definition extends (rec rec' : nat → Draft3.world → option Draft3.world) : Prop :=
  ∀ p w w', rec p w = Some w' → rec' p w = Some w'.

(** No call of the sketch adds an instance or makes one pending. *)
Definition shrinks (w w' : Draft3.world) : Prop :=
  count_pending (Draft3.heap w') ≤ count_pending (Draft3.heap w) ∧
  length (Draft3.heap w') = length (Draft3.heap w).

(** [rec] returns on every instance that is pending, and on every settled one
    as long as fewer than [n - 1] instances are pending. *)
Definition returns_below (n : nat) (rec : nat → Draft3.world → option Draft3.world)
    : Prop :=
  ∀ p w, (Draft3.state_of p w ≠ Draft3.pending →
          count_pending (Draft3.heap w) + 1 < n) →
         ∃ w', rec p w = Some w' ∧ shrinks w w'.

(** What the downstream instance gets when the continuation chosen by the
    state [s] of the source ends with [c]: in the rejected branch the value
    returned goes to the downstream [reject] as well (line 877). *)
Definition d3_result (s : Draft3.PromiseState) (c : completion)
    : Draft3.PromiseState * jsvalue :=
  match s, c with
  | Draft3.fullfilled, Normal x => (Draft3.fullfilled, x)
  | _, Normal x => (Draft3.rejected, x)
  | _, Throw e => (Draft3.rejected, e)
  end.

(** Every instance that is settled in [w] has the same state and the same
    result in [w']. *)
Definition d3_final (w w' : Draft3.world) : Prop :=
  ∀ p, Draft3.state_of p w ≠ Draft3.pending →
       Draft3.state_of p w' = Draft3.state_of p w ∧
       Draft3.value_of p w' = Draft3.value_of p w.

(** Whatever [rec] returns, it leaves the settled instances as they were. *)
Definition d3_finalises (rec : nat → Draft3.world → option Draft3.world) : Prop :=
  ∀ p w w', rec p w = Some w' → d3_final w w'.
(** ** Observations on a world under the elementary updates *)

Section observations.
Implicit Types (w : world) (p q : nat) (i : instance).

Lemma state_of_Some w p i : heap w !! p = Some i → state_of p w = state i.
Proof. unfold state_of. by intros ->. Qed.

Lemma value_of_Some w p i : heap w !! p = Some i → value_of p w = value i.
Proof. unfold value_of. by intros ->. Qed.

Lemma handlers_of_Some w p i : heap w !! p = Some i → handlers_of p w = handlers i.
Proof. unfold handlers_of. by intros ->. Qed.

Lemma state_of_lt w p : state_of p w ≠ pending → p < length (heap w).
Proof.
  unfold state_of. intros H. apply lookup_lt_is_Some.
  destruct (heap w !! p); [eauto | done].
Qed.

Lemma lookup_alloc (h : list instance) i p :
  (h ++ [i]) !! p =
    if decide (p < length h) then h !! p
    else if decide (p = length h) then Some i else None.
Proof.
  repeat case_decide.
  - by apply lookup_app_l.
  - subst. rewrite lookup_app_r by lia. by rewrite Nat.sub_diag.
  - apply lookup_ge_None. rewrite length_app. simpl. lia.
Qed.

Lemma lookup_alloc_lt (h : list instance) i p :
  p < length h → (h ++ [i]) !! p = h !! p.
Proof. apply lookup_app_l. Qed.

Lemma lookup_alloc_new (h : list instance) i : (h ++ [i]) !! length h = Some i.
Proof. rewrite lookup_alloc. repeat case_decide; (done || lia). Qed.

End observations.

(** ** Monotonicity of worlds *)

Lemma keeps_settled_refl w : keeps_settled w w.
Proof. by intros p _. Qed.

Lemma keeps_settled_trans w1 w2 w3 :
  keeps_settled w1 w2 → keeps_settled w2 w3 → keeps_settled w1 w3.
Proof.
  intros H12 H23 p Hp. destruct (H12 p Hp) as [Hs Hv].
  destruct (H23 p) as [Hs' Hv']; [congruence|]. split; congruence.
Qed.

Lemma stable_refl w : stable w w.
Proof. split; [apply keeps_settled_refl | by intros c | done | done]. Qed.

Lemma stable_trans w1 w2 w3 : stable w1 w2 → stable w2 w3 → stable w1 w3.
Proof.
  intros [S1 F1 C1 H1] [S2 F2 C2 H2]. split.
  - by eapply keeps_settled_trans.
  - intros c Hc. by apply F2, F1.
  - by etrans.
  - lia.
Qed.

Lemma evolves_refl w : evolves w w.
Proof. split; [apply stable_refl | done]. Qed.

Lemma evolves_trans w1 w2 w3 : evolves w1 w2 → evolves w2 w3 → evolves w1 w3.
Proof.
  intros [S1 Q1] [S2 Q2]. split; [by eapply stable_trans | by etrans].
Qed.

Lemma quiet_refl w : quiet w w.
Proof. split; [apply evolves_refl | done]. Qed.

Lemma quiet_trans w1 w2 w3 : quiet w1 w2 → quiet w2 w3 → quiet w1 w3.
Proof.
  intros [E1 C1] [E2 C2]. split; [by eapply evolves_trans | congruence].
Qed.

Ltac split_quiet :=
  split; [split; [split|]|];
  [ try exact (keeps_settled_refl _)
  | try (intros ? Hflag; exact Hflag)
  | try reflexivity
  | try (simpl; lia)
  | try reflexivity
  | try reflexivity ].

Lemma keeps_flags_refl w : keeps_flags w w.
Proof. by intros c. Qed.

#[local] Hint Resolve keeps_settled_refl keeps_flags_refl : core.

(** A step that touches neither queue, log nor flags is quiet as soon as it
    keeps the settled instances. *)
Lemma quiet_heap_only w f :
  keeps_settled w (set_heap f w) → length (heap w) ≤ length (f (heap w)) →
  quiet w (set_heap f w).
Proof. intros H Hl. by split_quiet. Qed.

Lemma quiet_alloc w i : quiet w (set_heap (λ h, h ++ [i]) w).
Proof.
  apply quiet_heap_only; [|rewrite length_app; lia].
  intros p Hp. apply state_of_lt in Hp.
  unfold state_of, value_of. simpl. by rewrite lookup_alloc_lt.
Qed.

Lemma quiet_alter_keep w f p :
  (∀ i, state (f i) = state i ∧ value (f i) = value i) →
  quiet w (set_heap (alter f p) w).
Proof.
  intros Hf. apply quiet_heap_only; [|by rewrite length_alter]. intros q _.
  unfold state_of, value_of. simpl. rewrite list_lookup_alter.
  case_decide; [subst|done]. destruct (heap w !! q) as [i|]; [|done].
  simpl. apply Hf.
Qed.

Lemma quiet_alter_pending w f p :
  state_of p w = pending → quiet w (set_heap (alter f p) w).
Proof.
  intros Hp. apply quiet_heap_only; [|by rewrite length_alter]. intros q Hq.
  assert (p ≠ q) as Hne by (intros ->; done).
  unfold state_of, value_of. simpl. by rewrite list_lookup_alter_ne.
Qed.

Lemma quiet_queueMicrotask w j : quiet w (queueMicrotask j w).
Proof. split_quiet. by apply prefix_app_r. Qed.

Lemma quiet_set_arrays w f : quiet w (set_arrays f w).
Proof. split_quiet. Qed.

Lemma quiet_set_counters w f : quiet w (set_counters f w).
Proof. split_quiet. Qed.

Lemma quiet_new_flag w : quiet w (new_flag w).2.
Proof.
  split_quiet. intros c. unfold flag_of. simpl.
  destruct (flags w !! c) as [b|] eqn:E; [|done].
  by rewrite (lookup_app_l_Some _ _ _ _ E).
Qed.

Lemma quiet_raise_flag w c : quiet w (set_flags (<[c := true]>) w).
Proof.
  split_quiet. intros c'. unfold flag_of. simpl.
  destruct (decide (c = c')) as [->|Hne].
  - destruct (flags w !! c') eqn:E; [|done]. intros _.
    rewrite list_lookup_insert_eq; [done|]. by eapply lookup_lt_Some.
  - by rewrite list_lookup_insert_ne.
Qed.

Lemma evolves_set_calls w l :
  evolves w (set_calls (λ c, c ++ l) w).
Proof.
  split; [split|]; [exact (keeps_settled_refl _) | by intros c | |done|done].
  by apply prefix_app_r.
Qed.

Lemma quiet_foldl {A} (f : world → A → world) (l : list A) w :
  (∀ w' x, quiet w' (f w' x)) → quiet w (foldl f w l).
Proof.
  intros Hf. revert w. induction l as [|x l IH]; intros w; simpl.
  - apply quiet_refl.
  - eapply quiet_trans; [apply Hf | apply IH].
Qed.

Lemma quiet_forEach_from {A} (f : A → nat → world → world) (l : list A) n w :
  (∀ x k w', quiet w' (f x k w')) → quiet w (forEach_from n f l w).
Proof.
  intros Hf. revert n w. induction l as [|x l IH]; intros n w; simpl.
  - apply quiet_refl.
  - eapply quiet_trans; [apply Hf | apply IH].
Qed.

(** ** Every operation of the class keeps settled instances settled *)

Lemma quiet_runHandlers this w : quiet w (runHandlers this w).
Proof.
  unfold runHandlers. destruct (is_pending _); [apply quiet_refl|].
  eapply quiet_trans; last (apply quiet_foldl; intros; apply quiet_queueMicrotask).
  by apply quiet_alter_keep.
Qed.

Lemma quiet_reject_fn this reason w : quiet w (reject_fn this reason w).
Proof.
  unfold reject_fn. destruct (is_pending (state_of this w)) eqn:E; simpl;
    [|apply quiet_refl].
  eapply quiet_trans; [|apply quiet_runHandlers].
  apply quiet_alter_pending. by destruct (state_of this w).
Qed.

Lemma quiet_fulfil this v w :
  state_of this w = pending → quiet w (fulfil this v w).
Proof.
  intros E. unfold fulfil.
  eapply quiet_trans; [|apply quiet_runHandlers].
  by apply quiet_alter_pending.
Qed.

Lemma quiet_construct executor w :
  (∀ d w', quiet w' (executor d w').2) → quiet w (construct executor w).2.
Proof.
  intros He. unfold construct.
  pose proof (He (length (heap w))
    (set_heap (λ h, h ++ [mkInstance pending VUndefined []]) w)) as H.
  destruct (executor _ _) as [[error|] w2]; simpl in *.
  - eapply quiet_trans; [apply quiet_alloc|].
    eapply quiet_trans; [apply H | apply quiet_reject_fn].
  - eapply quiet_trans; [apply quiet_alloc | apply H].
Qed.

Lemma quiet_then this f g w : quiet w (then_ this f g w).2.
Proof.
  unfold then_. apply quiet_construct. intros d w'. simpl.
  eapply quiet_trans; last apply quiet_runHandlers.
  by apply quiet_alter_keep.
Qed.

Lemma quiet_catch this g w : quiet w (catch this g w).2.
Proof. apply quiet_then. Qed.

Lemma quiet_finally this f w : quiet w (finally this f w).2.
Proof. apply quiet_then. Qed.

Lemma quiet_guarded_reject called this r w :
  quiet w (guarded_reject called this r w).
Proof.
  unfold guarded_reject. destruct (flag_of called w); [apply quiet_refl|].
  eapply quiet_trans; [apply quiet_raise_flag | apply quiet_reject_fn].
Qed.

Lemma is_pending_true s : is_pending s = true → s = pending.
Proof. by destruct s. Qed.

#[warnings="-register-all"]
Scheme jsvalue_rec_ind := Induction for jsvalue Sort Prop
  with then_member_rec_ind := Induction for then_member Sort Prop
  with script_rec_ind := Induction for script Sort Prop.

Combined Scheme jsvalue_script_ind
  from jsvalue_rec_ind, then_member_rec_ind, script_rec_ind.

Lemma quiet_resolve_fn_call_then :
  (∀ v this w, quiet w (resolve_fn this v w)) ∧
  (∀ m this w, quiet w (resolve_fn this (VObject m) w)) ∧
  (∀ body this called w, quiet w (call_then this called body w)).
Proof.
  apply jsvalue_script_ind; intros; simpl;
    try (destruct (is_pending (state_of this w)) eqn:E; simpl;
         [apply is_pending_true in E | apply quiet_refl]);
    try (apply quiet_fulfil; assumption);
    try apply quiet_reject_fn; try apply quiet_refl.
  - case_decide; [apply quiet_reject_fn | apply quiet_then].
  - specialize (H this w). simpl in H. by rewrite E in H.
  - eapply quiet_trans; [apply quiet_new_flag | apply H].
  - destruct (flag_of called w); [apply quiet_refl|].
    eapply quiet_trans; [apply quiet_raise_flag | apply quiet_reject_fn].
  - eapply quiet_trans; [|apply H0].
    destruct (flag_of called w); [apply quiet_refl|].
    eapply quiet_trans; [apply quiet_raise_flag | apply H].
  - eapply quiet_trans; [apply quiet_guarded_reject | apply H0].
Qed.

Lemma quiet_resolve_fn this v w : quiet w (resolve_fn this v w).
Proof. apply quiet_resolve_fn_call_then. Qed.

Lemma quiet_call_then this called body w : quiet w (call_then this called body w).
Proof. apply quiet_resolve_fn_call_then. Qed.

Lemma quiet_guarded_resolve called this v w :
  quiet w (guarded_resolve called this v w).
Proof.
  unfold guarded_resolve. destruct (flag_of called w); [apply quiet_refl|].
  eapply quiet_trans; [apply quiet_raise_flag | apply quiet_resolve_fn].
Qed.

Lemma quiet_run_executor executor this w :
  quiet w (run_executor executor this w).2.
Proof.
  revert w. induction executor; intros w; simpl; try apply quiet_refl.
  - eapply quiet_trans; [apply quiet_resolve_fn | apply IHexecutor].
  - eapply quiet_trans; [apply quiet_reject_fn | apply IHexecutor].
Qed.

Lemma quiet_new_promise executor w : quiet w (new_promise executor w).2.
Proof. apply quiet_construct. intros. apply quiet_run_executor. Qed.

Lemma quiet_static_resolve v w : quiet w (static_resolve v w).2.
Proof.
  destruct v;
    first [ apply quiet_refl
          | apply (quiet_construct (λ d w1, (None, resolve_fn d _ w1)));
            intros; apply quiet_resolve_fn ].
Qed.

Lemma quiet_static_reject r w : quiet w (static_reject r w).2.
Proof. apply quiet_construct. intros. apply quiet_reject_fn. Qed.

Lemma quiet_then_eq this f g w d w' : then_ this f g w = (d, w') → quiet w w'.
Proof. intros E. pose proof (quiet_then this f g w) as H. by rewrite E in H. Qed.

Lemma quiet_catch_eq this g w d w' : catch this g w = (d, w') → quiet w w'.
Proof. apply quiet_then_eq. Qed.

Lemma quiet_finally_eq this f w d w' : finally this f w = (d, w') → quiet w w'.
Proof. apply quiet_then_eq. Qed.

Lemma quiet_static_resolve_eq v w q w' : static_resolve v w = (q, w') → quiet w w'.
Proof. intros E. pose proof (quiet_static_resolve v w) as H. by rewrite E in H. Qed.

(** One round of a combinator's [forEach]: wrap the element, then register
    continuations on it. *)
Ltac quiet_round :=
  repeat match goal with
  | |- context [static_resolve ?v ?w] =>
      let E := fresh "E" in
      destruct (static_resolve v w) as [? ?] eqn:E; apply quiet_static_resolve_eq in E
  | |- context [then_ ?p ?f ?g ?w] =>
      let E := fresh "E" in
      destruct (then_ p f g w) as [? ?] eqn:E; apply quiet_then_eq in E
  | |- context [catch ?p ?g ?w] =>
      let E := fresh "E" in
      destruct (catch p g w) as [? ?] eqn:E; apply quiet_catch_eq in E
  | |- context [finally ?p ?g ?w] =>
      let E := fresh "E" in
      destruct (finally p g w) as [? ?] eqn:E; apply quiet_finally_eq in E
  end;
  cbv beta iota zeta; cbn [fst snd];
  repeat (eapply quiet_trans; [eassumption|]); try apply quiet_refl.

Lemma quiet_all values w : quiet w (all values w).2.
Proof.
  unfold all, new_array, new_counter. cbv beta iota zeta.
  eapply quiet_trans; [apply quiet_set_arrays|].
  eapply quiet_trans; [apply quiet_set_counters|].
  apply quiet_construct. intros d w'. case_decide; cbn [fst snd].
  - eapply quiet_trans; [apply quiet_set_arrays | apply quiet_resolve_fn].
  - apply quiet_forEach_from. intros v k w2. quiet_round.
Qed.

Lemma quiet_allSettled values w : quiet w (allSettled values w).2.
Proof.
  unfold allSettled, new_array, new_counter. cbv beta iota zeta.
  eapply quiet_trans; [apply quiet_set_arrays|].
  eapply quiet_trans; [apply quiet_set_counters|].
  apply quiet_construct. intros d w'. case_decide; cbn [fst snd].
  - eapply quiet_trans; [apply quiet_set_arrays | apply quiet_resolve_fn].
  - apply quiet_forEach_from. intros v k w2. quiet_round.
Qed.

Lemma quiet_race values w : quiet w (race values w).2.
Proof.
  unfold race. apply quiet_construct. intros d w'. cbn [fst snd].
  apply quiet_forEach_from. intros v k w2. quiet_round.
Qed.

Lemma quiet_any values w : quiet w (any values w).2.
Proof.
  unfold any, new_array, new_counter. cbv beta iota zeta.
  eapply quiet_trans; [apply quiet_set_arrays|].
  eapply quiet_trans; [apply quiet_set_counters|].
  apply quiet_construct. intros d w'. case_decide; cbn [fst snd].
  - apply quiet_reject_fn.
  - apply quiet_forEach_from. intros v k w2. quiet_round.
Qed.

(** Calling a function: only a function of the client adds to the log. *)
Lemma quiet_wrap_then r f w :
  quiet w (let '(q, w2) := static_resolve r w in
           let '(t, w3) := then_ q f NotCallable w2 in
           (Normal (VPromise t), w3)).2.
Proof. quiet_round. Qed.

Lemma evolves_call f : ∀ args w, evolves w (call f args w).2.
Proof.
  induction f; intros args w; cbn [call];
    repeat match goal with
    | |- context [if ?b then _ else _] => destruct b
    end; cbn [fst snd];
    try apply evolves_refl;
    try (apply quiet_evolves;
         first [ apply quiet_resolve_fn | apply quiet_reject_fn
               | apply quiet_guarded_resolve | apply quiet_guarded_reject
               | apply quiet_set_arrays | apply quiet_set_counters
               | apply quiet_wrap_then ]);
    try (eapply evolves_trans; [|apply IHf]; apply quiet_evolves;
         first [ apply quiet_set_counters
               | (eapply quiet_trans; [apply quiet_set_counters | apply quiet_set_arrays])
               | apply quiet_refl ]).
  - apply evolves_set_calls.
  - specialize (IHf [] w). destruct (call f [] w) as [[r|e] w1]; [|done].
    eapply evolves_trans; [apply IHf|]. apply quiet_evolves, quiet_wrap_then.
  - specialize (IHf [] w). destruct (call f [] w) as [[r|e] w1]; [|done].
    eapply evolves_trans; [apply IHf|]. apply quiet_evolves, quiet_wrap_then.
  - apply quiet_evolves.
    eapply quiet_trans; [apply quiet_set_counters | apply quiet_set_arrays].
  - apply quiet_evolves.
    eapply quiet_trans; [apply quiet_set_counters | apply quiet_set_arrays].
Qed.

Lemma evolves_run_job j w : evolves w (run_job j w).
Proof.
  destruct j as [this h]. unfold run_job.
  set (w1 := match state_of this w with fulfilled => _ | _ => w end).
  assert (evolves w w1) as H1.
  { subst w1. destruct (state_of this w); try apply evolves_refl.
    destruct (negb _); [apply evolves_call|].
    pose proof (evolves_call (onfulfilled h) [value_of this w] w) as Hc.
    destruct (call (onfulfilled h) _ w) as [[r|e] w']; simpl in Hc;
      (eapply evolves_trans; [apply Hc | apply evolves_call]). }
  eapply evolves_trans; [apply H1|]. clearbody w1.
  destruct (state_of this w1); try apply evolves_refl.
  destruct (negb _); [apply evolves_call|].
  pose proof (evolves_call (onrejected h) [value_of this w1] w1) as Hc.
  destruct (call (onrejected h) _ w1) as [[r|e] w']; simpl in Hc;
    (eapply evolves_trans; [apply Hc | apply evolves_call]).
Qed.

Lemma stable_tick w : stable w (tick w).
Proof.
  unfold tick. destruct (microtasks w) as [|j rest]; [apply stable_refl|].
  eapply stable_trans; [|apply evolves_stable, evolves_run_job].
  split; [exact (keeps_settled_refl _) | by intros c | done | done].
Qed.

Lemma stable_exec o w : stable w (exec o w).
Proof.
  destruct o; cbn [exec];
    first [ apply stable_tick
          | apply evolves_stable, evolves_call
          | apply evolves_stable, quiet_evolves;
            first [ apply quiet_new_promise | apply quiet_then | apply quiet_catch
                  | apply quiet_finally | apply quiet_static_resolve
                  | apply quiet_static_reject | apply quiet_all
                  | apply quiet_allSettled | apply quiet_race | apply quiet_any ] ].
Qed.

Lemma stable_run os w : stable w (run os w).
Proof.
  revert w. induction os as [|o os IH]; intros w; simpl.
  - apply stable_refl.
  - eapply stable_trans; [apply stable_exec | apply IH].
Qed.

(** Whatever client and host do, a settled instance keeps its state and its
    result. *)
Lemma settled_is_final os w p :
  state_of p w ≠ pending →
  state_of p (run os w) = state_of p w ∧ value_of p (run os w) = value_of p w.
Proof. intros Hp. by apply (stable_settled _ _ (stable_run os w)). Qed.



(** ** The operations in closed form *)

Lemma world_eq w w' :
  heap w = heap w' → arrays w = arrays w' → counters w = counters w' →
  flags w = flags w' → microtasks w = microtasks w' → calls w = calls w' →
  w = w'.
Proof. destruct w, w'. simpl. by intros -> -> -> -> -> ->. Qed.

Lemma foldl_queueMicrotask this hs w :
  foldl (λ w' h, queueMicrotask (Job this h) w') w hs =
  set_microtasks (λ q, q ++ (Job this <$> hs)) w.
Proof.
  revert w. induction hs as [|h hs IH]; intros w; simpl.
  - apply world_eq; simpl; try done. by rewrite app_nil_r.
  - rewrite IH. apply world_eq; simpl; try done. by rewrite <- app_assoc.
Qed.

Lemma list_alter_const {A} (f : A → A) (l : list A) p x y :
  l !! p = Some x → f x = y → alter f p l = <[p := y]> l.
Proof.
  intros Hp Hf. apply list_eq. intros q. rewrite list_lookup_alter.
  case_decide as E.
  - subst q. rewrite Hp. simpl. rewrite Hf.
    symmetry. apply list_lookup_insert_eq. by eapply lookup_lt_Some.
  - by rewrite list_lookup_insert_ne.
Qed.

(** Settling a pending instance: the result is stored, the handlers leave the
    instance and enter the microtask queue in order. *)
Lemma settle_closed_form this s v w i :
  heap w !! this = Some i → s ≠ pending →
  runHandlers this (set_heap (alter (λ i, mkInstance s v (handlers i)) this) w) =
  set_microtasks (λ q, q ++ (Job this <$> handlers i))
    (set_heap (<[this := mkInstance s v []]>) w).
Proof.
  intros Hi Hs. unfold runHandlers.
  assert (heap (set_heap (alter (λ i, mkInstance s v (handlers i)) this) w) !! this
          = Some (mkInstance s v (handlers i))) as Hi'.
  { simpl. rewrite list_lookup_alter. rewrite decide_True by done. by rewrite Hi. }
  rewrite (state_of_Some _ _ _ Hi'), (handlers_of_Some _ _ _ Hi'). simpl.
  destruct s; [done| |];
    simpl; rewrite foldl_queueMicrotask; apply world_eq; simpl; try done;
    apply list_eq; intros q; rewrite !list_lookup_alter;
    (destruct (decide (this = q)) as [->|Hne];
     [ rewrite Hi; rewrite decide_True by done; simpl; symmetry;
       apply list_lookup_insert_eq; by eapply lookup_lt_Some
     | by rewrite list_lookup_insert_ne ]).
Qed.




Lemma reject_fn_pending this reason w i :
  heap w !! this = Some i → state i = pending →
  reject_fn this reason w = settled_world this rejected reason (handlers i) w.
Proof.
  intros Hi Hs. unfold reject_fn. rewrite (state_of_Some _ _ _ Hi), Hs. simpl.
  by apply settle_closed_form.
Qed.

Lemma reject_fn_settled this reason w :
  state_of this w ≠ pending → reject_fn this reason w = w.
Proof. unfold reject_fn. by destruct (state_of this w). Qed.

Lemma resolve_fn_settled this v w :
  state_of this w ≠ pending → resolve_fn this v w = w.
Proof. intros H. destruct v; simpl; by destruct (state_of this w). Qed.

Lemma resolve_fn_plain this v w i :
  heap w !! this = Some i → state i = pending →
  callable_then v = false → then_throws v = false →
  resolve_fn this v w = settled_world this fulfilled v (handlers i) w.
Proof.
  intros Hi Hs Hc Ht.
  destruct v as [| | | | | | | | | | |[]]; try done; simpl;
    rewrite (state_of_Some _ _ _ Hi), Hs; simpl; by apply settle_closed_form.
Qed.

Lemma resolve_fn_then_throws this error w i :
  heap w !! this = Some i → state i = pending →
  resolve_fn this (VObject (ThenGetterThrows error)) w =
  settled_world this rejected error (handlers i) w.
Proof.
  intros Hi Hs. simpl. rewrite (state_of_Some _ _ _ Hi), Hs. simpl.
  by apply reject_fn_pending.
Qed.

Lemma resolve_fn_self this w i :
  heap w !! this = Some i → state i = pending →
  resolve_fn this (VPromise this) w =
  settled_world this rejected self_resolution_error (handlers i) w.
Proof.
  intros Hi Hs. simpl. rewrite (state_of_Some _ _ _ Hi), Hs. simpl.
  rewrite decide_True by done. by apply reject_fn_pending.
Qed.

Lemma heap_settled_world this s v hs w :
  heap (settled_world this s v hs w) = <[this := mkInstance s v []]> (heap w).
Proof. done. Qed.

Lemma state_of_settled_world this s v hs w :
  this < length (heap w) →
  state_of this (settled_world this s v hs w) = s ∧
  value_of this (settled_world this s v hs w) = v ∧
  handlers_of this (settled_world this s v hs w) = [].
Proof.
  intros Hlt. unfold state_of, value_of, handlers_of.
  rewrite heap_settled_world. by rewrite list_lookup_insert_eq.
Qed.

Lemma alter_alloc {A} (f : A → A) (h : list A) x p i y :
  h !! p = Some i → f i = y → alter f p (h ++ [x]) = <[p := y]> h ++ [x].
Proof.
  intros Hp Hf. assert (p < length h) by (by eapply lookup_lt_Some).
  rewrite (list_alter_const f _ p i y); [|by rewrite lookup_app_l|done].
  by rewrite insert_app_l.
Qed.

Lemma then_pending this f g w i :
  heap w !! this = Some i → state i = pending →
  then_ this f g w =
  (length (heap w),
   set_heap (λ h,
     <[this := mkInstance pending (value i)
                 (handlers i ++ [mkHandler f g (ResolveOf (length (heap w)))
                                                (RejectOf (length (heap w)))])]> h
     ++ [fresh_instance]) w).
Proof.
  intros Hi Hs. unfold then_, construct. cbn [fst snd].
  f_equal. unfold runHandlers.
  assert (this < length (heap w)) as Hlt by (by eapply lookup_lt_Some).
  match goal with |- context [state_of this ?W] =>
    assert (state_of this W = pending) as ->
  end.
  { unfold state_of. simpl. rewrite list_lookup_alter, decide_True by done.
    rewrite lookup_alloc_lt, Hi by done. done. }
  simpl. apply world_eq; simpl; try done.
  eapply alter_alloc; [done|]. simpl. by rewrite Hs.
Qed.

Lemma then_settled this f g w i :
  heap w !! this = Some i → state i ≠ pending →
  then_ this f g w =
  (length (heap w),
   set_microtasks (λ q, q ++
     (Job this <$> (handlers i ++ [mkHandler f g (ResolveOf (length (heap w)))
                                                 (RejectOf (length (heap w)))])))
     (set_heap (λ h, <[this := mkInstance (state i) (value i) []]> h
                     ++ [fresh_instance]) w)).
Proof.
  intros Hi Hs. unfold then_, construct. cbn [fst snd].
  f_equal. unfold runHandlers.
  assert (this < length (heap w)) as Hlt by (by eapply lookup_lt_Some).
  match goal with |- context [state_of this ?W] =>
    assert (heap W !! this = Some (mkInstance (state i) (value i)
      (handlers i ++ [mkHandler f g (ResolveOf (length (heap w)))
                                    (RejectOf (length (heap w)))]))) as Hi'
  end.
  { simpl. rewrite list_lookup_alter, decide_True by done.
    rewrite lookup_alloc_lt, Hi by done. done. }
  rewrite (state_of_Some _ _ _ Hi'), (handlers_of_Some _ _ _ Hi'). simpl.
  assert (is_pending (state i) = false) as -> by (by destruct (state i)).
  rewrite foldl_queueMicrotask. apply world_eq; simpl; try done.
  erewrite (alter_alloc _ (heap w)); [|done|done].
  erewrite alter_alloc; [|by apply list_lookup_insert_eq|done].
  simpl. by rewrite list_insert_insert_eq.
Qed.

(** ** The guarded callbacks of thenable adoption *)

Lemma flag_of_raise called w :
  called < length (flags w) → flag_of called (set_flags (<[called := true]>) w) = true.
Proof. intros H. unfold flag_of. simpl. by rewrite list_lookup_insert_eq. Qed.

Lemma raise_new_flag w :
  set_flags (<[length (flags w) := true]>) (set_flags (λ s, s ++ [false]) w) =
  set_flags (λ f, f ++ [true]) w.
Proof.
  apply world_eq; simpl; try done.
  rewrite insert_app_r_alt by done. by rewrite Nat.sub_diag.
Qed.

Lemma flag_of_new_flag w :
  flag_of (length (flags w)) (set_flags (λ s, s ++ [false]) w) = false.
Proof.
  unfold flag_of. simpl. rewrite lookup_app_r by done. by rewrite Nat.sub_diag.
Qed.

Lemma flag_of_locked w : flag_of (length (flags w)) (set_flags (λ f, f ++ [true]) w) = true.
Proof.
  unfold flag_of. simpl. rewrite lookup_app_r by done. by rewrite Nat.sub_diag.
Qed.

(** Once the flag is up, the rest of the foreign function changes nothing,
    whatever it calls and however it ends. *)
Lemma call_then_called this called body w :
  flag_of called w = true → call_then this called body w = w.
Proof.
  revert w. induction body as [|e|v rest IH|r rest IH]; intros w Hf; simpl.
  - done.
  - by rewrite Hf.
  - rewrite Hf. by apply IH.
  - unfold guarded_reject. rewrite Hf. by apply IH.
Qed.

Lemma flag_of_resolve_fn called this v w :
  flag_of called w = true → flag_of called (resolve_fn this v w) = true.
Proof. apply (stable_flags _ _ (evolves_stable _ _ (quiet_evolves _ _ (quiet_resolve_fn this v w)))). Qed.

Lemma flag_of_reject_fn called this r w :
  flag_of called w = true → flag_of called (reject_fn this r w) = true.
Proof. apply (stable_flags _ _ (evolves_stable _ _ (quiet_evolves _ _ (quiet_reject_fn this r w)))). Qed.

Lemma resolve_fn_thenable this body w :
  state_of this w = pending →
  resolve_fn this (VObject (ThenFunction body)) w =
  call_then this (length (flags w)) body (set_flags (λ s, s ++ [false]) w).
Proof. intros Hs. simpl. by rewrite Hs. Qed.

(** ** One microtask *)

Lemma run_job_rejected this h w :
  state_of this w = rejected →
  run_job (Job this h) w =
    if negb (is_function (onrejected h)) then (call (reject h) [value_of this w] w).2
    else
      match call (onrejected h) [value_of this w] w with
      | (Normal result, w') => (call (resolve h) [result] w').2
      | (Throw error, w') => (call (reject h) [error] w').2
      end.
Proof. intros Hs. unfold run_job. by rewrite !Hs. Qed.

Lemma run_job_fulfilled this h w :
  state_of this w = fulfilled →
  (∀ w', evolves w w' → state_of this w' = fulfilled) →
  run_job (Job this h) w =
    if negb (is_function (onfulfilled h)) then (call (resolve h) [value_of this w] w).2
    else
      match call (onfulfilled h) [value_of this w] w with
      | (Normal result, w') => (call (resolve h) [result] w').2
      | (Throw error, w') => (call (reject h) [error] w').2
      end.
Proof.
  intros Hs Hstay. unfold run_job. rewrite Hs.
  match goal with |- match state_of this ?W with _ => _ end = _ =>
    assert (state_of this W = fulfilled) as ->; [|done]
  end.
  apply Hstay. destruct (negb _); [apply evolves_call|].
  pose proof (evolves_call (onfulfilled h) [value_of this w] w) as Hc.
  destruct (call (onfulfilled h) _ w) as [[r|e] w']; simpl in Hc;
    (eapply evolves_trans; [apply Hc | apply evolves_call]).
Qed.

Lemma fulfilled_stays this w w' :
  state_of this w = fulfilled → evolves w w' → state_of this w' = fulfilled.
Proof.
  intros Hs He. destruct (stable_settled _ _ (evolves_stable _ _ He) this) as [-> _];
    [by rewrite Hs | done].
Qed.

Lemma run_job_fulfilled' this h w :
  state_of this w = fulfilled →
  run_job (Job this h) w =
    if negb (is_function (onfulfilled h)) then (call (resolve h) [value_of this w] w).2
    else
      match call (onfulfilled h) [value_of this w] w with
      | (Normal result, w') => (call (resolve h) [result] w').2
      | (Throw error, w') => (call (reject h) [error] w').2
      end.
Proof.
  intros Hs. apply run_job_fulfilled; [done|]. intros w'. by apply fulfilled_stays.
Qed.

Lemma tick_cons j rest w :
  microtasks w = j :: rest → tick w = run_job j (set_microtasks (λ _, rest) w).
Proof. intros H. unfold tick. by rewrite H. Qed.

Lemma resolve_fn_promise this q w :
  state_of this w = pending → q ≠ this →
  resolve_fn this (VPromise q) w = (then_ q (ResolveOf this) (RejectOf this) w).2.
Proof.
  intros Hs Hne. unfold resolve_fn. rewrite Hs. cbn [is_pending negb].
  by rewrite decide_False.
Qed.

(** ** Continuations run in registration order *)

Lemma register_all_cons p k ks w :
  register_all p (k :: ks) w =
  register_all p ks (then_ p (UserFn k.1 k.2) (UserFn k.1 k.2) w).2.
Proof. done. Qed.

Lemma register_all_pending p ks : ∀ w i,
  heap w !! p = Some i → state i = pending →
  ∃ hs, Forall2 registered ks hs ∧
        heap (register_all p ks w) !! p
          = Some (mkInstance pending (value i) (handlers i ++ hs)) ∧
        microtasks (register_all p ks w) = microtasks w ∧
        calls (register_all p ks w) = calls w.
Proof.
  induction ks as [|k ks IH]; intros w i Hi Hs.
  - exists []. rewrite app_nil_r. repeat split; [constructor|]. simpl.
    rewrite Hi. destruct i. simpl in *. by subst.
  - rewrite register_all_cons, (then_pending p _ _ w i Hi Hs). cbn [snd].
    set (h := mkHandler _ _ _ _). set (w1 := set_heap _ w).
    assert (heap w1 !! p = Some (mkInstance pending (value i) (handlers i ++ [h]))) as Hi1.
    { unfold w1. simpl. assert (p < length (heap w)) by (by eapply lookup_lt_Some).
      rewrite lookup_app_l by (by rewrite length_insert).
      by rewrite list_lookup_insert_eq. }
    destruct (IH w1 _ Hi1 eq_refl) as (hs & Hreg & Hp & Hq & Hc).
    exists (h :: hs). repeat split; try done.
    + constructor; [|done]. repeat split; eauto.
    + rewrite Hp. simpl. by rewrite <- app_assoc.
Qed.

Lemma run_job_registered p k h s v w :
  registered k h → s ≠ pending → state_of p w = s → value_of p w = v →
  evolves w (run_job (Job p h) w) ∧
  calls (run_job (Job p h) w) = calls w ++ [(k.1, [v])].
Proof.
  intros (Hf & Hr & d & Hres & Hrej) Hs Hst Hv.
  split; [apply evolves_run_job|].
  destruct s; [done| |].
  - rewrite run_job_fulfilled' by done. rewrite Hf, Hres, Hrej, Hv.
    cbn [is_function negb call]. destruct (k.2 [v]); cbn [call snd arg0].
    + by rewrite (quiet_calls _ _ (quiet_resolve_fn d _ _)).
    + by rewrite (quiet_calls _ _ (quiet_reject_fn d _ _)).
  - rewrite run_job_rejected by done. rewrite Hr, Hres, Hrej, Hv.
    cbn [is_function negb call]. destruct (k.2 [v]); cbn [call snd arg0].
    + by rewrite (quiet_calls _ _ (quiet_resolve_fn d _ _)).
    + by rewrite (quiet_calls _ _ (quiet_reject_fn d _ _)).
Qed.

Lemma ticks_in_order p s v ks hs :
  Forall2 registered ks hs → s ≠ pending →
  ∀ n w rest,
    state_of p w = s → value_of p w = v →
    microtasks w = (Job p <$> hs) ++ rest →
    n ≤ length ks →
    calls (ticks n w) = calls w ++ ((λ k : continuation, (k.1, [v])) <$> take n ks).
Proof.
  intros Hreg Hs. induction Hreg as [|k h ks hs Hk Hreg IH]; intros n w rest Hst Hv Hq Hn.
  - simpl in Hn. assert (n = 0) as -> by lia. simpl. by rewrite app_nil_r.
  - destruct n as [|n]; [simpl; by rewrite app_nil_r|].
    simpl in Hn. cbn [ticks]. rewrite (tick_cons _ _ _ Hq).
    set (w0 := set_microtasks _ w).
    destruct (run_job_registered p k h s v w0 Hk Hs Hst Hv) as [Hev Hc].
    destruct (evolves_queue _ _ Hev) as [js Hjs].
    destruct (stable_settled _ _ (evolves_stable _ _ Hev) p) as [Hst' Hv'];
      [change (state_of p w0) with (state_of p w); by rewrite Hst|].
    rewrite (IH n (run_job (Job p h) w0) (rest ++ js)); try lia.
    + rewrite Hc. simpl. by rewrite <- app_assoc.
    + by rewrite Hst'.
    + by rewrite Hv'.
    + rewrite Hjs. simpl. by rewrite <- app_assoc.
Qed.

Lemma register_all_settled p ks : ∀ w i,
  heap w !! p = Some i → state i ≠ pending → handlers i = [] →
  ∃ hs, Forall2 registered ks hs ∧
        heap (register_all p ks w) !! p = Some i ∧
        microtasks (register_all p ks w) = microtasks w ++ (Job p <$> hs) ∧
        calls (register_all p ks w) = calls w.
Proof.
  induction ks as [|k ks IH]; intros w i Hi Hs Hh.
  - exists []. simpl. rewrite app_nil_r. repeat split; [constructor|done].
  - rewrite register_all_cons, (then_settled p _ _ w i Hi Hs). cbn [snd].
    rewrite Hh. set (h := mkHandler _ _ _ _). set (w1 := set_microtasks _ _).
    assert (heap w1 !! p = Some i) as Hi1.
    { unfold w1. simpl. assert (p < length (heap w)) by (by eapply lookup_lt_Some).
      rewrite lookup_app_l by (by rewrite length_insert).
      rewrite list_lookup_insert_eq by done. destruct i. simpl in *. by subst. }
    destruct (IH w1 _ Hi1 Hs Hh) as (hs & Hreg & Hp & Hq & Hc).
    exists (h :: hs). repeat split; try done.
    + constructor; [|done]. repeat split; eauto.
    + rewrite Hq. unfold w1. simpl. by rewrite <- app_assoc.
Qed.

(** ** States are changed by settling only *)

Lemma state_value_alter_keep (f : instance → instance) p q w :
  (∀ i, state (f i) = state i ∧ value (f i) = value i) →
  state_of q (set_heap (alter f p) w) = state_of q w ∧
  value_of q (set_heap (alter f p) w) = value_of q w.
Proof.
  intros Hf. unfold state_of, value_of. simpl. rewrite list_lookup_alter.
  case_decide; [subst|done]. destruct (heap w !! q) as [i|]; [|done]. apply Hf.
Qed.

Lemma state_value_alloc q w :
  state_of q (set_heap (λ h, h ++ [fresh_instance]) w) = state_of q w ∧
  value_of q (set_heap (λ h, h ++ [fresh_instance]) w) = value_of q w.
Proof.
  unfold state_of, value_of. simpl. rewrite lookup_alloc.
  repeat case_decide; try done.
  - subst. by rewrite (lookup_ge_None_2 (heap w) (length (heap w))).
  - by rewrite (lookup_ge_None_2 (heap w) q) by lia.
Qed.

Lemma state_value_runHandlers this q w :
  state_of q (runHandlers this w) = state_of q w ∧
  value_of q (runHandlers this w) = value_of q w.
Proof.
  unfold runHandlers. destruct (is_pending _); [done|].
  rewrite foldl_queueMicrotask.
  change (state_of q (set_microtasks ?f ?w')) with (state_of q w').
  change (value_of q (set_microtasks ?f ?w')) with (value_of q w').
  by apply state_value_alter_keep.
Qed.

(** Registering a continuation changes no state and no result. *)
Lemma state_value_then this f g q w :
  state_of q (then_ this f g w).2 = state_of q w ∧
  value_of q (then_ this f g w).2 = value_of q w.
Proof.
  unfold then_, construct. cbn [fst snd].
  destruct (state_value_runHandlers this q
    (set_heap (alter (λ i, mkInstance (state i) (value i)
       (handlers i ++ [mkHandler f g (ResolveOf (length (heap w)))
                                     (RejectOf (length (heap w)))])) this)
       (set_heap (λ h, h ++ [mkInstance pending VUndefined []]) w))) as [-> ->].
  destruct (state_value_alter_keep
    (λ i, mkInstance (state i) (value i)
       (handlers i ++ [mkHandler f g (ResolveOf (length (heap w)))
                                     (RejectOf (length (heap w)))])) this q
    (set_heap (λ h, h ++ [mkInstance pending VUndefined []]) w)) as [-> ->]; [done|].
  apply state_value_alloc.
Qed.

(** Registering on a settled instance that has no handler left. *)
Lemma then_idle this f g w i :
  heap w !! this = Some i → state i ≠ pending → handlers i = [] →
  then_ this f g w =
  (length (heap w),
   queueMicrotask
     (Job this (mkHandler f g (ResolveOf (length (heap w))) (RejectOf (length (heap w)))))
     (set_heap (λ h, h ++ [fresh_instance]) w)).
Proof.
  intros Hi Hs Hh. rewrite (then_settled _ _ _ _ _ Hi Hs), Hh. f_equal.
  apply world_eq; simpl; try done.
  rewrite list_insert_id; [done|]. rewrite Hi. f_equal.
  destruct i; simpl in *; by subst.
Qed.

(** ** Wrapping a value that settles at once *)

Lemma set_flags_settled_world q s v hs fs w :
  set_flags fs (settled_world q s v hs w) = settled_world q s v hs (set_flags fs w).
Proof. done. Qed.

Lemma settles_at_once :
  (∀ x q w i, heap w !! q = Some i → state i = pending →
     state_of q (resolve_fn q x w) ≠ pending →
     ∃ s v fs, s ≠ pending ∧
       resolve_fn q x w =
       set_flags (λ f, f ++ fs) (settled_world q s v (handlers i) w)) ∧
  (∀ m q w i, heap w !! q = Some i → state i = pending →
     state_of q (resolve_fn q (VObject m) w) ≠ pending →
     ∃ s v fs, s ≠ pending ∧
       resolve_fn q (VObject m) w =
       set_flags (λ f, f ++ fs) (settled_world q s v (handlers i) w)) ∧
  (∀ body q called w i, heap w !! q = Some i → state i = pending →
     called < length (flags w) → flag_of called w = false →
     state_of q (call_then q called body w) ≠ pending →
     ∃ s v fs, s ≠ pending ∧
       call_then q called body w =
       set_flags (λ f, <[called := true]> f ++ fs)
         (settled_world q s v (handlers i) w)).
Proof.
  assert (∀ w : world, set_flags (λ f, f ++ []) w = w) as Hnil.
  { intros w. apply world_eq; simpl; try done. by rewrite app_nil_r. }
  apply jsvalue_script_ind.
  all: try (intros; exists fulfilled; eexists; exists []; split; [done|];
            rewrite Hnil; by apply resolve_fn_plain).
  - (* an instance of the class *)
    intros p q w i Hi Hs Hst. destruct (decide (p = q)) as [->|Hne].
    + exists rejected, self_resolution_error, []. split; [done|].
      rewrite Hnil. by apply resolve_fn_self.
    + exfalso. apply Hst.
      rewrite resolve_fn_promise; [|by rewrite (state_of_Some _ _ _ Hi)|done].
      destruct (state_value_then p (ResolveOf q) (RejectOf q) q w) as [-> _].
      by rewrite (state_of_Some _ _ _ Hi).
  - (* an object *)
    intros m IH q w i Hi Hs Hst. by apply IH.
  - intros e _ q w i Hi Hs Hst. exists rejected, e, []. split; [done|].
    rewrite Hnil. by apply resolve_fn_then_throws.
  - intros body IH q w i Hi Hs Hst.
    assert (state_of q w = pending) as Hq by (by rewrite (state_of_Some _ _ _ Hi)).
    rewrite resolve_fn_thenable in Hst |- * by done.
    destruct (IH q (length (flags w)) (set_flags (λ s, s ++ [false]) w) i Hi Hs)
      as (s & v & fs & Hsp & Heq); try done.
    + simpl. rewrite length_app. simpl. lia.
    + apply flag_of_new_flag.
    + exists s, v, (true :: fs). split; [done|]. rewrite Heq.
      apply world_eq; simpl; try done.
      rewrite insert_app_r_alt by done. rewrite Nat.sub_diag. simpl.
      by rewrite <- app_assoc.
  - (* the foreign function returns without a call *)
    intros q called w i Hi Hs Hc Hf Hst. exfalso. apply Hst. simpl.
    by rewrite (state_of_Some _ _ _ Hi).
  - intros e _ q called w i Hi Hs Hc Hf Hst. exists rejected, e, [].
    split; [done|]. simpl. rewrite Hf.
    rewrite (reject_fn_pending q e _ i) by done.
    apply world_eq; simpl; try done. by rewrite app_nil_r.
  - intros v IHv rest _ q called w i Hi Hs Hc Hf Hst.
    simpl in Hst |- *. rewrite Hf in Hst |- *.
    set (w1 := set_flags (<[called := true]>) w) in *.
    assert (flag_of called (resolve_fn q v w1) = true) as Hraised.
    { apply flag_of_resolve_fn. by apply flag_of_raise. }
    rewrite call_then_called in Hst |- * by done.
    destruct (IHv q w1 i Hi Hs Hst) as (s & x & fs & Hsp & Heq).
    exists s, x, fs. split; [done|]. by rewrite Heq.
  - intros r _ rest _ q called w i Hi Hs Hc Hf Hst.
    simpl in Hst |- *. unfold guarded_reject in Hst |- *. rewrite Hf in Hst |- *.
    set (w1 := set_flags (<[called := true]>) w) in *.
    assert (flag_of called (reject_fn q r w1) = true) as Hraised.
    { apply flag_of_reject_fn. by apply flag_of_raise. }
    rewrite call_then_called by done.
    exists rejected, r, []. split; [done|].
    rewrite (reject_fn_pending q r w1 i) by done.
    apply world_eq; simpl; try done. by rewrite app_nil_r.
Qed.

(** ** A result passed along a chain of two instances *)

Lemma lookup_settled_world_ne p q s v hs w :
  p ≠ q → heap (settled_world p s v hs w) !! q = heap w !! q.
Proof. intros Hne. simpl. by rewrite list_lookup_insert_ne. Qed.

Lemma lookup_settled_world_eq p s v hs w i :
  heap w !! p = Some i →
  heap (settled_world p s v hs w) !! p = Some (mkInstance s v []).
Proof.
  intros Hi. simpl. rewrite list_lookup_insert_eq; [done|]. by eapply lookup_lt_Some.
Qed.

(** Settling [d] through one of its own closures. *)
Lemma settle_by_call s v d w :
  heap w !! d = Some fresh_instance → s ≠ pending →
  (s = fulfilled → callable_then v = false ∧ then_throws v = false) →
  (call (match s with fulfilled => ResolveOf d | _ => RejectOf d end) [v] w).2
  = settled_world d s v [] w.
Proof.
  intros Hd Hs Hplain. destruct s; [done| |]; cbn [call snd arg0].
  - destruct (Hplain eq_refl). by rewrite (resolve_fn_plain d v w _ Hd eq_refl).
  - by rewrite (reject_fn_pending d v w _ Hd eq_refl).
Qed.

(** The second link: [t] is settled, its only handler hands the result to
    [d]. *)
Lemma chain_last_link w t d u s v :
  heap w !! t = Some (mkInstance s v []) → s ≠ pending →
  (s = fulfilled → callable_then v = false ∧ then_throws v = false) →
  heap w !! d = Some fresh_instance → heap w !! u = Some fresh_instance →
  d ≠ u →
  microtasks w = [Job t (mkHandler (ResolveOf d) (RejectOf d) (ResolveOf u) (RejectOf u))] →
  microtasks (tick w) = [] ∧ calls (tick w) = calls w ∧
  state_of d (tick w) = s ∧ value_of d (tick w) = v.
Proof.
  intros Ht Hs Hplain Hd Hu Hdu Hq.
  rewrite (tick_cons _ _ _ Hq). set (w0 := set_microtasks _ w).
  assert (heap w0 !! d = Some fresh_instance) as Hd0 by done.
  assert (state_of t w0 = s) as Hst by (exact (state_of_Some w _ _ Ht)).
  assert (value_of t w0 = v) as Hv by (exact (value_of_Some w _ _ Ht)).
  assert (run_job (Job t (mkHandler (ResolveOf d) (RejectOf d) (ResolveOf u) (RejectOf u))) w0
          = settled_world u fulfilled VUndefined [] (settled_world d s v [] w0)) as ->.
  { destruct s; [done| |].
    - rewrite run_job_fulfilled' by done.
      cbn [onfulfilled is_function negb resolve reject].
      rewrite Hv. cbn [call arg0].
      destruct (Hplain eq_refl).
      rewrite (resolve_fn_plain d v w0 _ Hd0 eq_refl) by done. cbn [snd call arg0 handlers fresh_instance].
      rewrite (resolve_fn_plain u VUndefined _ fresh_instance); try done.
      by rewrite lookup_settled_world_ne.
    - rewrite run_job_rejected by done.
      cbn [onrejected is_function negb resolve reject].
      rewrite Hv. cbn [call arg0].
      rewrite (reject_fn_pending d v w0 _ Hd0 eq_refl). cbn [snd call arg0 handlers fresh_instance].
      rewrite (resolve_fn_plain u VUndefined _ fresh_instance); try done.
      by rewrite lookup_settled_world_ne. }
  split; [done|]. split; [done|].
  unfold state_of, value_of.
  rewrite lookup_settled_world_ne by done.
  by rewrite (lookup_settled_world_eq d s v [] w0 _ Hd0).
Qed.

(** The first link: [q] is settled; its handler runs the continuation [k]
    on fulfilment and passes a rejection on. *)
Lemma chain_first_link w q t k ht sq vq c :
  heap w !! q = Some (mkInstance sq vq []) → sq ≠ pending →
  heap w !! t = Some (mkInstance pending VUndefined [ht]) →
  is_function k = true → (∀ args w', call k args w' = (c, w')) →
  (sq = fulfilled → ∀ v, c = Normal v → callable_then v = false ∧ then_throws v = false) →
  microtasks w = [Job q (mkHandler k NotCallable (ResolveOf t) (RejectOf t))] →
  let s := match sq, c with fulfilled, Normal _ => fulfilled | _, _ => rejected end in
  let v := match sq, c with
           | fulfilled, Normal v => v | fulfilled, Throw e => e | _, _ => vq
           end in
  tick w = settled_world t s v [ht] (set_microtasks (λ _, []) w).
Proof.
  intros Hq Hsq Ht Hk Hc Hplain Hm s v.
  rewrite (tick_cons _ _ _ Hm). set (w0 := set_microtasks _ w).
  assert (heap w0 !! t = Some (mkInstance pending VUndefined [ht])) as Ht0 by done.
  assert (state_of q w0 = sq) as Hst by (exact (state_of_Some w _ _ Hq)).
  assert (value_of q w0 = vq) as Hv by (exact (value_of_Some w _ _ Hq)).
  destruct sq; [done| |].
  - rewrite run_job_fulfilled' by done.
    cbn [onfulfilled resolve reject]. rewrite Hk, Hc. cbn [negb].
    destruct c as [x|e]; cbn [call snd arg0].
    + destruct (Hplain eq_refl x eq_refl).
      by rewrite (resolve_fn_plain t x w0 _ Ht0 eq_refl).
    + by rewrite (reject_fn_pending t e w0 _ Ht0 eq_refl).
  - rewrite run_job_rejected by done.
    cbn [onrejected resolve reject is_function negb call snd arg0]. rewrite Hv.
    rewrite (reject_fn_pending t vq w0 _ Ht0 eq_refl).
    subst s v. by destruct c.
Qed.

Lemma await_chain w q t d u k sq vq c :
  heap w !! q = Some (mkInstance sq vq []) → sq ≠ pending →
  heap w !! t = Some (mkInstance pending VUndefined
                        [mkHandler (ResolveOf d) (RejectOf d) (ResolveOf u) (RejectOf u)]) →
  heap w !! d = Some fresh_instance → heap w !! u = Some fresh_instance →
  d ≠ u →
  is_function k = true → (∀ args w', call k args w' = (c, w')) →
  (sq = fulfilled → ∀ v, c = Normal v → callable_then v = false ∧ then_throws v = false) →
  microtasks w = [Job q (mkHandler k NotCallable (ResolveOf t) (RejectOf t))] →
  let s := match sq, c with fulfilled, Normal _ => fulfilled | _, _ => rejected end in
  let v := match sq, c with
           | fulfilled, Normal v => v | fulfilled, Throw e => e | _, _ => vq
           end in
  microtasks (ticks 2 w) = [] ∧ calls (ticks 2 w) = calls w ∧
  state_of d (ticks 2 w) = s ∧ value_of d (ticks 2 w) = v.
Proof.
  intros Hq Hsq Ht Hd Hu Hdu Hk Hc Hplain Hm s v.
  assert (t ≠ d) as Htd by (intros ->; by rewrite Hd in Ht).
  assert (t ≠ u) as Htu by (intros ->; by rewrite Hu in Ht).
  cbn [ticks].
  rewrite (chain_first_link w q t k _ sq vq c Hq Hsq Ht Hk Hc Hplain Hm).
  fold s v. set (w0 := set_microtasks _ w). set (w1 := settled_world _ _ _ _ _).
  assert (s ≠ pending) as Hs by (subst s; destruct sq, c; done).
  assert (s = fulfilled → callable_then v = false ∧ then_throws v = false) as Hv.
  { subst s v. destruct sq, c; try done. intros _. by apply Hplain. }
  destruct (chain_last_link w1 t d u s v) as (H1 & H2 & H3 & H4); try done.
  - by apply (lookup_settled_world_eq t s v _ w0 _ Ht).
  - unfold w1. by rewrite lookup_settled_world_ne.
  - unfold w1. by rewrite lookup_settled_world_ne.
Qed.

(** The first microtask of [finally]: the client function is called without
    arguments, on both branches. *)
Lemma finally_job w2 p d s v label body :
  heap w2 !! p = Some (mkInstance s v []) → s ≠ pending →
  heap w2 !! d = Some fresh_instance →
  microtasks w2 =
    [Job p (mkHandler (PassThroughFulfilled (UserFn label body))
                      (PassThroughRejected (UserFn label body))
                      (ResolveOf d) (RejectOf d))] →
  let w_fn := set_calls (λ l, l ++ [(label, [])]) (pop_all w2) in
  let k := match s with fulfilled => ReturnValue v | _ => ThrowReason v end in
  tick w2 =
    match body [] with
    | Throw e => settled_world d rejected e [] w_fn
    | Normal x =>
        let '(q, w3) := static_resolve x w_fn in
        let '(t, w4) := then_ q k NotCallable w3 in
        resolve_fn d (VPromise t) w4
    end.
Proof.
  intros Hp Hs Hd Hq w_fn k.
  rewrite (tick_cons _ _ _ Hq). fold (pop_all w2).
  set (w0 := pop_all w2) in *.
  assert (heap w0 !! p = Some (mkInstance s v [])) as Hp0 by done.
  assert (heap w_fn !! d = Some fresh_instance) as Hdl by done.
  destruct s; [done| |].
  - rewrite run_job_fulfilled' by (by rewrite (state_of_Some _ _ _ Hp0)).
    rewrite (value_of_Some _ _ _ Hp0). cbn [onfulfilled resolve reject value].
    cbn [is_function negb call]. fold w_fn.
    destruct (body []) as [x|e]; cbn [arg0].
    + destruct (static_resolve x w_fn) as [q w3].
      destruct (then_ q _ NotCallable w3) as [t w4]. by cbn [call snd arg0].
    + cbn [call snd arg0]. by rewrite (reject_fn_pending d e w_fn _ Hdl eq_refl).
  - rewrite run_job_rejected by (by rewrite (state_of_Some _ _ _ Hp0)).
    rewrite (value_of_Some _ _ _ Hp0). cbn [onrejected resolve reject value].
    cbn [is_function negb call]. fold w_fn.
    destruct (body []) as [x|e]; cbn [arg0].
    + destruct (static_resolve x w_fn) as [q w3].
      destruct (then_ q _ NotCallable w3) as [t w4]. by cbn [call snd arg0].
    + cbn [call snd arg0]. by rewrite (reject_fn_pending d e w_fn _ Hdl eq_refl).
Qed.

(** Lookups after one registration: one instance updated, one allocated. *)
Lemma lookup_updated_new (h : list instance) t T :
  (<[t := T]> h ++ [fresh_instance]) !! length h = Some fresh_instance.
Proof. rewrite lookup_app_r by (by rewrite length_insert). by rewrite length_insert, Nat.sub_diag. Qed.

Lemma lookup_updated_eq (h : list instance) t T i :
  h !! t = Some i → (<[t := T]> h ++ [fresh_instance]) !! t = Some T.
Proof.
  intros Hi. assert (t < length h) by (by eapply lookup_lt_Some).
  rewrite lookup_app_l by (by rewrite length_insert). by rewrite list_lookup_insert_eq.
Qed.

Lemma lookup_updated_ne (h : list instance) t T x i :
  h !! x = Some i → x ≠ t → (<[t := T]> h ++ [fresh_instance]) !! x = Some i.
Proof.
  intros Hi Hne. assert (x < length h) by (by eapply lookup_lt_Some).
  rewrite lookup_app_l by (by rewrite length_insert). by rewrite list_lookup_insert_ne.
Qed.

Lemma lookup_alloc_old (h : list instance) x i :
  h !! x = Some i → (h ++ [fresh_instance]) !! x = Some i.
Proof. intros Hi. rewrite lookup_app_l; [done|]. by eapply lookup_lt_Some. Qed.

(** [d] is resolved with the pending instance [t]: a handler is stored on
    [t] and a further instance is allocated for [then]'s result. *)
Lemma follow_pending w t d :
  heap w !! t = Some fresh_instance → heap w !! d = Some fresh_instance → t ≠ d →
  resolve_fn d (VPromise t) w =
  set_heap (λ h,
    <[t := mkInstance pending VUndefined
             [mkHandler (ResolveOf d) (RejectOf d)
                (ResolveOf (length (heap w))) (RejectOf (length (heap w)))]]> h
    ++ [fresh_instance]) w.
Proof.
  intros Ht Hd Hne.
  rewrite resolve_fn_promise; [|by rewrite (state_of_Some _ _ _ Hd)|done].
  by rewrite (then_pending t _ _ w _ Ht eq_refl).
Qed.

(** After the client function has returned and its result has been wrapped in
    the settled instance [q]: two more microtasks settle [d]. *)
Lemma finally_after_settled_wrap w2 q d k sq vq c :
  heap w2 !! q = Some (mkInstance sq vq []) → sq ≠ pending →
  heap w2 !! d = Some fresh_instance → microtasks w2 = [] →
  is_function k = true → (∀ args w', call k args w' = (c, w')) →
  (sq = fulfilled → ∀ v, c = Normal v → callable_then v = false ∧ then_throws v = false) →
  let w4 := (let '(t, w3) := then_ q k NotCallable w2 in resolve_fn d (VPromise t) w3) in
  let s := match sq, c with fulfilled, Normal _ => fulfilled | _, _ => rejected end in
  let v := match sq, c with
           | fulfilled, Normal v => v | fulfilled, Throw e => e | _, _ => vq
           end in
  calls w4 = calls w2 ∧
  microtasks (ticks 2 w4) = [] ∧ calls (ticks 2 w4) = calls w2 ∧
  state_of d (ticks 2 w4) = s ∧ value_of d (ticks 2 w4) = v.
Proof.
  intros Hq Hsq Hd Hm Hk Hc Hplain w4 s v.
  assert (q ≠ d) as Hqd by (intros ->; rewrite Hd in Hq; by injection Hq as <-).
  assert (d < length (heap w2)) as Hdlt by (by eapply lookup_lt_Some).
  unfold w4. rewrite (then_idle q k NotCallable w2 _ Hq Hsq eq_refl).
  set (t := length (heap w2)). set (w3 := queueMicrotask _ _).
  assert (heap w3 !! t = Some fresh_instance) as Ht3 by apply lookup_alloc_new.
  assert (heap w3 !! d = Some fresh_instance) as Hd3 by (by apply lookup_alloc_old).
  assert (heap w3 !! q = Some (mkInstance sq vq [])) as Hq3 by (by apply lookup_alloc_old).
  rewrite (follow_pending w3 t d Ht3 Hd3) by lia.
  set (u := length (heap w3)). set (w5 := set_heap _ w3).
  split; [done|].
  destruct (await_chain w5 q t d u k sq vq c) as (H1 & H2 & H3 & H4); try done.
  - unfold w5. simpl. eapply (lookup_updated_ne (heap w2 ++ [fresh_instance])); [done|].
    intros ->. rewrite Ht3 in Hq3. by injection Hq3 as <-.
  - unfold w5. simpl. by eapply (lookup_updated_eq (heap w2 ++ [fresh_instance])).
  - unfold w5. simpl. eapply (lookup_updated_ne (heap w2 ++ [fresh_instance])); [done|].
    unfold t. lia.
  - unfold w5. simpl. apply (lookup_updated_new (heap w2 ++ [fresh_instance])).
  - unfold u. simpl. rewrite length_app. simpl. lia.
  - unfold w5, w3. simpl. by rewrite Hm.
Qed.

(** The client function has returned the pending instance [q]: [d] waits,
    and follows once [q] is settled. *)
Lemma finally_after_pending_deferred w2 q d k vq0 c :
  heap w2 !! q = Some (mkInstance pending vq0 []) →
  heap w2 !! d = Some fresh_instance → q ≠ d → microtasks w2 = [] →
  is_function k = true → (∀ args w', call k args w' = (c, w')) →
  let w4 := (let '(t, w3) := then_ q k NotCallable w2 in resolve_fn d (VPromise t) w3) in
  state_of d w4 = pending ∧ microtasks w4 = [] ∧ calls w4 = calls w2 ∧
  ∀ sq vq,
    sq ≠ pending →
    (sq = fulfilled → callable_then vq = false ∧ then_throws vq = false) →
    (sq = fulfilled → ∀ v, c = Normal v → callable_then v = false ∧ then_throws v = false) →
    let w5 := (call (match sq with fulfilled => ResolveOf q | _ => RejectOf q end) [vq] w4).2 in
    let s := match sq, c with fulfilled, Normal _ => fulfilled | _, _ => rejected end in
    let v := match sq, c with
             | fulfilled, Normal v => v | fulfilled, Throw e => e | _, _ => vq
             end in
    microtasks (ticks 2 w5) = [] ∧
    state_of d (ticks 2 w5) = s ∧ value_of d (ticks 2 w5) = v.
Proof.
  intros Hq Hd Hqd Hm Hk Hc w4.
  assert (d < length (heap w2)) as Hdlt by (by eapply lookup_lt_Some).
  assert (q < length (heap w2)) as Hqlt by (by eapply lookup_lt_Some).
  unfold w4. rewrite (then_pending q k NotCallable w2 _ Hq eq_refl).
  cbn [value handlers app].
  set (t := length (heap w2)).
  set (hq := mkHandler k NotCallable (ResolveOf t) (RejectOf t)).
  set (w3 := set_heap _ w2).
  assert (heap w3 !! t = Some fresh_instance) as Ht3 by apply lookup_updated_new.
  assert (heap w3 !! d = Some fresh_instance) as Hd3
    by (by apply (lookup_updated_ne (heap w2)) with (i := fresh_instance)).
  assert (heap w3 !! q = Some (mkInstance pending vq0 [hq])) as Hq3
    by (by eapply (lookup_updated_eq (heap w2))).
  rewrite (follow_pending w3 t d Ht3 Hd3) by lia.
  set (u := length (heap w3)). set (w5 := set_heap _ w3).
  assert (q ≠ t) as Hqt by (unfold t; lia).
  assert (d ≠ t) as Hdt by (unfold t; lia).
  assert (heap w5 !! q = Some (mkInstance pending vq0 [hq])) as Hq5
    by (by apply (lookup_updated_ne (heap w3))).
  assert (heap w5 !! d = Some fresh_instance) as Hd5
    by (by apply (lookup_updated_ne (heap w3))).
  assert (heap w5 !! u = Some fresh_instance) as Hu5
    by apply (lookup_updated_new (heap w3)).
  assert (heap w5 !! t = Some (mkInstance pending VUndefined
            [mkHandler (ResolveOf d) (RejectOf d) (ResolveOf u) (RejectOf u)])) as Ht5
    by (by eapply (lookup_updated_eq (heap w3))).
  assert (u = S t) as Hu.
  { unfold u, w3. simpl. rewrite length_app, length_insert. simpl. unfold t. lia. }
  split; [by rewrite (state_of_Some _ _ _ Hd5)|]. split; [done|]. split; [done|].
  intros sq vq Hsq Hvq Hplain.
  assert ((call (match sq with fulfilled => ResolveOf q | _ => RejectOf q end) [vq] w5).2
          = settled_world q sq vq [hq] w5) as ->.
  { destruct sq; [done| |]; cbn [call snd arg0].
    - destruct (Hvq eq_refl). by rewrite (resolve_fn_plain q vq w5 _ Hq5 eq_refl).
    - by rewrite (reject_fn_pending q vq w5 _ Hq5 eq_refl). }
  destruct (await_chain (settled_world q sq vq [hq] w5) q t d u k sq vq c)
    as (H1 & H2 & H3 & H4); try done.
  - by apply (lookup_settled_world_eq q sq vq [hq] w5 _ Hq5).
  - by rewrite lookup_settled_world_ne.
  - by rewrite lookup_settled_world_ne.
  - rewrite lookup_settled_world_ne; [done|lia].
  - lia.
  - simpl. by rewrite Hm.
Qed.

(** ** A [resolve] or [reject] closure settles its own instance only *)

Lemma state_of_alter_ne (f : instance → instance) p q w :
  p ≠ q → state_of q (set_heap (alter f p) w) = state_of q w.
Proof. intros Hne. unfold state_of. simpl. by rewrite list_lookup_alter_ne. Qed.

Lemma state_of_reject_fn_other this r q w :
  this ≠ q → state_of q (reject_fn this r w) = state_of q w.
Proof.
  intros Hne. unfold reject_fn. destruct (negb _); [done|].
  destruct (state_value_runHandlers this q
    (set_heap (alter (λ i, mkInstance rejected r (handlers i)) this) w)) as [-> _].
  by apply state_of_alter_ne.
Qed.

Lemma state_of_fulfil_other this v q w :
  this ≠ q → state_of q (fulfil this v w) = state_of q w.
Proof.
  intros Hne. unfold fulfil.
  destruct (state_value_runHandlers this q
    (set_heap (alter (λ i, mkInstance fulfilled v (handlers i)) this) w)) as [-> _].
  by apply state_of_alter_ne.
Qed.

Lemma state_of_resolve_fn_other :
  (∀ x this q w, this ≠ q → state_of q (resolve_fn this x w) = state_of q w) ∧
  (∀ m this q w, this ≠ q → state_of q (resolve_fn this (VObject m) w) = state_of q w) ∧
  (∀ body this called q w, this ≠ q →
     state_of q (call_then this called body w) = state_of q w).
Proof.
  apply jsvalue_script_ind; intros; simpl;
    try (destruct (is_pending (state_of this w)) eqn:E; simpl; [|done]);
    try (by apply state_of_fulfil_other);
    try (by apply state_of_reject_fn_other); try done.
  - case_decide; [by apply state_of_reject_fn_other|].
    change (state_of q (then_ p (ResolveOf this) (RejectOf this) w).2 = state_of q w).
    apply state_value_then.
  - specialize (H this q w H0). simpl in H. by rewrite E in H.
  - by rewrite H.
  - destruct (flag_of called w); [done|]. by rewrite state_of_reject_fn_other.
  - rewrite H0 by done. destruct (flag_of called w); [done|]. by rewrite H.
  - rewrite H0 by done. unfold guarded_reject.
    destruct (flag_of called w); [done|]. by rewrite state_of_reject_fn_other.
Qed.

(** ** A continuation and the settlement of its source, in either order *)

Lemma registered_job w p i f g s v :
  heap w !! p = Some i → handlers i = [] → microtasks w = [] →
  s ≠ pending → (state i = pending ∨ (state i = s ∧ value i = v)) →
  (s = fulfilled → callable_then v = false ∧ then_throws v = false) →
  let d := (then_ p f g w).1 in
  let w1 := (then_ p f g w).2 in
  let w2 := once_settled (state i) p s v w1 in
  d = length (heap w) ∧ calls w1 = calls w ∧ state_of d w1 = pending ∧
  heap w2 !! p = Some (mkInstance s v []) ∧
  heap w2 !! d = Some fresh_instance ∧
  microtasks w2 = [Job p (mkHandler f g (ResolveOf d) (RejectOf d))] ∧
  calls w2 = calls w ∧
  length (heap w2) = S (length (heap w)) ∧
  (∀ x, x ≠ p → x < length (heap w) → heap w2 !! x = heap w !! x).
Proof.
  intros Hi Hh Hm Hs Hcase Hplain d w1 w2.
  assert (p < length (heap w)) as Hlt by (by eapply lookup_lt_Some).
  assert (d = length (heap w)) as Hd by done.
  split; [done|]. split; [apply (quiet_calls _ _ (quiet_then p f g w))|].
  destruct (state i) eqn:Es.
  - (* registered first, settled afterwards *)
    assert (w1 = set_heap (λ h,
              <[p := mkInstance pending (value i) [mkHandler f g (ResolveOf d) (RejectOf d)]]> h
              ++ [fresh_instance]) w) as Hw1.
    { unfold w1. rewrite (then_pending p f g w i Hi Es), Hh. done. }
    set (hp := mkHandler f g (ResolveOf d) (RejectOf d)) in *.
    assert (heap w1 !! p = Some (mkInstance pending (value i) [hp])) as Hp1.
    { rewrite Hw1. by eapply (lookup_updated_eq (heap w)). }
    assert (heap w1 !! d = Some fresh_instance) as Hd1.
    { rewrite Hw1, Hd. apply (lookup_updated_new (heap w)). }
    assert (w2 = settled_world p s v [hp] w1) as ->.
    { unfold w2, once_settled, settle. destruct s; [done| |]; cbn [exec call snd arg0].
      - destruct (Hplain eq_refl). by rewrite (resolve_fn_plain p v w1 _ Hp1 eq_refl).
      - by rewrite (reject_fn_pending p v w1 _ Hp1 eq_refl). }
    split; [by rewrite (state_of_Some _ _ _ Hd1)|].
    split; [by apply (lookup_settled_world_eq p s v [hp] w1 _ Hp1)|].
    split; [rewrite lookup_settled_world_ne; [done|lia]|].
    split; [rewrite Hw1; simpl; by rewrite Hm|].
    split; [by rewrite Hw1|].
    split.
    { rewrite heap_settled_world, length_insert, Hw1. simpl.
      rewrite length_app, length_insert. simpl. lia. }
    intros x Hxp Hx. rewrite lookup_settled_world_ne by done. rewrite Hw1. simpl.
    rewrite lookup_app_l by (by rewrite length_insert).
    by rewrite list_lookup_insert_ne.
  - (* already fulfilled *)
    destruct Hcase as [|[<- <-]]; [done|].
    assert (w1 = queueMicrotask (Job p (mkHandler f g (ResolveOf d) (RejectOf d)))
                   (set_heap (λ h, h ++ [fresh_instance]) w)) as Hw1.
    { unfold w1. rewrite (then_idle p f g w i Hi) by (done || by rewrite Es). done. }
    unfold w2, once_settled. rewrite Hw1.
    split; [unfold state_of; simpl; by rewrite Hd, lookup_alloc_new|].
    split; [simpl; rewrite lookup_alloc_old with (i := i) by done;
            destruct i; simpl in *; by subst|].
    split; [simpl; by rewrite Hd, lookup_alloc_new|].
    split; [simpl; by rewrite Hm|]. split; [done|].
    split; [simpl; rewrite length_app; simpl; lia|].
    intros x _ Hx. simpl. by rewrite lookup_app_l.
  - (* already rejected *)
    destruct Hcase as [|[<- <-]]; [done|].
    assert (w1 = queueMicrotask (Job p (mkHandler f g (ResolveOf d) (RejectOf d)))
                   (set_heap (λ h, h ++ [fresh_instance]) w)) as Hw1.
    { unfold w1. rewrite (then_idle p f g w i Hi) by (done || by rewrite Es). done. }
    unfold w2, once_settled. rewrite Hw1.
    split; [unfold state_of; simpl; by rewrite Hd, lookup_alloc_new|].
    split; [simpl; rewrite lookup_alloc_old with (i := i) by done;
            destruct i; simpl in *; by subst|].
    split; [simpl; by rewrite Hd, lookup_alloc_new|].
    split; [simpl; by rewrite Hm|]. split; [done|].
    split; [simpl; rewrite length_app; simpl; lia|].
    intros x _ Hx. simpl. by rewrite lookup_app_l.
Qed.

(** ** The subscription loop of the combinators *)



(** ** Two microtasks after an element settles *)

Lemma heap_pop_all w : heap (pop_all w) = heap w.
Proof. done. Qed.

Lemma tick_settled_world p s v h w :
  microtasks w = [] →
  tick (settled_world p s v [h] w) = run_job (Job p h) (pop_all (settled_world p s v [h] w)).
Proof. intros Hm. apply tick_cons. simpl. by rewrite Hm. Qed.



(** ** JavaScript arrays *)

Lemma array_store_length j v arr :
  length (array_store j v arr) = length arr `max` S j.
Proof.
  unfold array_store. case_decide.
  - rewrite length_insert. lia.
  - rewrite !length_app, length_replicate. simpl. lia.
Qed.

Lemma array_store_eq j v arr : array_store j v arr !! j = Some (Some v).
Proof.
  unfold array_store. case_decide.
  - by apply list_lookup_insert_eq.
  - rewrite lookup_app_r by lia. rewrite lookup_app_r by (rewrite length_replicate; lia).
    rewrite length_replicate. by rewrite Nat.sub_diag.
Qed.

Lemma array_store_ne j v arr i x :
  arr !! i = Some x → i ≠ j → array_store j v arr !! i = Some x.
Proof.
  intros Hi Hne. assert (i < length arr) by (by eapply lookup_lt_Some).
  unfold array_store. case_decide.
  - by rewrite list_lookup_insert_ne.
  - by apply lookup_app_l_Some.
Qed.

(** Distinct indices, all below [n]: fewer than [n] of them when one is
    missing. *)
Lemma missing_index (l : list nat) n j :
  NoDup l → (∀ i, i ∈ l → i < n) → j < n → j ∉ l → length l < n.
Proof.
  intros Hnd Hlt Hj Hnot.
  assert (j :: l ⊆+ seq 0 n) as Hsub.
  { apply NoDup_submseteq; [by constructor|]. intros x Hx. apply elem_of_seq.
    apply elem_of_cons in Hx as [->|Hx]; [lia|]. apply Hlt in Hx. lia. }
  apply submseteq_length in Hsub. rewrite length_seq in Hsub. simpl in Hsub. lia.
Qed.

(** ** [all]: one element is fulfilled *)

Lemma call_AllOnFulfilled a c n j R v w k arr :
  counters w !! c = Some k → arrays w !! a = Some arr →
  heap w !! R = Some fresh_instance →
  call (AllOnFulfilled a c n j (ResolveOf R)) [v] w =
  (Normal VUndefined,
   let wa := set_arrays (alter (array_store j v) a) (set_counters (alter S c) w) in
   if decide (S k = n) then settled_world R fulfilled (VArray a) [] wa else wa).
Proof.
  intros Hc Ha HR. cbn [call arg0].
  assert (default 0 (counters (set_arrays (alter (array_store j v) a)
            (set_counters (alter S c) w)) !! c) = S k) as ->.
  { simpl. rewrite list_lookup_alter, decide_True by done. by rewrite Hc. }
  cbn zeta. case_decide; [|done]. cbn [call snd arg0].
  by rewrite (resolve_fn_plain R (VArray a) _ fresh_instance).
Qed.

Section all_elements.
Variables (ps : list nat) (R a c : nat).
Hypothesis ps_distinct : NoDup ps.
Hypothesis ps_older : ∀ p, p ∈ ps → p < R.

Lemma element_older j p : ps !! j = Some p → p < R.
Proof. intros Hj. apply ps_older. by eapply list_elem_of_lookup_2. Qed.

Lemma element_distinct i j p q : ps !! i = Some p → ps !! j = Some q → i ≠ j → p ≠ q.
Proof. intros Hi Hj Hne ->. apply Hne. by eapply NoDup_lookup. Qed.




End all_elements.



(** ** [any]: one element is rejected *)


Section any_elements.
Variables (ps : list nat) (R a c : nat).
Hypothesis ps_distinct : NoDup ps.
Hypothesis ps_older : ∀ p, p ∈ ps → p < R.




End any_elements.



(** ** Settlement *)

(** C1.  A settled instance never changes again (see [settled_is_final]), but
    a [resolve] call that only locks the instance into following another
    instance does not close it: [p] is resolved with the pending [q], which
    registers [p]'s closures on [q]; a second [resolve] call then fulfils [p]
    with 42, and [q]'s later fulfilment with 7 no longer reaches [p]. *)
Theorem C1_resolve_after_lock_in_takes_effect :
  let '(q, w1) := new_promise Done empty_world in
  let '(p, w2) := new_promise Done w1 in
  let w3 := run [Call (ResolveOf p) [VPromise q]] w2 in
  let w4 := run [Call (ResolveOf p) [VNum 42]] w3 in
  let w5 := run [Call (ResolveOf q) [VNum 7]; Tick; Tick] w4 in
  (state_of p w3 = pending ∧
   handlers_of q w3 = [mkHandler (ResolveOf p) (RejectOf p) (ResolveOf 2) (RejectOf 2)]) ∧
  (state_of p w4 = fulfilled ∧ value_of p w4 = VNum 42) ∧
  (state_of q w5 = fulfilled ∧ value_of q w5 = VNum 7 ∧ microtasks w5 = [] ∧
   state_of p w5 = fulfilled ∧ value_of p w5 = VNum 42).
Proof. vm_compute. repeat split. Qed.

(** C3, as stated, fails: once the instance is fulfilled, resolving it with
    itself changes nothing. *)
Lemma C3_counterexample :
  let '(p, w) := new_promise Done empty_world in
  let w' := run [Call (ResolveOf p) [VNum 1]; Call (ResolveOf p) [VPromise p]] w in
  state_of p w' = fulfilled ∧ value_of p w' = VNum 1 ∧
  ¬ (state_of p w' = rejected ∧ value_of p w' = self_resolution_error).
Proof. vm_compute. repeat split. by intros [? _]. Qed.

(** C3 (amended).  Whenever [resolve] is invoked with the instance itself
    while the instance is still pending, the instance is rejected with the
    self-resolution TypeError, and whatever the client and the host do
    afterwards it stays so; invoked on a settled instance the call changes
    nothing. *)
Theorem C3_self_resolution w p i os :
  heap w !! p = Some i →
  (state i = pending →
   let w' := run (Call (ResolveOf p) [VPromise p] :: os) w in
   state_of p w' = rejected ∧ value_of p w' = self_resolution_error) ∧
  (state i ≠ pending → exec (Call (ResolveOf p) [VPromise p]) w = w).
Proof.
  intros Hi. split.
  - intros Hs. cbv zeta.
    change (run (Call (ResolveOf p) [VPromise p] :: os) w)
      with (run os (resolve_fn p (VPromise p) w)).
    rewrite (resolve_fn_self _ _ _ Hi Hs).
    assert (p < length (heap w)) as Hlt by (by eapply lookup_lt_Some).
    destruct (state_of_settled_world p rejected self_resolution_error
                (handlers i) w Hlt) as (Hst & Hv & _).
    set (w1 := settled_world _ _ _ _ _) in *.
    destruct (settled_is_final os w1 p) as [-> ->]; [by rewrite Hst | done].
  - intros Hs.
    change (exec (Call (ResolveOf p) [VPromise p]) w)
      with (resolve_fn p (VPromise p) w).
    apply resolve_fn_settled.
    by rewrite (state_of_Some _ _ _ Hi).
Qed.

Lemma C3_self_resolution_witness :
  let w := (new_promise Done empty_world).2 in
  let w' := run (Call (ResolveOf 0) [VPromise 0] ::
                 [Call (ResolveOf 0) [VNum 1]; Call (RejectOf 0) [VNum 2]; Tick]) w in
  state_of 0 w' = rejected ∧ value_of 0 w' = self_resolution_error.
Proof.
  apply (C3_self_resolution (new_promise Done empty_world).2 0 fresh_instance);
    reflexivity.
Defined.




(** C5.  Thenable adoption.  The foreign [then] is run on two callbacks
    guarded by one flag, and only the first invocation of either takes
    effect, whenever it is made.  Made inside [then], it acts as the closure
    of the instance would, and whatever [then] does after it is without
    effect, a throw included; a throw before any invocation rejects the
    instance with the thrown error.  When [then] returns without an
    invocation, the instance is pending and the flag is down, and the first
    invocation made later acts as the closure of the instance would.  In
    each case the flag is up afterwards; and once the flag is up, calling a
    guarded callback later, after any activity of client and host, changes
    nothing. *)
Theorem C5_thenable_adoption w this i :
  heap w !! this = Some i → state i = pending →
  let called := length (flags w) in
  let locked := set_flags (λ f, f ++ [true]) w in
  let returned := resolve_fn this (VObject (ThenFunction Done)) w in
  (∀ v rest, resolve_fn this (VObject (ThenFunction (CallFirst v rest))) w
             = resolve_fn this v locked) ∧
  (∀ r rest, resolve_fn this (VObject (ThenFunction (CallSecond r rest))) w
             = reject_fn this r locked) ∧
  (∀ error,
     resolve_fn this (VObject (ThenFunction (Raise error))) w
       = reject_fn this error locked ∧
     state_of this (reject_fn this error locked) = rejected ∧
     value_of this (reject_fn this error locked) = error) ∧
  (∀ w' x, stable locked w' →
     exec (Call (GuardedResolve called this) [x]) w' = w' ∧
     exec (Call (GuardedReject called this) [x]) w' = w') ∧
  (state_of this returned = pending ∧ flag_of called returned = false ∧
   heap returned = heap w ∧ microtasks returned = microtasks w) ∧
  (∀ x, exec (Call (GuardedResolve called this) [x]) returned
        = resolve_fn this x locked) ∧
  (∀ r, exec (Call (GuardedReject called this) [r]) returned
        = reject_fn this r locked) ∧
  (∀ x, stable locked (resolve_fn this x locked) ∧
        (callable_then x = false → then_throws x = false →
         state_of this (resolve_fn this x locked) = fulfilled ∧
         value_of this (resolve_fn this x locked) = x)) ∧
  (∀ r, stable locked (reject_fn this r locked)).
Proof.
  intros Hi Hs called locked returned.
  assert (state_of this w = pending) as Hst by (by rewrite (state_of_Some _ _ _ Hi)).
  assert (flag_of called locked = true) as Hlocked by apply flag_of_locked.
  assert (returned = set_flags (λ s, s ++ [false]) w) as Hret.
  { unfold returned. by rewrite resolve_fn_thenable. }
  assert (flag_of called returned = false) as Hflag
    by (rewrite Hret; apply flag_of_new_flag).
  assert (set_flags (<[called := true]>) returned = locked) as Hraise
    by (rewrite Hret; apply raise_new_flag).
  assert (heap locked !! this = Some i) as Hil by done.
  assert (this < length (heap locked)) as Hlt by (by eapply lookup_lt_Some).
  split; [|split; [|split; [|split; [|split; [|split; [|split; [|split]]]]]]].
  - intros v rest. rewrite resolve_fn_thenable by done. simpl call_then.
    rewrite flag_of_new_flag, raise_new_flag.
    apply call_then_called. by apply flag_of_resolve_fn.
  - intros r rest. rewrite resolve_fn_thenable by done. simpl call_then.
    unfold guarded_reject. rewrite flag_of_new_flag, raise_new_flag.
    apply call_then_called. by apply flag_of_reject_fn.
  - intros error. split.
    + rewrite resolve_fn_thenable by done. simpl call_then.
      by rewrite flag_of_new_flag, raise_new_flag.
    + rewrite (reject_fn_pending this error locked i Hi Hs).
      destruct (state_of_settled_world this rejected error (handlers i) locked Hlt)
        as (-> & -> & _). done.
  - intros w' x H.
    assert (flag_of called w' = true) as Hf by (by apply (stable_flags _ _ H)).
    split.
    + cbn -[guarded_resolve]. unfold guarded_resolve. by rewrite Hf.
    + cbn -[guarded_reject]. unfold guarded_reject. by rewrite Hf.
  - rewrite Hret in *. done.
  - intros x.
    change (exec (Call (GuardedResolve called this) [x]) returned)
      with (guarded_resolve called this x returned).
    unfold guarded_resolve. by rewrite Hflag, Hraise.
  - intros r.
    change (exec (Call (GuardedReject called this) [r]) returned)
      with (guarded_reject called this r returned).
    unfold guarded_reject. by rewrite Hflag, Hraise.
  - intros x. split.
    + apply evolves_stable, quiet_evolves, quiet_resolve_fn.
    + intros Hc Ht. rewrite (resolve_fn_plain this x locked i Hil Hs Hc Ht).
      destruct (state_of_settled_world this fulfilled x (handlers i) locked Hlt)
        as (-> & -> & _). done.
  - intros r. apply evolves_stable, quiet_evolves, quiet_reject_fn.
Qed.

Lemma C5_thenable_adoption_witness :
  let w := (new_promise Done empty_world).2 in
  let this := 0 in
  let called := length (flags w) in
  let locked := set_flags (λ f, f ++ [true]) w in
  let returned := resolve_fn this (VObject (ThenFunction Done)) w in
  (∀ v rest, resolve_fn this (VObject (ThenFunction (CallFirst v rest))) w
             = resolve_fn this v locked) ∧
  (∀ r rest, resolve_fn this (VObject (ThenFunction (CallSecond r rest))) w
             = reject_fn this r locked) ∧
  (∀ error,
     resolve_fn this (VObject (ThenFunction (Raise error))) w
       = reject_fn this error locked ∧
     state_of this (reject_fn this error locked) = rejected ∧
     value_of this (reject_fn this error locked) = error) ∧
  (∀ w' x, stable locked w' →
     exec (Call (GuardedResolve called this) [x]) w' = w' ∧
     exec (Call (GuardedReject called this) [x]) w' = w') ∧
  (state_of this returned = pending ∧ flag_of called returned = false ∧
   heap returned = heap w ∧ microtasks returned = microtasks w) ∧
  (∀ x, exec (Call (GuardedResolve called this) [x]) returned
        = resolve_fn this x locked) ∧
  (∀ r, exec (Call (GuardedReject called this) [r]) returned
        = reject_fn this r locked) ∧
  (∀ x, stable locked (resolve_fn this x locked) ∧
        (callable_then x = false → then_throws x = false →
         state_of this (resolve_fn this x locked) = fulfilled ∧
         value_of this (resolve_fn this x locked) = x)) ∧
  (∀ r, stable locked (reject_fn this r locked)).
Proof.
  apply (C5_thenable_adoption (new_promise Done empty_world).2 0 fresh_instance);
    reflexivity.
Defined.

(** ** Continuations *)

(** C6.  A continuation registered with [then] or [catch] on an instance that
    is rejected with [r], before the registration or after it, is run by the
    next microtask.  A rejection transform that is not callable passes [r] to
    the downstream [reject]; a callable one that returns [x] has [x] handed to
    the downstream [resolve], so a value that is not a thenable fulfils the
    downstream instance; one that throws rejects the downstream instance with
    the error thrown. *)
Theorem C6_rejection_transform w p i f g r :
  heap w !! p = Some i → handlers i = [] → microtasks w = [] →
  (state i = pending ∨ (state i = rejected ∧ value i = r)) →
  let d := (then_ p f g w).1 in
  let w1 := (then_ p f g w).2 in
  let w2 := once_settled (state i) p rejected r w1 in
  let w2' := pop_all w2 in
  catch p g w = then_ p NotCallable g w ∧
  calls w2 = calls w ∧ state_of d w2 = pending ∧
  microtasks w2 = [Job p (mkHandler f g (ResolveOf d) (RejectOf d))] ∧
  (is_function g = false →
     tick w2 = reject_fn d r w2' ∧
     state_of d (tick w2) = rejected ∧ value_of d (tick w2) = r) ∧
  (∀ x w3, is_function g = true → call g [r] w2' = (Normal x, w3) →
     tick w2 = resolve_fn d x w3) ∧
  (∀ error w3, is_function g = true → call g [r] w2' = (Throw error, w3) →
     tick w2 = reject_fn d error w3) ∧
  (∀ label body, g = UserFn label body →
     calls (tick w2) = calls w ++ [(label, [r])] ∧
     match body [r] with
     | Normal x =>
         callable_then x = false → then_throws x = false →
         state_of d (tick w2) = fulfilled ∧ value_of d (tick w2) = x
     | Throw error =>
         state_of d (tick w2) = rejected ∧ value_of d (tick w2) = error
     end).
Proof.
  intros Hi Hh Hq Hcase d w1 w2 w2'.
  destruct (registered_job w p i f g rejected r Hi Hh Hq)
    as (Hd & _ & _ & Hp2 & Hd2 & Hq2 & Hc2 & _ & _); try done.
  fold d w1 w2 in Hd, Hp2, Hd2, Hq2, Hc2.
  assert (heap w2' !! p = Some (mkInstance rejected r [])) as Hp' by done.
  assert (heap w2' !! d = Some fresh_instance) as Hd' by done.
  assert (tick w2 = run_job (Job p (mkHandler f g (ResolveOf d) (RejectOf d))) w2')
    as Htick by (by apply tick_cons).
  rewrite Htick, run_job_rejected by (by rewrite (state_of_Some _ _ _ Hp')).
  rewrite (value_of_Some _ _ _ Hp'). cbn [onrejected resolve reject value].
  assert (d < length (heap w2')) as Hdlt by (by eapply lookup_lt_Some).
  split; [done|]. split; [done|]. split; [by rewrite (state_of_Some _ _ _ Hd2)|].
  split; [done|]. repeat split.
  - rewrite H. done.
  - rewrite H. cbn [negb call snd arg0].
    rewrite (reject_fn_pending d r w2' _ Hd' eq_refl).
    by apply state_of_settled_world.
  - rewrite H. cbn [negb call snd arg0].
    rewrite (reject_fn_pending d r w2' _ Hd' eq_refl).
    by apply state_of_settled_world.
  - intros x w3 Hg Hc. by rewrite Hg, Hc.
  - intros e w3 Hg Hc. by rewrite Hg, Hc.
  - subst g. cbn [is_function negb call].
    assert (calls w2' = calls w) as Hcalls by done.
    destruct (body [r]) as [x|e]; cbn [call snd arg0].
    + rewrite (quiet_calls _ _ (quiet_resolve_fn d x _)).
      cbn [calls set_calls]. by rewrite Hcalls.
    + rewrite (quiet_calls _ _ (quiet_reject_fn d e _)).
      cbn [calls set_calls]. by rewrite Hcalls.
  - subst g. cbn [is_function negb call].
    set (w3 := set_calls _ w2').
    assert (heap w3 !! d = Some fresh_instance) as Hd3 by done.
    destruct (body [r]) as [x|e]; cbn [call snd arg0].
    + intros Hc Hth. rewrite (resolve_fn_plain d x w3 _ Hd3 eq_refl Hc Hth).
      by destruct (state_of_settled_world d fulfilled x (handlers fresh_instance) w3 Hdlt)
        as (-> & -> & _).
    + rewrite (reject_fn_pending d e w3 _ Hd3 eq_refl).
      by destruct (state_of_settled_world d rejected e (handlers fresh_instance) w3 Hdlt)
        as (-> & -> & _).
Qed.

Lemma C6_rejection_transform_witness :
  let w := (new_promise Done empty_world).2 in
  let g := UserFn 1 (λ _, Normal (VStr "recovered")) in
  let w2 := reject_fn 0 (VNum 9) (catch 0 g w).2 in
  (heap w !! 0 = Some fresh_instance ∧ microtasks w = []) ∧
  calls w2 = [] ∧ calls (tick w2) = [(1, [VNum 9])] ∧
  state_of 1 (tick w2) = fulfilled ∧ value_of 1 (tick w2) = VStr "recovered".
Proof.
  intros w g w2.
  pose proof (C6_rejection_transform w 0 fresh_instance NotCallable g (VNum 9)
                eq_refl eq_refl eq_refl (or_introl eq_refl)) as H.
  destruct H as (_ & Hc0 & _ & _ & _ & _ & _ & H).
  destruct (H 1 (λ _, Normal (VStr "recovered")) eq_refl) as [Hc Hs].
  split; [split; reflexivity|]. split; [exact Hc0|]. split; [exact Hc|].
  exact (Hs eq_refl eq_refl).
Defined.

(** C2.  Registering a continuation, or settling an instance on which
    continuations wait, runs none of them: the log of client functions called
    is left as it was.  The continuations registered on one instance then run
    one per microtask, in the order of their registration, whether they were
    registered before the instance settled or after. *)
Theorem C2_continuations_deferred_in_order w p i ks x :
  heap w !! p = Some i → handlers i = [] → microtasks w = [] →
  let ran n := calls w ++ ((λ k : continuation, (k.1, [x])) <$> take n ks) in
  (∀ w' q f g v,
     calls (then_ q f g w').2 = calls w' ∧ calls (catch q g w').2 = calls w' ∧
     calls (finally q f w').2 = calls w' ∧
     calls (resolve_fn q v w') = calls w' ∧ calls (reject_fn q v w') = calls w') ∧
  (state i = pending →
     let w1 := register_all p ks w in
     calls w1 = calls w ∧ microtasks w1 = [] ∧
     (let w2 := reject_fn p x w1 in
      calls w2 = calls w ∧ length (microtasks w2) = length ks ∧
      ∀ n, n ≤ length ks → calls (ticks n w2) = ran n) ∧
     (callable_then x = false → then_throws x = false →
      let w2 := resolve_fn p x w1 in
      calls w2 = calls w ∧ length (microtasks w2) = length ks ∧
      ∀ n, n ≤ length ks → calls (ticks n w2) = ran n)) ∧
  (state i ≠ pending → value i = x →
     let w1 := register_all p ks w in
     calls w1 = calls w ∧ length (microtasks w1) = length ks ∧
     ∀ n, n ≤ length ks → calls (ticks n w1) = ran n).
Proof.
  intros Hi Hh Hq ran. split; [|split].
  - intros w' q f g v. repeat split.
    + apply (quiet_calls _ _ (quiet_then q f g w')).
    + apply (quiet_calls _ _ (quiet_catch q g w')).
    + apply (quiet_calls _ _ (quiet_finally q f w')).
    + apply (quiet_calls _ _ (quiet_resolve_fn q v w')).
    + apply (quiet_calls _ _ (quiet_reject_fn q v w')).
  - intros Hs w1.
    destruct (register_all_pending p ks w i Hi Hs) as (hs & Hreg & Hp & Hq1 & Hc1).
    fold w1 in Hp, Hq1, Hc1. rewrite Hh in Hp. simpl in Hp.
    assert (p < length (heap w1)) as Hlt by (by eapply lookup_lt_Some).
    assert (length hs = length ks) as Hlen by (symmetry; by eapply Forall2_length).
    split; [done|]. split; [by rewrite Hq1|]. split.
    + intros w2. unfold w2. rewrite (reject_fn_pending p x w1 _ Hp eq_refl).
      cbn [handlers]. split; [done|]. split.
      { simpl. rewrite Hq1, Hq. simpl. by rewrite length_fmap. }
      intros n Hn. unfold ran. rewrite <- Hc1.
      destruct (state_of_settled_world p rejected x hs w1 Hlt) as (Hst & Hv & _).
      rewrite (ticks_in_order p rejected x ks hs Hreg ltac:(done) n _ [] Hst Hv);
        [done| |done].
      simpl. by rewrite Hq1, Hq, app_nil_r.
    + intros Hc Ht w2. unfold w2. rewrite (resolve_fn_plain p x w1 _ Hp eq_refl Hc Ht).
      cbn [handlers]. split; [done|]. split.
      { simpl. rewrite Hq1, Hq. simpl. by rewrite length_fmap. }
      intros n Hn. unfold ran. rewrite <- Hc1.
      destruct (state_of_settled_world p fulfilled x hs w1 Hlt) as (Hst & Hv & _).
      rewrite (ticks_in_order p fulfilled x ks hs Hreg ltac:(done) n _ [] Hst Hv);
        [done| |done].
      simpl. by rewrite Hq1, Hq, app_nil_r.
  - intros Hs Hv w1.
    destruct (register_all_settled p ks w i Hi Hs Hh) as (hs & Hreg & Hp & Hq1 & Hc1).
    fold w1 in Hp, Hq1, Hc1.
    assert (length hs = length ks) as Hlen by (symmetry; by eapply Forall2_length).
    split; [done|]. split; [rewrite Hq1, Hq; simpl; by rewrite length_fmap|].
    intros n Hn. unfold ran. rewrite <- Hc1.
    rewrite (ticks_in_order p (state i) x ks hs Hreg Hs n w1 []); try done.
    + by apply state_of_Some.
    + rewrite <- Hv. by apply value_of_Some.
    + by rewrite Hq1, Hq, app_nil_r.
Qed.

Lemma C2_continuations_deferred_in_order_witness :
  let w := (new_promise Done empty_world).2 in
  let ks : list continuation :=
    [(1, λ _, Normal (VNum 10)); (2, λ _, Throw (VNum 20)); (3, λ _, Normal VUndefined)] in
  let w2 := reject_fn 0 (VStr "no") (register_all 0 ks w) in
  calls w2 = [] ∧
  calls (ticks 1 w2) = [(1, [VStr "no"])] ∧
  calls (ticks 3 w2) = [(1, [VStr "no"]); (2, [VStr "no"]); (3, [VStr "no"])].
Proof.
  intros w ks w2.
  pose proof (C2_continuations_deferred_in_order w 0 fresh_instance ks (VStr "no")
                eq_refl eq_refl eq_refl) as (_ & H & _).
  destruct (H eq_refl) as (_ & _ & (Hc & _ & Hn) & _).
  split; [exact Hc|]. split; [apply (Hn 1) | apply (Hn 3)]; simpl; lia.
Defined.

(** C9.  [p.finally(fn)], [fn] a client function, where [p] is settled with
    state [s] and result [v] before the call or after it.  Neither
    registering nor settling runs [fn]; the first microtask calls [fn] with
    no arguments, whatever the branch.  If [fn] throws, the new instance is
    rejected with the error thrown.  Otherwise what [fn] returns is wrapped by
    [MyPromise.resolve]: when the wrapping instance is fulfilled, two more
    microtasks give the new instance the state and the result of [p]; when it
    is rejected, they reject the new instance with that reason instead; while
    it is pending the new instance is pending too, and when [fn] has returned
    a pending instance of the client, the new instance follows in the same
    way as soon as that instance is settled. *)
Theorem C9_finally_passes_outcome_through w p i label body s v :
  heap w !! p = Some i → handlers i = [] → microtasks w = [] →
  s ≠ pending → (state i = pending ∨ (state i = s ∧ value i = v)) →
  (s = fulfilled → callable_then v = false ∧ then_throws v = false) →
  let fn := UserFn label body in
  let d := (finally p fn w).1 in
  let w1 := (finally p fn w).2 in
  let w2 := once_settled (state i) p s v w1 in
  let w_fn := set_calls (λ l, l ++ [(label, [])]) (pop_all w2) in
  calls w2 = calls w ∧ state_of d w2 = pending ∧
  calls (tick w2) = calls w ++ [(label, [])] ∧
  match body [] with
  | Throw e => state_of d (tick w2) = rejected ∧ value_of d (tick w2) = e
  | Normal x =>
      let q := (static_resolve x w_fn).1 in
      let w3 := (static_resolve x w_fn).2 in
      handlers_of q w3 = [] →
      match state_of q w3 with
      | fulfilled =>
          microtasks (ticks 3 w2) = [] ∧
          state_of d (ticks 3 w2) = s ∧ value_of d (ticks 3 w2) = v
      | rejected =>
          microtasks (ticks 3 w2) = [] ∧
          state_of d (ticks 3 w2) = rejected ∧
          value_of d (ticks 3 w2) = value_of q w3
      | pending =>
          state_of d (tick w2) = pending ∧
          (x = VPromise q → q < length (heap w) →
           microtasks (tick w2) = [] ∧
           (∀ e, let w' := ticks 2 (settle q rejected e (tick w2)) in
                 microtasks w' = [] ∧
                 state_of d w' = rejected ∧ value_of d w' = e) ∧
           (∀ y, callable_then y = false → then_throws y = false →
                 let w' := ticks 2 (settle q fulfilled y (tick w2)) in
                 microtasks w' = [] ∧
                 state_of d w' = s ∧ value_of d w' = v))
      end
  end.
Proof.
  intros Hi Hh Hm Hs Hcase Hplain fn d w1 w2 w_fn.
  destruct (registered_job w p i (PassThroughFulfilled fn) (PassThroughRejected fn)
              s v Hi Hh Hm Hs Hcase Hplain)
    as (Hd & _ & _ & Hp2 & Hd2 & Hq2 & Hc2 & Hlen2 & _).
  change (then_ p (PassThroughFulfilled fn) (PassThroughRejected fn) w)
    with (finally p fn w) in *.
  fold d w1 w2 in Hd, Hp2, Hd2, Hq2, Hc2, Hlen2.
  pose proof (finally_job w2 p d s v label body Hp2 Hs Hd2 Hq2) as Htick.
  cbv zeta in Htick. fold w_fn in Htick.
  set (k := match s with fulfilled => ReturnValue v | _ => ThrowReason v end) in *.
  set (c := match s with fulfilled => Normal v | _ => Throw v end).
  assert (is_function k = true) as Hk by (unfold k; by destruct s).
  assert (∀ args w', call k args w' = (c, w')) as Hcall
    by (intros; unfold k, c; by destruct s).
  assert (∀ sq, sq = fulfilled → ∀ v', c = Normal v' →
            callable_then v' = false ∧ then_throws v' = false) as Hcplain.
  { intros sq _ v'. unfold c. destruct s eqn:E; try done.
    intros [= <-]. by apply Hplain. }
  assert (match c with Normal _ => fulfilled | Throw _ => rejected end = s ∧
          match c with Normal v' => v' | Throw e => e end = v) as [Hcs Hcv].
  { unfold c. by destruct s. }
  assert (heap w_fn !! d = Some fresh_instance) as Hdfn by done.
  assert (d < length (heap w_fn)) as Hdlt by (by eapply lookup_lt_Some).
  assert (length (heap w_fn) = S (length (heap w))) as Hlfn by done.
  split; [done|]. split; [by rewrite (state_of_Some _ _ _ Hd2)|].
  destruct (body []) as [x|e].
  2:{ rewrite Htick. split; [simpl; by rewrite Hc2|].
      by destruct (state_of_settled_world d rejected e [] w_fn Hdlt) as (-> & -> & _). }
  destruct (static_resolve x w_fn) as [q w3] eqn:Ewrap. cbn [fst snd].
  pose proof (quiet_static_resolve x w_fn) as Hquiet. rewrite Ewrap in Hquiet.
  cbn [snd] in Hquiet.
  assert (tick w2 = (let '(t, w4) := then_ q k NotCallable w3 in
                     resolve_fn d (VPromise t) w4)) as Htick' by done.
  clear Htick.
  assert (calls (tick w2) = calls w ++ [(label, [])]) as Hctick.
  { rewrite Htick'. destruct (then_ q k NotCallable w3) as [t w4] eqn:Ethen.
    rewrite (quiet_calls _ _ (quiet_resolve_fn d _ w4)).
    rewrite (quiet_calls _ _ (quiet_then_eq _ _ _ _ _ _ Ethen)).
    rewrite (quiet_calls _ _ Hquiet). simpl. by rewrite Hc2. }
  split; [done|]. intros Hhq.
  assert (length (heap w_fn) ≤ length (heap w3)) as Hgrow
    by apply (stable_heap _ _ (evolves_stable _ _ (quiet_evolves _ _ Hquiet))).
  assert (is_promise : {q0 | x = VPromise q0} + {∀ q0, x ≠ VPromise q0}).
  { destruct x; try (right; intros; discriminate). left. eauto. }
  assert (state_of d w3 = pending) as Hd3.
  { destruct is_promise as [[q0 ->]|Hnp].
    - simpl in Ewrap. injection Ewrap as <- <-. by rewrite (state_of_Some _ _ _ Hdfn).
    - assert (w3 = resolve_fn (length (heap w_fn)) x
                     (set_heap (λ h, h ++ [mkInstance pending VUndefined []]) w_fn)) as ->.
      { destruct x; try (by injection Ewrap as _ <-). by destruct (Hnp p0). }
      rewrite (proj1 state_of_resolve_fn_other) by lia.
      unfold state_of. simpl. by rewrite lookup_alloc_old with (i := fresh_instance). }
  assert (∀ sq, state_of q w3 = sq → sq ≠ pending →
            heap w3 !! q = Some (mkInstance sq (value_of q w3) []) ∧
            heap w3 !! d = Some fresh_instance ∧ microtasks w3 = []) as Hsettled.
  { intros sq Hsq Hne.
    destruct is_promise as [[q0 ->]|Hnp].
    - simpl in Ewrap. injection Ewrap as <- <-.
      unfold state_of, value_of, handlers_of in *.
      destruct (heap w_fn !! q0) as [[s0 v0 h0]|]; simpl in *; [|congruence].
      split; [congruence|done].
    - assert (q = length (heap w_fn) ∧
              w3 = resolve_fn (length (heap w_fn)) x
                     (set_heap (λ h, h ++ [mkInstance pending VUndefined []]) w_fn))
        as [-> ->].
      { destruct x; try (by injection Ewrap as <- <-). by destruct (Hnp p0). }
      set (w0 := set_heap _ w_fn) in *. set (q := length (heap w_fn)) in *.
      assert (heap w0 !! q = Some fresh_instance) as Hq0 by apply lookup_alloc_new.
      destruct (proj1 settles_at_once x q w0 fresh_instance Hq0 eq_refl)
        as (s' & v' & fs & Hsp & Heq); [congruence|].
      rewrite Heq in Hsq |- *.
      assert (q < length (heap w0)) as Hqlt by (by eapply lookup_lt_Some).
      unfold state_of, value_of in *. simpl in Hsq |- *.
      rewrite list_lookup_insert_eq in Hsq |- * by done. simpl in *.
      rewrite Hsq.
      split; [done|]. split; [|done].
      rewrite list_lookup_insert_ne by (unfold q; lia).
      by apply lookup_alloc_old. }
  destruct (state_of q w3) eqn:Esq.
  - (* the wrapping instance is pending *)
    split.
    { rewrite Htick'. destruct (then_ q k NotCallable w3) as [t w4] eqn:Ethen.
      assert (t = length (heap w3)) as Ht
        by (unfold then_, construct in Ethen; by injection Ethen as <- _).
      assert (state_of d w4 = pending) as Hd4.
      { destruct (state_value_then q k NotCallable d w3) as [H _].
        rewrite Ethen in H. simpl in H. congruence. }
      rewrite resolve_fn_promise by (done || lia).
      by destruct (state_value_then t (ResolveOf d) (RejectOf d) d w4) as [-> _]. }
    intros -> Hqlt. simpl in Ewrap. injection Ewrap as <-.
    assert (heap w_fn !! q = Some (mkInstance pending (value_of q w_fn) [])) as Hqfn.
    { unfold state_of, value_of, handlers_of in *.
      destruct (heap w_fn !! q) as [[s0 v0 h0]|] eqn:E; simpl in *; [congruence|].
      apply lookup_ge_None in E. lia. }
    destruct (finally_after_pending_deferred w_fn q d k _ c Hqfn Hdfn)
      as (_ & Hm4 & _ & Hlater); try done; [lia|].
    rewrite <- Htick' in Hm4, Hlater.
    split; [done|]. split.
    + intros e. apply (Hlater rejected e); done.
    + intros y Hy1 Hy2. rewrite <- Hcs at 1. rewrite <- Hcv.
      apply (Hlater fulfilled y); try done. by apply Hcplain.
  - (* the wrapping instance is fulfilled *)
    destruct (Hsettled fulfilled eq_refl) as (Hq3 & Hd3' & Hm3); [done|].
    destruct (finally_after_settled_wrap w3 q d k fulfilled _ c Hq3)
      as (_ & H1 & _ & H3 & H4); try done; [by apply Hcplain|].
    rewrite <- Htick' in H1, H3, H4. cbn [ticks] in *.
    split; [done|]. split; congruence.
  - (* the wrapping instance is rejected *)
    destruct (Hsettled rejected eq_refl) as (Hq3 & Hd3' & Hm3); [done|].
    destruct (finally_after_settled_wrap w3 q d k rejected _ c Hq3)
      as (_ & H1 & _ & H3 & H4); try done.
    rewrite <- Htick' in H1, H3, H4. cbn [ticks] in *. done.
Qed.

Lemma C9_finally_passes_outcome_through_witness :
  let w := (new_promise Done empty_world).2 in
  let fn := UserFn 7 (λ _, Normal (VStr "cleanup")) in
  let d := (finally 0 fn w).1 in
  let w2 := reject_fn 0 (VNum 1) (finally 0 fn w).2 in
  (heap w !! 0 = Some fresh_instance ∧ microtasks w = []) ∧
  calls w2 = [] ∧ calls (tick w2) = [(7, [])] ∧
  microtasks (ticks 3 w2) = [] ∧
  state_of d (ticks 3 w2) = rejected ∧ value_of d (ticks 3 w2) = VNum 1.
Proof.
  intros w fn d w2.
  pose proof (C9_finally_passes_outcome_through w 0 fresh_instance 7
                (λ _, Normal (VStr "cleanup")) rejected (VNum 1)
                eq_refl eq_refl eq_refl ltac:(discriminate) (or_introl eq_refl)
                ltac:(discriminate)) as (Hc0 & _ & Hc & H).
  split; [split; reflexivity|]. split; [exact Hc0|]. split; [exact Hc|].
  exact (H eq_refl).
Defined.

(** ** Combinators *)







(** ** The two drafts *)

Lemma resolve_fn_agree this v w : Draft1.resolve_fn this v w = Draft2.resolve_fn this v w.
Proof. reflexivity. Qed.

Lemma call_agree f args w : Draft1.call f args w = Draft2.call f args w.
Proof. reflexivity. Qed.

Lemma tick_agree w : Draft1.tick w = Draft2.tick w.
Proof. reflexivity. Qed.

Lemma exec_agree o w : Draft1.exec o w = Draft2.exec o w.
Proof. destruct o; reflexivity. Qed.

(** C10.  The class of lines 42-315 and the class of lines 360-746 are the
    same program: every operation of the one returns the instance and the
    world that the operation of the other returns, so that any sequence of
    steps of client and host leaves the same states, results, microtask queue
    and log under both. *)
Theorem C10_drafts_agree :
  (∀ executor w, Draft1.new_promise executor w = Draft2.new_promise executor w) ∧
  (∀ p v w, Draft1.resolve_fn p v w = Draft2.resolve_fn p v w) ∧
  (∀ p r w, Draft1.reject_fn p r w = Draft2.reject_fn p r w) ∧
  (∀ p f g w, Draft1.then_ p f g w = Draft2.then_ p f g w) ∧
  (∀ p g w, Draft1.catch p g w = Draft2.catch p g w) ∧
  (∀ p f w, Draft1.finally p f w = Draft2.finally p f w) ∧
  (∀ v w, Draft1.static_resolve v w = Draft2.static_resolve v w) ∧
  (∀ r w, Draft1.static_reject r w = Draft2.static_reject r w) ∧
  (∀ vs w, Draft1.all vs w = Draft2.all vs w) ∧
  (∀ vs w, Draft1.allSettled vs w = Draft2.allSettled vs w) ∧
  (∀ vs w, Draft1.race vs w = Draft2.race vs w) ∧
  (∀ vs w, Draft1.any vs w = Draft2.any vs w) ∧
  (∀ j w, Draft1.run_job j w = Draft2.run_job j w) ∧
  (∀ os w, Draft1.run os w = Draft2.run os w).
Proof.
  repeat (split; [intros; reflexivity|]).
  intros os. induction os as [|o os IH]; intros w; [reflexivity|].
  change (Draft1.run (o :: os) w) with (Draft1.run os (Draft1.exec o w)).
  change (Draft2.run (o :: os) w) with (Draft2.run os (Draft2.exec o w)).
  by rewrite exec_agree, IH.
Qed.

(** ** The executor, the static constructors and the continuations of [then] *)

Lemma run_executor_returning executor this w :
  run_executor executor this w =
  (thrown executor, (run_executor (returning executor) this w).2) ∧
  (run_executor (returning executor) this w).1 = None.
Proof.
  revert w. induction executor; intros w; simpl; try done; apply IHexecutor.
Qed.

(** X1.  An executor that throws.  The calls it made before are kept: if they
    left the instance pending, the instance is rejected with the error thrown;
    if they settled it, the throw changes nothing, and the constructor returns
    the world that the same executor leaves when it returns normally. *)
Theorem X_executor_throw executor w error :
  thrown executor = Some error →
  let p := (new_promise (returning executor) w).1 in
  let w1 := (new_promise (returning executor) w).2 in
  (new_promise executor w).1 = p ∧ p = length (heap w) ∧
  (state_of p w1 = pending →
     state_of p (new_promise executor w).2 = rejected ∧
     value_of p (new_promise executor w).2 = error) ∧
  (state_of p w1 ≠ pending → (new_promise executor w).2 = w1).
Proof.
  intros Hth p w1. unfold p, w1, new_promise, construct.
  set (this := length (heap w)). set (w0 := set_heap _ w).
  destruct (run_executor_returning executor this w0) as [E1 E2].
  rewrite E1, Hth.
  destruct (run_executor (returning executor) this w0) as [o w2] eqn:E.
  simpl in E2. subst o. cbn [fst snd].
  split; [done|]. split; [done|].
  assert (this < length (heap w2)) as Hlt.
  { pose proof (quiet_run_executor (returning executor) this w0) as Hq.
    rewrite E in Hq. simpl in Hq.
    pose proof (stable_heap _ _ (evolves_stable _ _ (quiet_evolves _ _ Hq))) as Hl.
    unfold w0 in Hl. simpl in Hl. rewrite length_app in Hl. simpl in Hl.
    unfold this. lia. }
  destruct (lookup_lt_is_Some_2 _ _ Hlt) as [i Hi].
  split.
  - intros Hp. rewrite (state_of_Some _ _ _ Hi) in Hp.
    rewrite (reject_fn_pending this error w2 i Hi Hp).
    by destruct (state_of_settled_world this rejected error (handlers i) w2 Hlt)
      as (-> & -> & _).
  - intros Hp. by apply reject_fn_settled.
Qed.

Lemma X_executor_throw_witness :
  let executor := CallSecond (VNum 1) (Raise (VStr "late")) in
  thrown (Raise (VStr "boom")) = Some (VStr "boom") ∧
  (state_of 0 (new_promise (Raise (VStr "boom")) empty_world).2 = rejected ∧
   value_of 0 (new_promise (Raise (VStr "boom")) empty_world).2 = VStr "boom") ∧
  (new_promise executor empty_world).2 = (new_promise (returning executor) empty_world).2.
Proof.
  intros executor. split; [reflexivity|]. split.
  - destruct (X_executor_throw (Raise (VStr "boom")) empty_world (VStr "boom") eq_refl)
      as (_ & _ & H & _).
    apply H. reflexivity.
  - destruct (X_executor_throw executor empty_world (VStr "late") eq_refl)
      as (_ & _ & _ & H).
    apply H. vm_compute. discriminate.
Defined.

Lemma construct_settled_at_once s v w :
  s ≠ pending →
  (length (heap w),
   settled_world (length (heap w)) s v []
     (set_heap (λ h, h ++ [mkInstance pending VUndefined []]) w))
  = (length (heap w), set_heap (λ h, h ++ [mkInstance s v []]) w).
Proof.
  intros Hs. f_equal. apply world_eq; simpl; try done.
  - rewrite insert_app_r_alt by done. by rewrite Nat.sub_diag.
  - by rewrite app_nil_r.
Qed.

Lemma static_resolve_plain v w :
  callable_then v = false → then_throws v = false →
  static_resolve v w =
  (length (heap w), set_heap (λ h, h ++ [mkInstance fulfilled v []]) w).
Proof.
  intros Hc Ht.
  assert (static_resolve v w =
          construct (λ d w1, (None, resolve_fn d v w1)) w) as ->
    by (by destruct v).
  unfold construct.
  rewrite (resolve_fn_plain _ v _ (mkInstance pending VUndefined []));
    [|simpl; apply lookup_alloc_new|done..].
  by apply construct_settled_at_once.
Qed.

Lemma static_reject_at_once r w :
  static_reject r w =
  (length (heap w), set_heap (λ h, h ++ [mkInstance rejected r []]) w).
Proof.
  unfold static_reject, construct.
  rewrite (reject_fn_pending _ r _ (mkInstance pending VUndefined []));
    [|simpl; apply lookup_alloc_new|done].
  by apply construct_settled_at_once.
Qed.

(** X2.  [MyPromise.resolve] returns an instance of the class as it is,
    allocating nothing; a value that is not a thenable is wrapped in a new
    instance that is fulfilled with it when the call returns.
    [MyPromise.reject] never looks at its argument: the new instance is
    rejected with exactly the reason given, be it an instance or a thenable. *)
Theorem X_static_resolve_reject w :
  (∀ q, static_resolve (VPromise q) w = (q, w)) ∧
  (∀ v, callable_then v = false → then_throws v = false →
     static_resolve v w =
     (length (heap w), set_heap (λ h, h ++ [mkInstance fulfilled v []]) w)) ∧
  (∀ r, static_reject r w =
        (length (heap w), set_heap (λ h, h ++ [mkInstance rejected r []]) w)).
Proof.
  split; [done|]. split.
  - intros v. apply static_resolve_plain.
  - intros r. apply static_reject_at_once.
Qed.

Lemma X_static_resolve_reject_witness :
  static_resolve (VNum 3) empty_world = (0, set_heap (λ h, h ++ [mkInstance fulfilled (VNum 3) []]) empty_world).
Proof.
  destruct (X_static_resolve_reject empty_world) as (_ & H & _).
  apply H; reflexivity.
Defined.

(** X3.  A continuation registered with [then] on an instance that is
    fulfilled with [v], before the registration or after it, is run by the
    next microtask.  A fulfilment transform that is not callable passes [v]
    on, so the downstream instance is fulfilled with [v]; a callable one is
    called with [v] alone and what it returns is handed to the downstream
    [resolve]; if it throws, the downstream instance is rejected with the
    error.  The rejection transform is not called. *)
Theorem X_fulfilment_transform w p i f g v :
  heap w !! p = Some i → handlers i = [] → microtasks w = [] →
  (state i = pending ∨ (state i = fulfilled ∧ value i = v)) →
  callable_then v = false → then_throws v = false →
  let d := (then_ p f g w).1 in
  let w1 := (then_ p f g w).2 in
  let w2 := once_settled (state i) p fulfilled v w1 in
  let w2' := pop_all w2 in
  calls w2 = calls w ∧ state_of d w2 = pending ∧
  microtasks w2 = [Job p (mkHandler f g (ResolveOf d) (RejectOf d))] ∧
  (is_function f = false →
     tick w2 = resolve_fn d v w2' ∧ calls (tick w2) = calls w ∧
     state_of d (tick w2) = fulfilled ∧ value_of d (tick w2) = v) ∧
  (∀ x w3, is_function f = true → call f [v] w2' = (Normal x, w3) →
     tick w2 = resolve_fn d x w3) ∧
  (∀ error w3, is_function f = true → call f [v] w2' = (Throw error, w3) →
     tick w2 = reject_fn d error w3) ∧
  (∀ label body, f = UserFn label body →
     calls (tick w2) = calls w ++ [(label, [v])] ∧
     match body [v] with
     | Normal x =>
         callable_then x = false → then_throws x = false →
         state_of d (tick w2) = fulfilled ∧ value_of d (tick w2) = x
     | Throw error =>
         state_of d (tick w2) = rejected ∧ value_of d (tick w2) = error
     end).
Proof.
  intros Hi Hh Hq Hcase Hcv Htv d w1 w2 w2'.
  destruct (registered_job w p i f g fulfilled v Hi Hh Hq)
    as (Hd & _ & _ & Hp2 & Hd2 & Hq2 & Hc2 & _ & _); try done.
  fold d w1 w2 in Hd, Hp2, Hd2, Hq2, Hc2.
  assert (heap w2' !! p = Some (mkInstance fulfilled v [])) as Hp' by done.
  assert (heap w2' !! d = Some fresh_instance) as Hd' by done.
  assert (tick w2 = run_job (Job p (mkHandler f g (ResolveOf d) (RejectOf d))) w2')
    as Htick by (by apply tick_cons).
  rewrite Htick, run_job_fulfilled' by (by rewrite (state_of_Some _ _ _ Hp')).
  rewrite (value_of_Some _ _ _ Hp'). cbn [onfulfilled resolve reject value].
  assert (d < length (heap w2')) as Hdlt by (by eapply lookup_lt_Some).
  assert (calls w2' = calls w) as Hcalls by done.
  split; [done|]. split; [by rewrite (state_of_Some _ _ _ Hd2)|].
  split; [done|]. split; [|split; [|split]].
  - intros Hf. rewrite Hf. cbn [negb call snd arg0].
    split; [done|].
    rewrite (resolve_fn_plain d v w2' _ Hd' eq_refl Hcv Htv).
    split; [done|].
    by destruct (state_of_settled_world d fulfilled v (handlers fresh_instance) w2' Hdlt)
      as (-> & -> & _).
  - intros x w3 Hf Hc. by rewrite Hf, Hc.
  - intros e w3 Hf Hc. by rewrite Hf, Hc.
  - intros label body ->. cbn [is_function negb call].
    set (w3 := set_calls _ w2').
    assert (heap w3 !! d = Some fresh_instance) as Hd3 by done.
    split.
    + destruct (body [v]) as [x|e]; cbn [call snd arg0].
      * rewrite (quiet_calls _ _ (quiet_resolve_fn d x _)).
        unfold w3. cbn [calls set_calls]. by rewrite Hcalls.
      * rewrite (quiet_calls _ _ (quiet_reject_fn d e _)).
        unfold w3. cbn [calls set_calls]. by rewrite Hcalls.
    + destruct (body [v]) as [x|e]; cbn [call snd arg0].
      * intros Hc Hth. rewrite (resolve_fn_plain d x w3 _ Hd3 eq_refl Hc Hth).
        by destruct (state_of_settled_world d fulfilled x (handlers fresh_instance) w3 Hdlt)
          as (-> & -> & _).
      * rewrite (reject_fn_pending d e w3 _ Hd3 eq_refl).
        by destruct (state_of_settled_world d rejected e (handlers fresh_instance) w3 Hdlt)
          as (-> & -> & _).
Qed.

Lemma X_fulfilment_transform_witness :
  let w := (new_promise Done empty_world).2 in
  let f := UserFn 1 (λ _, Normal (VNum 2)) in
  let g := UserFn 2 (λ _, Normal (VNum 3)) in
  let w2 := resolve_fn 0 (VNum 1) (then_ 0 f g w).2 in
  calls (tick w2) = [(1, [VNum 1])] ∧
  state_of 1 (tick w2) = fulfilled ∧ value_of 1 (tick w2) = VNum 2.
Proof.
  intros w f g w2.
  pose proof (X_fulfilment_transform w 0 fresh_instance f g (VNum 1)
                eq_refl eq_refl eq_refl (or_introl eq_refl) eq_refl eq_refl) as H.
  destruct H as (_ & _ & _ & _ & _ & _ & H).
  destruct (H 1 (λ _, Normal (VNum 2)) eq_refl) as [Hc Hs].
  split; [exact Hc|]. exact (Hs eq_refl eq_refl).
Defined.

(** X4.  Resolving a pending instance [p] with another instance [q] of the
    class.  The call never settles [p], not even when [q] is settled already:
    [p] takes the state and the result of [q] in the first microtask after [q]
    is settled, and its own continuations are queued then. *)
Theorem X_adoption w p q ip iq s v :
  heap w !! p = Some ip → state ip = pending →
  heap w !! q = Some iq → handlers iq = [] → p ≠ q → microtasks w = [] →
  s ≠ pending → (state iq = pending ∨ (state iq = s ∧ value iq = v)) →
  (s = fulfilled → callable_then v = false ∧ then_throws v = false) →
  let w1 := resolve_fn p (VPromise q) w in
  let w2 := once_settled (state iq) q s v w1 in
  state_of p w1 = pending ∧ state_of p w2 = pending ∧
  calls (tick w2) = calls w ∧
  state_of p (tick w2) = s ∧ value_of p (tick w2) = v ∧
  microtasks (tick w2) = Job p <$> handlers ip.
Proof.
  intros Hp Hsp Hq Hhq Hpq Hm Hs Hcase Hplain w1 w2.
  assert (state_of p w = pending) as Hpw by (by rewrite (state_of_Some _ _ _ Hp)).
  assert (w1 = (then_ q (ResolveOf p) (RejectOf p) w).2) as Hw1
    by (by apply resolve_fn_promise).
  destruct (registered_job w q iq (ResolveOf p) (RejectOf p) s v Hq Hhq Hm Hs Hcase Hplain)
    as (Hd & Hc1 & _ & Hq2 & Hd2 & Hm2 & Hc2 & Hl2 & Hframe).
  rewrite <- Hw1 in Hc1, Hq2, Hd2, Hm2, Hc2, Hl2, Hframe. fold w2 in Hq2, Hd2, Hm2, Hc2, Hl2, Hframe.
  set (d := (then_ q (ResolveOf p) (RejectOf p) w).1) in *.
  assert (p < length (heap w)) as Hplt by (by eapply lookup_lt_Some).
  assert (heap w2 !! p = Some ip) as Hp2 by (rewrite Hframe; done).
  assert (p ≠ d) as Hpd by lia.
  split.
  { rewrite Hw1. by rewrite (proj1 (state_value_then q _ _ p w)). }
  split; [by rewrite (state_of_Some _ _ _ Hp2)|].
  rewrite (tick_cons _ _ _ Hm2). fold (pop_all w2). set (w0 := pop_all w2).
  assert (heap w0 !! p = Some ip) as Hp0 by done.
  assert (heap w0 !! d = Some fresh_instance) as Hd0 by done.
  assert (state_of q w0 = s) as Hsq by (exact (state_of_Some w2 _ _ Hq2)).
  assert (value_of q w0 = v) as Hvq by (exact (value_of_Some w2 _ _ Hq2)).
  assert (run_job (Job q (mkHandler (ResolveOf p) (RejectOf p) (ResolveOf d) (RejectOf d))) w0
          = settled_world d fulfilled VUndefined [] (settled_world p s v (handlers ip) w0)) as ->.
  { destruct s; [done| |].
    - rewrite run_job_fulfilled' by done.
      cbn [onfulfilled is_function negb resolve reject].
      rewrite Hvq. cbn [call arg0].
      destruct (Hplain eq_refl).
      rewrite (resolve_fn_plain p v w0 _ Hp0 Hsp) by done. cbn [snd call arg0].
      rewrite (resolve_fn_plain d VUndefined _ fresh_instance); try done.
      by rewrite lookup_settled_world_ne.
    - rewrite run_job_rejected by done.
      cbn [onrejected is_function negb resolve reject].
      rewrite Hvq. cbn [call arg0].
      rewrite (reject_fn_pending p v w0 _ Hp0 Hsp). cbn [snd call arg0].
      rewrite (resolve_fn_plain d VUndefined _ fresh_instance); try done.
      by rewrite lookup_settled_world_ne. }
  split; [simpl; by rewrite Hc2|].
  unfold state_of, value_of.
  rewrite lookup_settled_world_ne by done.
  rewrite (lookup_settled_world_eq p s v _ w0 _ Hp0).
  split; [done|]. split; [done|]. simpl. by rewrite app_nil_r.
Qed.

Lemma X_adoption_witness :
  let w := (static_resolve (VNum 5) (new_promise Done empty_world).2).2 in
  let w1 := resolve_fn 0 (VPromise 1) w in
  (state_of 1 w = fulfilled ∧ state_of 0 w = pending) ∧
  state_of 0 w1 = pending ∧
  state_of 0 (tick w1) = fulfilled ∧ value_of 0 (tick w1) = VNum 5.
Proof.
  intros w w1.
  pose proof (X_adoption w 0 1 fresh_instance (mkInstance fulfilled (VNum 5) [])
                fulfilled (VNum 5) eq_refl eq_refl eq_refl eq_refl) as H.
  destruct H as (H1 & _ & _ & H2 & H3 & _);
    [lia|reflexivity|discriminate|right; split; reflexivity|split; reflexivity|].
  split; [split; reflexivity|]. split; [exact H1|]. split; [exact H2|exact H3].
Defined.

Lemma ticks_add a b w : ticks (a + b) w = ticks b (ticks a w).
Proof. revert w. induction a as [|a IH]; intros w; [done|]. simpl. apply IH. Qed.

Lemma ticks_idle n w : microtasks w = [] → ticks n w = w.
Proof.
  intros Hw. induction n as [|n IH]; [done|]. simpl. unfold tick. by rewrite Hw.
Qed.

Lemma stable_ticks n w : stable w (ticks n w).
Proof.
  revert w. induction n as [|n IH]; intros w; [apply stable_refl|]. simpl.
  eapply stable_trans; [apply stable_tick | apply IH].
Qed.

(** When [m] microtasks leave the log as it was, so does any number. *)
Lemma calls_ticks_const m w n :
  microtasks (ticks m w) = [] → calls (ticks m w) = calls w →
  calls (ticks n w) = calls w.
Proof.
  intros Hm Hc. destruct (decide (n ≤ m)) as [Hn|Hn].
  - apply (anti_symm prefix).
    + rewrite <- Hc. replace m with (n + (m - n)) by lia. rewrite ticks_add.
      apply stable_calls, stable_ticks.
    + apply stable_calls, stable_ticks.
  - replace n with (m + (n - m)) by lia. rewrite ticks_add.
    by rewrite ticks_idle.
Qed.

(** X5.  [finally] without a callback.  A fulfilment passes to the new
    instance in one microtask; a rejection is still on its way after one and
    arrives after three, since the rejected branch goes through
    [MyPromise.resolve(undefined).then(...)] all the same.  No function of the
    client is called. *)
Theorem X_finally_without_callback w p i s v :
  heap w !! p = Some i → handlers i = [] → microtasks w = [] →
  s ≠ pending → (state i = pending ∨ (state i = s ∧ value i = v)) →
  (s = fulfilled → callable_then v = false ∧ then_throws v = false) →
  let d := (finally p NotCallable w).1 in
  let w1 := (finally p NotCallable w).2 in
  let w2 := once_settled (state i) p s v w1 in
  state_of d w2 = pending ∧
  match s with
  | fulfilled =>
      microtasks (tick w2) = [] ∧
      state_of d (tick w2) = fulfilled ∧ value_of d (tick w2) = v
  | _ =>
      state_of d (tick w2) = pending ∧
      microtasks (ticks 3 w2) = [] ∧
      state_of d (ticks 3 w2) = rejected ∧ value_of d (ticks 3 w2) = v
  end ∧
  (∀ n, calls (ticks n w2) = calls w).
Proof.
  intros Hi Hh Hm Hs Hcase Hplain d w1 w2.
  destruct (registered_job w p i (PassThroughFulfilled NotCallable)
              (PassThroughRejected NotCallable) s v Hi Hh Hm Hs Hcase Hplain)
    as (Hd & _ & _ & Hp2 & Hd2 & Hq2 & Hc2 & Hlen2 & _).
  change (then_ p (PassThroughFulfilled NotCallable) (PassThroughRejected NotCallable) w)
    with (finally p NotCallable w) in *.
  fold d w1 w2 in Hd, Hp2, Hd2, Hq2, Hc2, Hlen2.
  split; [by rewrite (state_of_Some _ _ _ Hd2)|].
  pose proof (tick_cons _ _ _ Hq2) as Htick. fold (pop_all w2) in Htick.
  set (w0 := pop_all w2) in *.
  assert (heap w0 !! p = Some (mkInstance s v [])) as Hp0 by done.
  assert (heap w0 !! d = Some fresh_instance) as Hd0 by done.
  assert (d < length (heap w0)) as Hdlt by (by eapply lookup_lt_Some).
  destruct s; [done| |].
  - rewrite run_job_fulfilled' in Htick by (by rewrite (state_of_Some _ _ _ Hp0)).
    rewrite (value_of_Some _ _ _ Hp0) in Htick.
    cbn [onfulfilled resolve reject value is_function negb call arg0 snd] in Htick.
    destruct (Hplain eq_refl) as [Hc Ht].
    rewrite (resolve_fn_plain d v w0 _ Hd0 eq_refl Hc Ht) in Htick.
    rewrite Htick.
    split.
    { split; [done|].
      by destruct (state_of_settled_world d fulfilled v (handlers fresh_instance) w0 Hdlt)
        as (-> & -> & _). }
    intros n. rewrite <- Hc2. apply (calls_ticks_const 1); simpl; by rewrite Htick.
  - rewrite run_job_rejected in Htick by (by rewrite (state_of_Some _ _ _ Hp0)).
    rewrite (value_of_Some _ _ _ Hp0) in Htick.
    cbn [onrejected resolve reject value is_function negb call arg0] in Htick.
    rewrite (static_resolve_plain VUndefined w0 eq_refl eq_refl) in Htick.
    set (q := length (heap w0)) in *. set (w3 := set_heap _ w0) in *.
    assert (heap w3 !! q = Some (mkInstance fulfilled VUndefined [])) as Hq3
      by exact (lookup_alloc_new (heap w0) _).
    assert (heap w3 !! d = Some fresh_instance) as Hd3.
    { unfold w3. simpl. rewrite lookup_alloc_lt; [done|]. by eapply lookup_lt_Some. }
    destruct (finally_after_settled_wrap w3 q d (ThrowReason v) fulfilled VUndefined
                (Throw v) Hq3) as (Hc4 & Hm4 & Hc4' & Hs4 & Hv4); try done.
    destruct (then_ q (ThrowReason v) NotCallable w3) as [t w4] eqn:Ethen.
    cbn [call snd arg0] in Htick. cbv zeta in Hc4, Hm4, Hc4', Hs4, Hv4.
    rewrite <- Htick in Hc4, Hm4, Hc4', Hs4, Hv4.
    assert (state_of d (tick w2) = pending) as Hpend.
    { rewrite Htick.
      assert (t = length (heap w3)) as Ht
        by (unfold then_, construct in Ethen; by injection Ethen as <- _).
      assert (state_of d w4 = pending) as Hd4.
      { destruct (state_value_then q (ThrowReason v) NotCallable d w3) as [H _].
        rewrite Ethen in H. simpl in H. rewrite H. by rewrite (state_of_Some _ _ _ Hd3). }
      assert (d < length (heap w3)) by (by eapply lookup_lt_Some).
      rewrite resolve_fn_promise by (done || lia).
      by destruct (state_value_then t (ResolveOf d) (RejectOf d) d w4) as [-> _]. }
    split; [done|].
    intros n. rewrite <- Hc2. apply (calls_ticks_const 3); [done|].
    change (ticks 3 w2) with (ticks 2 (tick w2)). by rewrite Hc4'.
Qed.

Lemma X_finally_without_callback_witness :
  let w := (static_reject (VStr "no") empty_world).2 in
  let d := (finally 0 NotCallable w).1 in
  let w2 := (finally 0 NotCallable w).2 in
  state_of d w2 = pending ∧ state_of d (tick w2) = pending ∧
  state_of d (ticks 3 w2) = rejected ∧ value_of d (ticks 3 w2) = VStr "no".
Proof.
  intros w d w2.
  destruct (X_finally_without_callback w 0 (mkInstance rejected (VStr "no") [])
              rejected (VStr "no") eq_refl eq_refl eq_refl)
    as (H0 & (H1 & _ & H2 & H3) & _);
    [discriminate|right; split; reflexivity|discriminate|].
  split; [exact H0|]. split; [exact H1|]. split; [exact H2|exact H3].
Defined.

(** ** [race] *)

Lemma race_round_idle R p index w i :
  heap w !! p = Some i → handlers i = [] →
  let d := length (heap w) in
  let w' := race_round R (VPromise p) index w in
  heap w' = <[p := raced R d i]> (heap w) ++ [fresh_instance] ∧
  microtasks w' = microtasks w ++
    (if is_pending (state i) then [] else [Job p (race_handler R d)]) ∧
  arrays w' = arrays w ∧ counters w' = counters w ∧ flags w' = flags w ∧
  calls w' = calls w.
Proof.
  intros Hi Hh d w'. unfold w', race_round. cbn [static_resolve].
  destruct (state i) eqn:Es.
  - rewrite (then_pending p _ _ w i Hi Es), Hh. cbn [snd].
    unfold raced. rewrite Es. cbn [is_pending]. simpl.
    by rewrite app_nil_r.
  - rewrite (then_idle p _ _ w i Hi) by (done || by rewrite Es). cbn [snd].
    unfold raced. rewrite Es. cbn [is_pending]. simpl.
    by rewrite list_insert_id.
  - rewrite (then_idle p _ _ w i Hi) by (done || by rewrite Es). cbn [snd].
    unfold raced. rewrite Es. cbn [is_pending]. simpl.
    by rewrite list_insert_id.
Qed.

Lemma race_jobs_frame w w' R d ps :
  (∀ p, p ∈ ps → heap w' !! p = heap w !! p) →
  race_jobs w' R d ps = race_jobs w R d ps.
Proof.
  revert d. induction ps as [|p ps IH]; intros d Hps; [done|]. simpl.
  unfold state_of. rewrite Hps by (by left). f_equal.
  apply IH. intros p' Hp'. apply Hps. by right.
Qed.

Lemma race_rounds R : ∀ ps index w,
  NoDup ps → (∀ p, p ∈ ps → idle p w) →
  let base := length (heap w) in
  let w' := forEach_from index (race_round R) (VPromise <$> ps) w in
  (∀ k p i, ps !! k = Some p → heap w !! p = Some i →
     heap w' !! p = Some (raced R (base + k) i)) ∧
  (∀ k, k < length ps → heap w' !! (base + k) = Some fresh_instance) ∧
  length (heap w') = base + length ps ∧
  (∀ x, x ∉ ps → x < base → heap w' !! x = heap w !! x) ∧
  microtasks w' = microtasks w ++ race_jobs w R base ps ∧
  calls w' = calls w.
Proof.
  induction ps as [|p ps IH]; intros index w Hnd Hps base w'.
  - unfold w'. simpl. rewrite app_nil_r. repeat split; (done || lia).
  - apply NoDup_cons in Hnd as [Hp Hnd].
    destruct (Hps p) as (i & Hi & Hh); [by left|].
    destruct (race_round_idle R p index w i Hi Hh) as (Hheap & Hq & _ & _ & _ & Hc).
    set (w1 := race_round R (VPromise p) index w) in *.
    fold base in Hheap, Hq.
    assert (p < base) as Hpb by (by eapply lookup_lt_Some).
    assert (length (heap w1) = S base) as Hl1.
    { rewrite Hheap, length_app, length_insert. simpl. unfold base. lia. }
    assert (∀ x, x ≠ p → x < base → heap w1 !! x = heap w !! x) as Hframe.
    { intros x Hx Hxb. rewrite Hheap, lookup_app_l by (by rewrite length_insert).
      by rewrite list_lookup_insert_ne. }
    assert (∀ p', p' ∈ ps → idle p' w1) as Hps1.
    { intros p' Hp'. destruct (Hps p') as (i' & Hi' & Hh'); [by right|].
      exists i'. split; [|done]. rewrite Hframe; [done| |by eapply lookup_lt_Some].
      intros ->. done. }
    destruct (IH (S index) w1 Hnd Hps1) as (Hw & Hfresh & Hl & Hf & Hm & Hcalls).
    change (forEach_from (S index) (race_round R) (VPromise <$> ps) w1) with w' in *.
    rewrite Hl1 in Hw, Hfresh, Hl, Hf, Hm.
    split; [|split; [|split; [|split; [|split]]]].
    + intros [|k] p' i' Hk Hi'; simpl in Hk.
      * injection Hk as <-. rewrite Nat.add_0_r.
        assert (i' = i) as -> by congruence.
        rewrite Hf; [|done|lia].
        rewrite Hheap, lookup_app_l by (by rewrite length_insert).
        by rewrite list_lookup_insert_eq.
      * replace (base + S k) with (S base + k) by lia.
        apply (Hw k p' i' Hk). rewrite Hframe; [done| |by eapply lookup_lt_Some].
        intros ->. apply Hp. by eapply list_elem_of_lookup_2.
    + intros [|k] Hk; simpl in Hk.
      * rewrite Nat.add_0_r. rewrite Hf; [| |lia].
        -- rewrite Hheap, lookup_app_r by (by rewrite length_insert).
           rewrite length_insert. fold base. by rewrite Nat.sub_diag.
        -- intros Hin. destruct (Hps base) as (? & Hb & _); [by right|].
           apply lookup_lt_Some in Hb. unfold base in Hb. lia.
      * replace (base + S k) with (S base + k) by lia. apply Hfresh. lia.
    + rewrite Hl. simpl. lia.
    + intros x Hx Hxb. rewrite Hf.
      * apply Hframe; [|done]. intros ->. apply Hx. by left.
      * intros Hin. apply Hx. by right.
      * lia.
    + rewrite Hm, Hq, <- app_assoc. f_equal. simpl.
      rewrite (state_of_Some _ _ _ Hi). f_equal.
      apply race_jobs_frame. intros p' Hp'. apply Hframe.
      * intros ->. done.
      * destruct (Hps p') as (? & Hb & _); [by right|]. by eapply lookup_lt_Some.
    + congruence.
Qed.

(** A microtask whose two continuations are the closures of [d]: the result
    of [t] is handed to [d], and the instance [u] that [then] returned is
    fulfilled with [undefined]. *)
Lemma forward_job w t d u s v id :
  state_of t w = s → value_of t w = v → s ≠ pending →
  (s = fulfilled → callable_then v = false ∧ then_throws v = false) →
  heap w !! d = Some id → state id = pending →
  heap w !! u = Some fresh_instance → d ≠ u →
  run_job (Job t (mkHandler (ResolveOf d) (RejectOf d) (ResolveOf u) (RejectOf u))) w
  = settled_world u fulfilled VUndefined [] (settled_world d s v (handlers id) w).
Proof.
  intros Hst Hv Hs Hplain Hd Hsd Hu Hdu.
  destruct s; [done| |].
  - rewrite run_job_fulfilled' by done.
    cbn [onfulfilled is_function negb resolve reject].
    rewrite Hv. cbn [call arg0].
    destruct (Hplain eq_refl).
    rewrite (resolve_fn_plain d v w _ Hd Hsd) by done. cbn [snd call arg0].
    rewrite (resolve_fn_plain u VUndefined _ fresh_instance); try done.
    by rewrite lookup_settled_world_ne.
  - rewrite run_job_rejected by done.
    cbn [onrejected is_function negb resolve reject].
    rewrite Hv. cbn [call arg0].
    rewrite (reject_fn_pending d v w _ Hd Hsd). cbn [snd call arg0].
    rewrite (resolve_fn_plain u VUndefined _ fresh_instance); try done.
    by rewrite lookup_settled_world_ne.
Qed.

Lemma forward_job_result w t d u s v id :
  state_of t w = s → value_of t w = v → s ≠ pending →
  (s = fulfilled → callable_then v = false ∧ then_throws v = false) →
  heap w !! d = Some id → state id = pending →
  heap w !! u = Some fresh_instance → d ≠ u →
  let w' := run_job (Job t (mkHandler (ResolveOf d) (RejectOf d)
                              (ResolveOf u) (RejectOf u))) w in
  state_of d w' = s ∧ value_of d w' = v ∧
  microtasks w' = microtasks w ++ (Job d <$> handlers id) ∧ calls w' = calls w.
Proof.
  intros Hst Hv Hs Hplain Hd Hsd Hu Hdu w'. unfold w'.
  rewrite (forward_job w t d u s v id) by done.
  unfold state_of, value_of. rewrite lookup_settled_world_ne by done.
  rewrite (lookup_settled_world_eq d s v _ w _ Hd). simpl.
  by rewrite app_nil_r.
Qed.

Lemma race_rounds_of values w :
  race values w =
  (length (heap w),
   forEach_from 0 (race_round (length (heap w))) values
     (set_heap (λ h, h ++ [fresh_instance]) w)).
Proof. done. Qed.

Lemma race_jobs_pending w R ps : ∀ d,
  (∀ p, p ∈ ps → state_of p w = pending) → race_jobs w R d ps = [].
Proof.
  induction ps as [|p ps IH]; intros d Hps; [done|]. simpl.
  rewrite Hps by (by left). simpl. apply IH. intros p' Hp'. apply Hps. by right.
Qed.

Lemma race_jobs_first w R ps : ∀ d j p,
  ps !! j = Some p → state_of p w ≠ pending →
  (∀ k q, k < j → ps !! k = Some q → state_of q w = pending) →
  ∃ more, race_jobs w R d ps = Job p (race_handler R (d + j)) :: more.
Proof.
  induction ps as [|p0 ps IH]; intros d j p Hj Hp Hbefore; [done|].
  destruct j as [|j]; simpl in Hj.
  - injection Hj as ->. simpl. rewrite Nat.add_0_r.
    destruct (state_of p w); [done|eauto..].
  - simpl. rewrite (Hbefore 0 p0) by (done || lia). simpl.
    replace (d + S j) with (S d + j) by lia.
    apply IH; [done..|]. intros k q Hk Hq. apply (Hbefore (S k) q); [lia|done].
Qed.

(** The world that [race] leaves. *)
Lemma race_world w ps :
  NoDup ps → (∀ p, p ∈ ps → idle p w) →
  let R := length (heap w) in
  let w0 := (race (VPromise <$> ps) w).2 in
  (race (VPromise <$> ps) w).1 = R ∧
  heap w0 !! R = Some fresh_instance ∧
  (∀ k p i, ps !! k = Some p → heap w !! p = Some i →
     heap w0 !! p = Some (raced R (R + 1 + k) i) ∧ p < R ∧
     heap w0 !! (R + 1 + k) = Some fresh_instance) ∧
  microtasks w0 = microtasks w ++ race_jobs w R (R + 1) ps ∧
  calls w0 = calls w.
Proof.
  intros Hnd Hps R w0. unfold w0. rewrite race_rounds_of. cbn [fst snd]. fold R.
  set (w1 := set_heap _ w).
  assert (∀ x i, heap w !! x = Some i → heap w1 !! x = Some i) as Hold.
  { intros x i Hx. unfold w1. simpl. by apply lookup_alloc_old. }
  assert (∀ p, p ∈ ps → p < R) as Hlt.
  { intros p Hp. destruct (Hps p Hp) as (i & Hi & _). by eapply lookup_lt_Some. }
  assert (length (heap w1) = R + 1) as Hl1.
  { unfold w1. simpl. by rewrite length_app. }
  destruct (race_rounds R ps 0 w1 Hnd) as (Hw & Hfresh & Hl & Hf & Hm & Hc).
  { intros p Hp. destruct (Hps p Hp) as (i & Hi & Hh). exists i. eauto. }
  rewrite Hl1 in Hw, Hfresh, Hl, Hf, Hm.
  split; [done|]. split.
  { rewrite Hf; [apply (lookup_alloc_new (heap w))| |lia].
    intros Hin. apply Hlt in Hin. lia. }
  split.
  { intros k p i Hk Hi. split; [by apply (Hw k p i Hk), Hold|].
    split; [apply Hlt; by eapply list_elem_of_lookup_2|].
    apply Hfresh. by eapply lookup_lt_Some. }
  split; [|done]. rewrite Hm. f_equal.
  apply race_jobs_frame. intros p Hp. destruct (Hps p Hp) as (i & Hi & _).
  by rewrite (Hold p i), Hi.
Qed.

(** X6.  [race] on pending instances of the client, with no other work queued.
    The result is pending and no microtask is queued, so that on an empty
    sequence it stays pending for ever.  The first element to be settled gives
    the result its state and its value in the next microtask, and nothing that
    happens later changes them. *)
Theorem X_race_first_to_settle w ps :
  microtasks w = [] → NoDup ps →
  (∀ p, p ∈ ps → heap w !! p = Some fresh_instance) →
  let R := (race (VPromise <$> ps) w).1 in
  let w0 := (race (VPromise <$> ps) w).2 in
  state_of R w0 = pending ∧ microtasks w0 = [] ∧ calls w0 = calls w ∧
  (∀ n, ticks n w0 = w0) ∧
  ∀ j s v os, j < length ps → s ≠ pending →
    (s = fulfilled → callable_then v = false ∧ then_throws v = false) →
    let w1 := tick (settle (ps !!! j) s v w0) in
    state_of R w1 = s ∧ value_of R w1 = v ∧ microtasks w1 = [] ∧
    state_of R (run os w1) = s ∧ value_of R (run os w1) = v.
Proof.
  intros Hm Hnd Hps R w0.
  destruct (race_world w ps Hnd) as (HR & HwR & Hel & Hq & Hc).
  { intros p Hp. exists fresh_instance. split; [by apply Hps|done]. }
  fold R w0 in HR, HwR, Hel, Hq, Hc. rewrite HR in *.
  rewrite Hm, race_jobs_pending in Hq.
  2:{ intros p Hp. by rewrite (state_of_Some _ _ _ (Hps p Hp)). }
  simpl in Hq.
  split; [by rewrite (state_of_Some _ _ _ HwR)|].
  split; [done|]. split; [done|]. split; [intros n; by apply ticks_idle|].
  intros j s v os Hj Hs Hplain w1.
  destruct (lookup_lt_is_Some_2 _ _ Hj) as [p Hp].
  subst w1. rewrite (list_lookup_total_correct _ _ _ Hp).
  set (w1 := tick _).
  destruct (Hel j p fresh_instance Hp) as (Hp0 & HpR & Hd0).
  { apply Hps. by eapply list_elem_of_lookup_2. }
  unfold raced in Hp0. cbn [is_pending state fresh_instance value] in Hp0.
  set (d := length (heap w) + 1 + j) in *.
  assert (settle p s v w0 = settled_world p s v [race_handler (length (heap w)) d] w0) as Hset.
  { unfold settle. destruct s; [done| |]; cbn [exec call snd arg0].
    - destruct (Hplain eq_refl). by rewrite (resolve_fn_plain p v w0 _ Hp0 eq_refl).
    - by rewrite (reject_fn_pending p v w0 _ Hp0 eq_refl). }
  assert (w1 = run_job (Job p (race_handler (length (heap w)) d))
                 (pop_all (settled_world p s v [race_handler (length (heap w)) d] w0)))
    as Hw1.
  { unfold w1. rewrite Hset. apply tick_settled_world. done. }
  set (w2 := pop_all _) in Hw1.
  assert (heap w2 !! p = Some (mkInstance s v [])) as Hp2.
  { unfold w2. rewrite heap_pop_all. by eapply lookup_settled_world_eq. }
  assert (heap w2 !! length (heap w) = Some fresh_instance) as HR2.
  { unfold w2. rewrite heap_pop_all, lookup_settled_world_ne; [done|lia]. }
  assert (heap w2 !! d = Some fresh_instance) as Hd2.
  { unfold w2. rewrite heap_pop_all, lookup_settled_world_ne; [done|unfold d; lia]. }
  destruct (forward_job_result w2 p (length (heap w)) d s v fresh_instance)
    as (H1 & H2 & H3 & _); try done.
  { by rewrite (state_of_Some _ _ _ Hp2). }
  { by rewrite (value_of_Some _ _ _ Hp2). }
  { unfold d. lia. }
  unfold race_handler in Hw1. rewrite <- Hw1 in H1, H2, H3.
  split; [done|]. split; [done|]. split; [done|].
  destruct (settled_is_final os w1 (length (heap w))) as [-> ->]; [congruence|done].
Qed.

Lemma X_race_first_to_settle_witness :
  let w := (new_promise Done (new_promise Done empty_world).2).2 in
  let ps := [0; 1] in
  let R := (race (VPromise <$> ps) w).1 in
  let w0 := (race (VPromise <$> ps) w).2 in
  let w1 := tick (settle 1 rejected (VStr "late") w0) in
  (microtasks w = [] ∧ NoDup ps) ∧
  state_of R w0 = pending ∧ state_of R w1 = rejected ∧ value_of R w1 = VStr "late" ∧
  state_of R (run [Call (ResolveOf 0) [VNum 1]; Tick] w1) = rejected.
Proof.
  intros w ps R w0 w1.
  assert (NoDup ps) as Hnd.
  { unfold ps. apply NoDup_cons. split; [|apply NoDup_singleton].
    rewrite list_elem_of_singleton. lia. }
  destruct (X_race_first_to_settle w ps eq_refl Hnd) as (H0 & _ & _ & _ & H).
  { intros p Hp. unfold ps in Hp.
    apply elem_of_cons in Hp as [->|Hp]; [reflexivity|].
    apply list_elem_of_singleton in Hp as ->. reflexivity. }
  destruct (H 1 rejected (VStr "late") [Call (ResolveOf 0) [VNum 1]; Tick])
    as (H1 & H2 & _ & H3 & _); [simpl; lia|discriminate|discriminate|].
  split; [split; [reflexivity|exact Hnd]|].
  split; [exact H0|]. split; [exact H1|]. split; [exact H2|exact H3].
Defined.

(** X7.  [race] when some elements are settled already: the first of them in
    the order of the sequence gives the result its state and its value in one
    microtask, whatever the states of the elements after it. *)
Theorem X_race_settled_elements w ps j p i :
  microtasks w = [] → NoDup ps → (∀ q, q ∈ ps → idle q w) →
  ps !! j = Some p → heap w !! p = Some i → state i ≠ pending →
  (∀ k q, k < j → ps !! k = Some q → state_of q w = pending) →
  (state i = fulfilled → callable_then (value i) = false ∧ then_throws (value i) = false) →
  let R := (race (VPromise <$> ps) w).1 in
  let w0 := (race (VPromise <$> ps) w).2 in
  state_of R w0 = pending ∧ calls (tick w0) = calls w ∧
  state_of R (tick w0) = state i ∧ value_of R (tick w0) = value i ∧
  ∀ os, state_of R (run os (tick w0)) = state i ∧
        value_of R (run os (tick w0)) = value i.
Proof.
  intros Hm Hnd Hps Hj Hi Hsi Hbefore Hplain R w0.
  destruct (race_world w ps Hnd Hps) as (HR & HwR & Hel & Hq & Hc).
  fold R w0 in HR, HwR, Hel, Hq, Hc. rewrite HR in *.
  destruct (race_jobs_first w (length (heap w)) ps (length (heap w) + 1) j p Hj)
    as [more Hjobs]; [by rewrite (state_of_Some _ _ _ Hi)|done|].
  rewrite Hm, Hjobs in Hq. simpl in Hq.
  destruct (Hel j p i Hj Hi) as (Hp0 & HpR & Hd0).
  assert (raced (length (heap w)) (length (heap w) + 1 + j) i = i) as Hraced.
  { unfold raced. by destruct (state i). }
  rewrite Hraced in Hp0.
  set (d := length (heap w) + 1 + j) in *.
  split; [by rewrite (state_of_Some _ _ _ HwR)|].
  rewrite (tick_cons _ _ _ Hq). set (w2 := set_microtasks _ w0).
  destruct (forward_job_result w2 p (length (heap w)) d (state i) (value i) fresh_instance)
    as (H1 & H2 & _ & H4); try done.
  { exact (state_of_Some w0 _ _ Hp0). }
  { exact (value_of_Some w0 _ _ Hp0). }
  { unfold d. lia. }
  unfold race_handler. split; [by rewrite H4|]. split; [done|]. split; [done|].
  intros os.
  match goal with |- context [run os ?W] =>
    destruct (settled_is_final os W (length (heap w))) as [-> ->]; [congruence|done]
  end.
Qed.

Lemma X_race_settled_elements_witness :
  let w := (static_reject (VStr "no")
             (static_resolve (VNum 1) (new_promise Done empty_world).2).2).2 in
  let ps := [0; 1; 2] in
  let R := (race (VPromise <$> ps) w).1 in
  let w0 := (race (VPromise <$> ps) w).2 in
  (state_of 0 w = pending ∧ state_of 1 w = fulfilled ∧ state_of 2 w = rejected) ∧
  state_of R (tick w0) = fulfilled ∧ value_of R (tick w0) = VNum 1 ∧
  state_of R (run [Tick] (tick w0)) = fulfilled.
Proof.
  intros w ps R w0.
  assert (NoDup ps) as Hnd.
  { unfold ps. apply NoDup_cons. split.
    - rewrite !elem_of_cons, elem_of_nil. lia.
    - apply NoDup_cons. split; [|apply NoDup_singleton].
      rewrite list_elem_of_singleton. lia. }
  destruct (X_race_settled_elements w ps 1 1 (mkInstance fulfilled (VNum 1) [])
              eq_refl Hnd) as (_ & _ & H1 & H2 & H3).
  { intros q Hq. unfold ps in Hq. rewrite !elem_of_cons, elem_of_nil in Hq.
    destruct Hq as [->|[->|[->|[]]]].
    - exists fresh_instance. split; reflexivity.
    - exists (mkInstance fulfilled (VNum 1) []). split; reflexivity.
    - exists (mkInstance rejected (VStr "no") []). split; reflexivity. }
  { reflexivity. } { reflexivity. } { discriminate. }
  { intros [|k] q Hk Hq; [|lia]. injection Hq as <-. reflexivity. }
  { split; reflexivity. }
  split; [repeat split; reflexivity|]. split; [exact H1|]. split; [exact H2|].
  exact (proj1 (H3 [Tick])).
Defined.

(** ** [allSettled] *)

Lemma plain_undefined : callable_then VUndefined = false ∧ then_throws VUndefined = false.
Proof. done. Qed.

(** The first two microtasks after an element of [allSettled] is settled. *)
Lemma allSettled_hops a c len R index p t u f s v w :
  awaits_settlement a c len R index p t u f w →
  p ≠ t → p ≠ u → t ≠ u → microtasks w = [] →
  s ≠ pending → (s = fulfilled → callable_then v = false ∧ then_throws v = false) →
  let w2 := ticks 2 (settle p s v w) in
  microtasks w2 = [Job u (finally_handler (AllSettledOnFinally a c len (ResolveOf R)) f)] ∧
  arrays w2 = alter (array_store index (descriptor s v)) a (arrays w) ∧
  counters w2 = counters w ∧ calls w2 = calls w ∧
  heap w2 !! u = Some (mkInstance fulfilled VUndefined []) ∧
  length (heap w2) = length (heap w) ∧
  (∀ x, x ≠ p → x ≠ t → x ≠ u → heap w2 !! x = heap w !! x).
Proof.
  intros (Hp & Ht & Hu & Hf) Hpt Hpu Htu Hm Hs Hplain w2. unfold w2.
  set (hp := mkHandler (AllSettledOnFulfilled a index) _ _ _) in *.
  set (ht := mkHandler NotCallable _ _ _) in *.
  set (hu := finally_handler _ f) in *.
  destruct s; [done| |].
  - destruct (Hplain eq_refl) as [Hv1 Hv2].
    cbn [settle exec call snd arg0].
    rewrite (resolve_fn_plain p v w _ Hp eq_refl Hv1 Hv2). cbn [handlers ticks].
    rewrite tick_settled_world by done.
    set (w0 := pop_all _).
    assert (heap w0 !! p = Some (mkInstance fulfilled v [])) as Hp0
      by (by apply (lookup_settled_world_eq p fulfilled v [hp] w _ Hp)).
    rewrite run_job_fulfilled' by (by rewrite (state_of_Some _ _ _ Hp0)).
    rewrite (value_of_Some _ _ _ Hp0). cbn [onfulfilled resolve reject hp value].
    cbn [is_function negb call snd arg0].
    set (w1 := set_arrays _ w0).
    assert (heap w1 !! t = Some (mkInstance pending VUndefined [ht])) as Ht1.
    { unfold w1, w0. simpl. by rewrite list_lookup_insert_ne. }
    rewrite (resolve_fn_plain t VUndefined w1 _ Ht1 eq_refl) by done. cbn [handlers].
    rewrite tick_settled_world by done.
    set (w3 := pop_all _).
    assert (heap w3 !! t = Some (mkInstance fulfilled VUndefined [])) as Ht3
      by (by apply (lookup_settled_world_eq t fulfilled VUndefined [ht] w1 _ Ht1)).
    assert (heap w3 !! u = Some (mkInstance pending VUndefined [hu])) as Hu3.
    { unfold w3. rewrite heap_pop_all, lookup_settled_world_ne by done.
      unfold w1, w0. simpl. by rewrite list_lookup_insert_ne. }
    rewrite run_job_fulfilled' by (by rewrite (state_of_Some _ _ _ Ht3)).
    rewrite (value_of_Some _ _ _ Ht3). cbn [onfulfilled resolve reject ht value].
    cbn [is_function negb call snd arg0].
    rewrite (resolve_fn_plain u VUndefined w3 _ Hu3 eq_refl) by done. cbn [handlers].
    split; [done|]. split; [done|]. split; [done|]. split; [done|].
    split; [by apply (lookup_settled_world_eq u fulfilled VUndefined [hu] w3 _ Hu3)|].
    split; [simpl; by rewrite !length_insert|].
    intros x Hxp Hxt Hxu. simpl. by rewrite !list_lookup_insert_ne.
  - cbn [settle exec call snd arg0].
    rewrite (reject_fn_pending p v w _ Hp eq_refl). cbn [handlers ticks].
    rewrite tick_settled_world by done.
    set (w0 := pop_all _).
    assert (heap w0 !! p = Some (mkInstance rejected v [])) as Hp0
      by (by apply (lookup_settled_world_eq p rejected v [hp] w _ Hp)).
    rewrite run_job_rejected by (by rewrite (state_of_Some _ _ _ Hp0)).
    rewrite (value_of_Some _ _ _ Hp0). cbn [onrejected resolve reject hp value].
    cbn [is_function negb call snd arg0].
    assert (heap w0 !! t = Some (mkInstance pending VUndefined [ht])) as Ht0.
    { unfold w0. simpl. by rewrite list_lookup_insert_ne. }
    rewrite (reject_fn_pending t v w0 _ Ht0 eq_refl). cbn [handlers].
    rewrite tick_settled_world by done.
    set (w3 := pop_all _).
    assert (heap w3 !! t = Some (mkInstance rejected v [])) as Ht3
      by (by apply (lookup_settled_world_eq t rejected v [ht] w0 _ Ht0)).
    rewrite run_job_rejected by (by rewrite (state_of_Some _ _ _ Ht3)).
    rewrite (value_of_Some _ _ _ Ht3). cbn [onrejected resolve reject ht value].
    cbn [is_function negb call snd arg0].
    set (w4 := set_arrays _ w3).
    assert (heap w4 !! u = Some (mkInstance pending VUndefined [hu])) as Hu4.
    { unfold w4, w3. simpl. rewrite list_lookup_insert_ne by done.
      by rewrite list_lookup_insert_ne. }
    rewrite (resolve_fn_plain u VUndefined w4 _ Hu4 eq_refl) by done. cbn [handlers].
    split; [done|]. split; [done|]. split; [done|]. split; [done|].
    split; [by apply (lookup_settled_world_eq u fulfilled VUndefined [hu] w4 _ Hu4)|].
    split; [simpl; by rewrite !length_insert|].
    intros x Hxp Hxt Hxu. simpl. by rewrite !list_lookup_insert_ne.
Qed.

(** What the two microtasks after a pass-through closure of [finally] has
    run leave untouched: [q] wraps what [onfinally] returned and is settled,
    [d] is the instance that [finally] returned. *)
Lemma finally_tail_frame w2 q d k sq vq c :
  heap w2 !! q = Some (mkInstance sq vq []) → sq ≠ pending →
  heap w2 !! d = Some fresh_instance → microtasks w2 = [] →
  is_function k = true → (∀ args w', call k args w' = (c, w')) →
  (sq = fulfilled → ∀ v, c = Normal v → callable_then v = false ∧ then_throws v = false) →
  let w4 := (let '(t, w3) := then_ q k NotCallable w2 in resolve_fn d (VPromise t) w3) in
  microtasks (ticks 2 w4) = [] ∧ arrays (ticks 2 w4) = arrays w2 ∧
  counters (ticks 2 w4) = counters w2 ∧ calls (ticks 2 w4) = calls w2 ∧
  (∀ x i, x ≠ d → heap w2 !! x = Some i → heap (ticks 2 w4) !! x = Some i).
Proof.
  intros Hq Hsq Hd Hm Hk Hc Hplain w4.
  assert (q ≠ d) as Hqd by (intros ->; rewrite Hd in Hq; by injection Hq as <-).
  assert (d < length (heap w2)) as Hdlt by (by eapply lookup_lt_Some).
  assert (q < length (heap w2)) as Hqlt by (by eapply lookup_lt_Some).
  unfold w4. rewrite (then_idle q k NotCallable w2 _ Hq Hsq eq_refl).
  set (t := length (heap w2)). set (w3 := queueMicrotask _ _).
  assert (heap w3 !! t = Some fresh_instance) as Ht3 by apply lookup_alloc_new.
  assert (heap w3 !! d = Some fresh_instance) as Hd3 by (by apply lookup_alloc_old).
  rewrite (follow_pending w3 t d Ht3 Hd3) by lia.
  set (u := length (heap w3)). set (w5 := set_heap _ w3).
  set (ht := mkHandler (ResolveOf d) (RejectOf d) (ResolveOf u) (RejectOf u)) in *.
  assert (length (heap w3) = S t) as Hl3.
  { unfold w3. simpl. rewrite length_app. simpl. unfold t. lia. }
  assert (∀ x i, heap w2 !! x = Some i → heap w5 !! x = Some i) as Hold.
  { intros x i Hx. unfold w5. simpl.
    eapply (lookup_updated_ne (heap w2 ++ [fresh_instance])).
    - by apply lookup_alloc_old.
    - apply lookup_lt_Some in Hx. unfold t. lia. }
  assert (heap w5 !! t = Some (mkInstance pending VUndefined [ht])) as Ht5.
  { unfold w5. simpl. by eapply (lookup_updated_eq (heap w2 ++ [fresh_instance])). }
  assert (heap w5 !! u = Some fresh_instance) as Hu5.
  { unfold w5. simpl. apply (lookup_updated_new (heap w2 ++ [fresh_instance])). }
  assert (microtasks w5 = [Job q (mkHandler k NotCallable (ResolveOf t) (RejectOf t))])
    as Hm5 by (unfold w5, w3; simpl; by rewrite Hm).
  cbn [ticks].
  rewrite (chain_first_link w5 q t k ht sq vq c (Hold _ _ Hq) Hsq Ht5 Hk Hc Hplain Hm5).
  set (s := match sq, c with fulfilled, Normal _ => fulfilled | _, _ => rejected end).
  set (v := match sq, c with
            | fulfilled, Normal v => v | fulfilled, Throw e => e | _, _ => vq
            end).
  assert (s ≠ pending) as Hs by (subst s; destruct sq, c; done).
  assert (s = fulfilled → callable_then v = false ∧ then_throws v = false) as Hv.
  { subst s v. destruct sq, c; try done. intros _. by apply Hplain. }
  set (w6 := set_microtasks _ w5).
  rewrite tick_settled_world by done.
  set (w7 := pop_all _).
  assert (heap w7 !! t = Some (mkInstance s v [])) as Ht7
    by (by apply (lookup_settled_world_eq t s v [ht] w6 _ Ht5)).
  assert (∀ x i, x ≠ t → heap w5 !! x = Some i → heap w7 !! x = Some i) as Hold7.
  { intros x i Hx Hi. unfold w7. rewrite heap_pop_all, lookup_settled_world_ne; done. }
  unfold ht.
  rewrite (forward_job w7 t d u s v fresh_instance); try done.
  - split; [done|]. split; [done|]. split; [done|]. split; [done|].
    intros x i Hxd Hx. pose proof (lookup_lt_Some _ _ _ Hx).
    rewrite !lookup_settled_world_ne by (done || unfold u; lia).
    apply Hold7; [unfold t; lia|]. by apply Hold.
  - by rewrite (state_of_Some _ _ _ Ht7).
  - by rewrite (value_of_Some _ _ _ Ht7).
  - apply Hold7; [unfold t; lia|]. by apply Hold.
  - apply Hold7; [unfold u; lia|done].
  - unfold u. lia.
Qed.

Lemma call_AllSettledOnFinally a c len R w k :
  counters w !! c = Some k → heap w !! R = Some fresh_instance →
  call (AllSettledOnFinally a c len (ResolveOf R)) [] w =
  (Normal VUndefined,
   let wc := set_counters (alter S c) w in
   if decide (S k = len) then settled_world R fulfilled (VArray a) [] wc else wc).
Proof.
  intros Hc HR. cbn [call].
  assert (default 0 (counters (set_counters (alter S c) w) !! c) = S k) as ->.
  { simpl. rewrite list_lookup_alter, decide_True by done. by rewrite Hc. }
  cbn zeta. case_decide; [|done]. cbn [call snd arg0].
  by rewrite (resolve_fn_plain R (VArray a) _ fresh_instance).
Qed.

(** The last three microtasks after an element of [allSettled] is settled:
    the callback of [finally] counts the element and, when it is the last
    one, resolves the result. *)
Lemma allSettled_tail a c len R u f k w :
  microtasks w = [Job u (finally_handler (AllSettledOnFinally a c len (ResolveOf R)) f)] →
  heap w !! u = Some (mkInstance fulfilled VUndefined []) →
  heap w !! f = Some fresh_instance → heap w !! R = Some fresh_instance →
  R ≠ f → counters w !! c = Some k →
  let w' := ticks 3 w in
  microtasks w' = [] ∧ arrays w' = arrays w ∧
  counters w' = alter S c (counters w) ∧ calls w' = calls w ∧
  heap w' !! R = Some (if decide (S k = len)
                       then mkInstance fulfilled (VArray a) [] else fresh_instance) ∧
  (∀ x i, x ≠ R → x ≠ f → heap w !! x = Some i → heap w' !! x = Some i).
Proof.
  intros Hm Hu Hf HR HRf Hc w'. unfold w'.
  change (ticks 3 w) with (ticks 2 (tick w)).
  rewrite (tick_cons _ _ _ Hm). fold (pop_all w). set (w0 := pop_all w).
  assert (heap w0 !! u = Some (mkInstance fulfilled VUndefined [])) as Hu0 by done.
  rewrite run_job_fulfilled' by (by rewrite (state_of_Some _ _ _ Hu0)).
  rewrite (value_of_Some _ _ _ Hu0).
  cbn [finally_handler onfulfilled resolve reject value is_function negb].
  assert (call (PassThroughFulfilled (AllSettledOnFinally a c len (ResolveOf R)))
            [VUndefined] w0 =
          match call (AllSettledOnFinally a c len (ResolveOf R)) [] w0 with
          | (Throw error, w1) => (Throw error, w1)
          | (Normal r, w1) =>
              let '(q, w2) := static_resolve r w1 in
              let '(t, w3) := then_ q (ReturnValue VUndefined) NotCallable w2 in
              (Normal (VPromise t), w3)
          end) as -> by done.
  rewrite (call_AllSettledOnFinally a c len R w0 k) by done.
  cbv zeta. set (wc := set_counters _ w0).
  set (wn := if decide (S k = len)
             then settled_world R fulfilled (VArray a) [] wc else wc).
  rewrite (static_resolve_plain VUndefined wn eq_refl eq_refl).
  set (x := length (heap wn)). set (wx := set_heap _ wn).
  assert (∀ y i, y ≠ R → heap w !! y = Some i → heap wn !! y = Some i) as Hn.
  { intros y i Hy Hi. unfold wn. case_decide; [|done].
    by rewrite lookup_settled_world_ne. }
  assert (heap wn !! R = Some (if decide (S k = len)
            then mkInstance fulfilled (VArray a) [] else fresh_instance)) as HRn.
  { unfold wn. case_decide; [|done].
    by apply (lookup_settled_world_eq R fulfilled (VArray a) [] wc fresh_instance). }
  assert (microtasks wn = [] ∧ arrays wn = arrays w ∧
          counters wn = alter S c (counters w) ∧ calls wn = calls w)
    as (Hmn & Han & Hcn & Hln).
  { unfold wn. by case_decide. }
  assert (∀ y i, heap wn !! y = Some i → heap wx !! y = Some i) as Hx.
  { intros y i Hy. unfold wx. simpl. rewrite lookup_alloc_lt; [done|].
    by eapply lookup_lt_Some. }
  assert (heap wx !! x = Some (mkInstance fulfilled VUndefined [])) as Hxx
    by exact (lookup_alloc_new (heap wn) _).
  destruct (finally_tail_frame wx x f (ReturnValue VUndefined) fulfilled VUndefined
              (Normal VUndefined) Hxx) as (H1 & H2 & H3 & H4 & H5); try done.
  { apply Hx, Hn; done. }
  { by intros _ ? [= <-]. }
  destruct (then_ x (ReturnValue VUndefined) NotCallable wx) as [t w3] eqn:Ethen.
  cbn [call snd arg0]. cbv zeta in H1, H2, H3, H4, H5.
  split; [done|]. split; [by rewrite H2|]. split; [by rewrite H3|].
  split; [by rewrite H4|]. split.
  - apply H5; [done|]. by apply Hx.
  - intros y i HyR Hyf Hy. apply H5; [done|]. by apply Hx, Hn.
Qed.

Section allSettled_elements.
Variables (ps : list nat) (R a c : nat).
Hypothesis ps_distinct : NoDup ps.
Hypothesis ps_older : ∀ p, p ∈ ps → p < R.

Lemma allSettled_step seen w j p s v :
  allSettled_inv ps R a c seen w →
  NoDup seen.*1 → (∀ i, i ∈ seen.*1 → i < length ps) →
  ps !! j = Some p → j ∉ seen.*1 →
  s ≠ pending → (s = fulfilled → callable_then v = false ∧ then_throws v = false) →
  allSettled_inv ps R a c ((j, descriptor s v) :: seen) (ticks 5 (settle p s v w)).
Proof.
  intros [Hq Hcnt (arr & Harr & Hlen & Hmem) Hres Hwait] Hnd Hidx Hj Hnew Hs Hplain.
  assert (j < length ps) as Hjn by (by eapply lookup_lt_Some).
  assert (length seen < length ps) as Hfew.
  { rewrite <- (length_fmap fst). by eapply missing_index. }
  rewrite decide_False in Hres by lia.
  pose proof (element_older ps R ps_older j p Hj) as HpR.
  pose proof (Hwait j p Hj Hnew) as Hchain.
  set (t := R + 1 + 3 * j) in *.
  destruct (allSettled_hops a c (length ps) R j p t (t + 1) (t + 2) s v w Hchain)
    as (Hm2 & Ha2 & Hc2 & _ & Hu2 & _ & Hframe2); try done; try (unfold t; lia).
  destruct Hchain as (Hp & Ht & Hu & Hf).
  change 5 with (2 + 3). rewrite ticks_add.
  set (w2 := ticks 2 (settle p s v w)) in *.
  destruct (allSettled_tail a c (length ps) R (t + 1) (t + 2) (length seen) w2 Hm2 Hu2)
    as (Hm5 & Ha5 & Hc5 & _ & HR5 & Hframe5).
  { rewrite Hframe2 by (unfold t; lia). done. }
  { rewrite Hframe2 by (unfold t; lia). done. }
  { unfold t. lia. }
  { by rewrite Hc2. }
  set (w5 := ticks 3 w2) in *.
  split.
  - done.
  - rewrite Hc5, Hc2, list_lookup_alter, decide_True by done. by rewrite Hcnt.
  - exists (array_store j (descriptor s v) arr).
    rewrite Ha5, Ha2, list_lookup_alter, decide_True by done. rewrite Harr.
    split; [done|]. split; [rewrite array_store_length; lia|].
    intros i d Hin. apply elem_of_cons in Hin as [[= -> ->]|Hin].
    + apply array_store_eq.
    + apply array_store_ne; [by apply Hmem|].
      intros ->. apply Hnew. apply list_elem_of_fmap. by exists (j, d).
  - done.
  - intros i q Hi Hnot. cbn [fmap list_fmap fst] in Hnot.
    apply not_elem_of_cons in Hnot as [Hij Hnot].
    destruct (Hwait i q Hi Hnot) as (Hq1 & Hq2 & Hq3 & Hq4).
    pose proof (element_older ps R ps_older i q Hi).
    pose proof (element_distinct ps ps_distinct i j q p Hi Hj Hij).
    repeat split; (apply Hframe5; [unfold t; lia..|]);
      (rewrite Hframe2; [done|unfold t; lia..]).
Qed.

Lemma allSettled_settle_elements es : ∀ seen w,
  allSettled_inv ps R a c seen w →
  NoDup (es.*1 ++ seen.*1) → (∀ i, i ∈ es.*1 ++ seen.*1 → i < length ps) →
  (∀ i s v, (i, (s, v)) ∈ es →
     s ≠ pending ∧ (s = fulfilled → callable_then v = false ∧ then_throws v = false)) →
  allSettled_inv ps R a c
    (reverse ((λ e : nat * (PromiseState * jsvalue),
                 (e.1, descriptor e.2.1 e.2.2)) <$> es) ++ seen)
    (settle_elements ps es w).
Proof.
  induction es as [|[j [s v]] es IH]; intros seen w Hinv Hnd Hidx Hplain; [done|].
  simpl in Hnd, Hidx. apply NoDup_cons in Hnd as [Hj Hnd].
  assert (j < length ps) as Hjn by (apply Hidx; by left).
  destruct (lookup_lt_is_Some_2 ps j Hjn) as [p Hp].
  change (settle_elements ps ((j, (s, v)) :: es) w)
    with (settle_elements ps es (ticks 5 (settle (ps !!! j) s v w))).
  rewrite (list_lookup_total_correct ps j p Hp).
  rewrite fmap_cons, reverse_cons, <- app_assoc. simpl.
  destruct (Hplain j s v) as [Hs Hv]; [by left|].
  apply IH.
  - apply allSettled_step; try done.
    + eapply NoDup_app; by apply Hnd.
    + intros i Hi. apply Hidx. right. apply elem_of_app. by right.
    + intros Hin. apply Hj. apply elem_of_app. by right.
  - simpl. apply NoDup_app in Hnd as (H1 & H2 & H3).
    apply NoDup_app. split; [done|]. split.
    + intros x Hx Hin. apply elem_of_cons in Hin as [->|Hin].
      * apply Hj. apply elem_of_app. by left.
      * by apply (H2 x).
    + constructor; [|done]. intros Hin. apply Hj. apply elem_of_app. by right.
  - intros i Hi. apply Hidx. simpl in Hi.
    apply elem_of_app in Hi as [Hi|Hi].
    + right. apply elem_of_app. by left.
    + apply elem_of_cons in Hi as [->|Hi]; [by left|].
      right. apply elem_of_app. by right.
  - intros i s' v' Hin. apply (Hplain i s' v'). by right.
Qed.

End allSettled_elements.

Lemma allSettled_round_fresh a c len R p index w :
  heap w !! p = Some fresh_instance →
  let t := length (heap w) in
  let w' := allSettled_round a c len R (VPromise p) index w in
  awaits_settlement a c len R index p t (t + 1) (t + 2) w' ∧
  length (heap w') = t + 3 ∧
  (∀ x, x ≠ p → x < t → heap w' !! x = heap w !! x) ∧
  same_stores w w'.
Proof.
  intros Hp t w'. unfold w', allSettled_round. cbn [static_resolve].
  assert (p < t) as Hpt by (by eapply lookup_lt_Some).
  rewrite (then_pending p _ _ w _ Hp eq_refl). cbn [value handlers fresh_instance app].
  fold t. set (hp := mkHandler (AllSettledOnFulfilled a index) _ _ _).
  set (w4 := set_heap _ w).
  assert (heap w4 !! t = Some fresh_instance) as Ht4 by apply lookup_updated_new.
  assert (length (heap w4) = S t) as Hl4.
  { unfold w4. simpl. rewrite length_app, length_insert. simpl. unfold t. lia. }
  assert (heap w4 !! p = Some (mkInstance pending VUndefined [hp])) as Hp4
    by (by eapply (lookup_updated_eq (heap w))).
  unfold catch.
  pose proof (then_pending t NotCallable (AllSettledOnRejected a index) w4 _ Ht4 eq_refl)
    as E.
  rewrite Hl4 in E. rewrite E. clear E.
  cbn [value handlers fresh_instance app].
  set (ht := mkHandler NotCallable _ _ _). set (w5 := set_heap _ w4).
  assert (heap w5 !! S t = Some fresh_instance) as Hu5.
  { unfold w5. simpl. rewrite <- Hl4. apply (lookup_updated_new (heap w4)). }
  assert (length (heap w5) = S (S t)) as Hl5.
  { unfold w5. cbn [heap set_heap]. rewrite length_app, length_insert, Hl4. simpl. lia. }
  assert (heap w5 !! p = Some (mkInstance pending VUndefined [hp])) as Hp5.
  { unfold w5. simpl. apply (lookup_updated_ne (heap w4)); [done|lia]. }
  assert (heap w5 !! t = Some (mkInstance pending VUndefined [ht])) as Ht5.
  { unfold w5. simpl. by eapply (lookup_updated_eq (heap w4)). }
  unfold finally.
  pose proof (then_pending (S t)
                (PassThroughFulfilled (AllSettledOnFinally a c len (ResolveOf R)))
                (PassThroughRejected (AllSettledOnFinally a c len (ResolveOf R)))
                w5 _ Hu5 eq_refl) as E.
  rewrite Hl5 in E. rewrite E. clear E.
  cbn [snd value handlers fresh_instance app].
  set (hu := mkHandler (PassThroughFulfilled _) _ _ _). set (w6 := set_heap _ w5).
  replace (t + 1) with (S t) by lia. replace (t + 2) with (S (S t)) by lia.
  split; [|split; [|split]].
  - repeat split.
    + unfold w6. simpl. apply (lookup_updated_ne (heap w5)); [done|lia].
    + unfold w6. simpl. apply (lookup_updated_ne (heap w5)); [done|lia].
    + unfold w6. simpl. by eapply (lookup_updated_eq (heap w5)).
    + unfold w6. simpl. rewrite <- Hl5. apply (lookup_updated_new (heap w5)).
  - unfold w6. cbn [heap set_heap]. rewrite length_app, length_insert, Hl5. simpl. lia.
  - intros x Hxp Hxt. unfold w6. cbn [heap set_heap].
    rewrite lookup_app_l by (rewrite length_insert, Hl5; lia).
    rewrite list_lookup_insert_ne by lia.
    unfold w5. cbn [heap set_heap].
    rewrite lookup_app_l by (rewrite length_insert, Hl4; lia).
    rewrite list_lookup_insert_ne by lia.
    unfold w4. cbn [heap set_heap].
    rewrite lookup_app_l by (rewrite length_insert; fold t; lia).
    by rewrite list_lookup_insert_ne.
  - done.
Qed.

Lemma allSettled_rounds a c len R : ∀ ps index w,
  NoDup ps → (∀ p, p ∈ ps → heap w !! p = Some fresh_instance) →
  let base := length (heap w) in
  let w' := forEach_from index (allSettled_round a c len R) (VPromise <$> ps) w in
  (∀ k p, ps !! k = Some p →
     awaits_settlement a c len R (index + k) p
       (base + 3 * k) (base + 3 * k + 1) (base + 3 * k + 2) w') ∧
  length (heap w') = base + 3 * length ps ∧
  (∀ x, x ∉ ps → x < base → heap w' !! x = heap w !! x) ∧
  same_stores w w'.
Proof.
  induction ps as [|p ps IH]; intros index w Hnd Hps base w'.
  - unfold w'. simpl. repeat split; (done || lia).
  - apply NoDup_cons in Hnd as [Hp Hnd].
    destruct (allSettled_round_fresh a c len R p index w)
      as ((Hwp & Hwt & Hwu & Hwf) & Hlen & Hframe & Hst).
    { apply Hps. by left. }
    set (w1 := allSettled_round a c len R (VPromise p) index w) in *.
    assert (∀ p', p' ∈ ps → heap w1 !! p' = Some fresh_instance) as Hps1.
    { intros p' Hp'. rewrite Hframe.
      - apply Hps. by right.
      - intros ->. done.
      - eapply lookup_lt_Some. apply Hps. by right. }
    destruct (IH (S index) w1 Hnd Hps1) as (Hw & Hl & Hf & Hs).
    change (forEach_from (S index) (allSettled_round a c len R) (VPromise <$> ps) w1)
      with w' in *.
    fold base in Hlen, Hwp, Hwt, Hwu, Hwf.
    assert (p < base) as Hpb by (eapply lookup_lt_Some; apply Hps; by left).
    assert (∀ x, x ∈ ps → x < base) as Hpsb.
    { intros x Hx. eapply lookup_lt_Some. apply Hps. by right. }
    split; [|split; [|split]].
    + intros [|k] p' Hk; simpl in Hk.
      * injection Hk as <-. rewrite Nat.add_0_r, Nat.mul_0_r, Nat.add_0_r.
        repeat split.
        -- rewrite Hf; [done|done|lia].
        -- rewrite Hf; [done| |lia]. intros Hin. apply Hpsb in Hin. lia.
        -- rewrite Hf; [done| |lia]. intros Hin. apply Hpsb in Hin. lia.
        -- rewrite Hf; [done| |lia]. intros Hin. apply Hpsb in Hin. lia.
      * specialize (Hw k p' Hk). rewrite Hlen in Hw.
        replace (index + S k) with (S index + k) by lia.
        replace (base + 3 * S k) with (base + 3 + 3 * k) by lia. done.
    + rewrite Hl, Hlen. simpl. lia.
    + intros x Hx Hxb. rewrite Hf.
      * apply Hframe; [|done]. intros ->. apply Hx. by left.
      * intros Hin. apply Hx. by right.
      * lia.
    + destruct Hst as (? & ? & ? & ? & ?), Hs as (? & ? & ? & ? & ?).
      repeat split; congruence.
Qed.

Lemma allSettled_subscribes ps w :
  ps ≠ [] →
  allSettled (VPromise <$> ps) w =
  (length (heap w),
   forEach_from 0
     (allSettled_round (length (arrays w)) (length (counters w)) (length ps)
        (length (heap w)))
     (VPromise <$> ps)
     (set_heap (λ h, h ++ [fresh_instance])
        (set_counters (λ s, s ++ [0]) (set_arrays (λ s, s ++ [[]]) w)))).
Proof.
  intros Hne. unfold allSettled, new_array, new_counter, construct, forEach.
  cbn beta iota zeta. cbn [fst snd heap set_heap set_counters set_arrays arrays counters].
  rewrite decide_False by (rewrite length_fmap; by destruct ps).
  by rewrite length_fmap.
Qed.

Lemma allSettled_establishes ps w :
  ps ≠ [] → NoDup ps → microtasks w = [] →
  (∀ p, p ∈ ps → heap w !! p = Some fresh_instance) →
  (allSettled (VPromise <$> ps) w).1 = length (heap w) ∧
  allSettled_inv ps (length (heap w)) (length (arrays w)) (length (counters w)) []
    (allSettled (VPromise <$> ps) w).2.
Proof.
  intros Hne Hnd Hm Hps. rewrite (allSettled_subscribes ps w Hne). cbn [fst snd].
  split; [done|].
  set (R := length (heap w)). set (w1 := set_heap _ _).
  assert (∀ p, p ∈ ps → p < R) as Hold
    by (intros p Hp; eapply lookup_lt_Some; by apply Hps).
  destruct (allSettled_rounds (length (arrays w)) (length (counters w)) (length ps) R
              ps 0 w1 Hnd) as (Hw & Hl & Hf & Hs).
  { intros p Hp. unfold w1. simpl. apply lookup_alloc_old. by apply Hps. }
  assert (length (heap w1) = R + 1) as Hl1
    by (unfold w1; simpl; rewrite length_app; simpl; done).
  rewrite Hl1 in Hw, Hl, Hf.
  destruct Hs as (Ha & Hc & _ & Hq & _).
  split.
  - by rewrite Hq.
  - rewrite Hc. unfold w1. simpl. rewrite lookup_app_r by done.
    by rewrite Nat.sub_diag.
  - exists []. rewrite Ha. unfold w1. simpl. rewrite lookup_app_r by done.
    rewrite Nat.sub_diag. split; [done|]. split; [simpl; lia|].
    intros i v Hin. by apply elem_of_nil in Hin.
  - rewrite decide_False by (simpl; by destruct ps).
    rewrite Hf; [apply lookup_alloc_new| |lia].
    intros Hin. apply Hold in Hin. lia.
  - intros i p Hi _. apply (Hw i p Hi).
Qed.

Lemma allSettled_empty w :
  let R := (allSettled [] w).1 in
  let w0 := (allSettled [] w).2 in
  state_of R w0 = fulfilled ∧
  ∃ a, value_of R w0 = VArray a ∧ arrays w0 !! a = Some [].
Proof.
  unfold allSettled, new_array, new_counter, construct. cbn beta iota zeta.
  cbn [fst snd length decide]. rewrite decide_True by done.
  cbn [fst snd heap set_heap set_counters set_arrays arrays counters].
  set (w2 := set_arrays _ (set_heap _ _)). set (R := length (heap w)).
  assert (heap w2 !! R = Some fresh_instance) as HR by apply lookup_alloc_new.
  rewrite (resolve_fn_plain R _ w2 _ HR eq_refl) by done.
  assert (R < length (heap w2)) as Hlt by (by eapply lookup_lt_Some).
  destruct (state_of_settled_world R fulfilled (VArray (length (arrays w ++ [[]])))
              (handlers fresh_instance) w2 Hlt) as (-> & -> & _).
  split; [done|]. eexists. split; [done|]. simpl.
  rewrite lookup_app_r by done. by rewrite Nat.sub_diag.
Qed.

(** X9.  [allSettled] on pending instances of the client, with no other work
    queued.  On an empty sequence the result is fulfilled at once with an
    empty array.  Otherwise it stays pending while elements are fulfilled or
    rejected, in any order, each settlement followed by its five microtasks; a
    rejection does not reject it.  Once every element is settled it is
    fulfilled with an array that holds, at the index of each element, the
    descriptor of its outcome. *)
Theorem X_allSettled_reports_every_outcome w ps :
  microtasks w = [] → NoDup ps →
  (∀ p, p ∈ ps → heap w !! p = Some fresh_instance) →
  let R := (allSettled (VPromise <$> ps) w).1 in
  let w0 := (allSettled (VPromise <$> ps) w).2 in
  (ps = [] →
     state_of R w0 = fulfilled ∧
     ∃ a, value_of R w0 = VArray a ∧ arrays w0 !! a = Some []) ∧
  (ps ≠ [] →
     state_of R w0 = pending ∧ microtasks w0 = [] ∧
     ∀ es : list (nat * (PromiseState * jsvalue)),
       NoDup es.*1 →
       (∀ i s v, (i, (s, v)) ∈ es →
          i < length ps ∧ s ≠ pending ∧
          (s = fulfilled → callable_then v = false ∧ then_throws v = false)) →
       let w1 := settle_elements ps es w0 in
       microtasks w1 = [] ∧
       (length es < length ps → state_of R w1 = pending) ∧
       (length es = length ps →
          state_of R w1 = fulfilled ∧
          ∃ a arr, value_of R w1 = VArray a ∧ arrays w1 !! a = Some arr ∧
                   length arr = length ps ∧
                   ∀ i s v, (i, (s, v)) ∈ es →
                     arr !! i = Some (Some (descriptor s v)))).
Proof.
  intros Hm Hnd Hps R w0. split.
  { intros ->. apply allSettled_empty. }
  intros Hne.
  destruct (allSettled_establishes ps w Hne Hnd Hm Hps) as [HR Hinv].
  fold R in HR. fold w0 in Hinv. rewrite <- HR in Hinv.
  set (a := length (arrays w)) in *. set (c := length (counters w)) in *.
  assert (∀ p, p ∈ ps → p < R) as Hold.
  { intros p Hp. rewrite HR. eapply lookup_lt_Some. by apply Hps. }
  assert (0 < length ps) as Hpos by (destruct ps; [done|simpl; lia]).
  split.
  { pose proof (allSettled_result _ _ _ _ _ _ Hinv) as H.
    rewrite decide_False in H by (simpl; lia). by rewrite (state_of_Some _ _ _ H). }
  split; [apply (allSettled_queue _ _ _ _ _ _ Hinv)|].
  intros es Hes Hbound w1.
  set (ds := (λ e : nat * (PromiseState * jsvalue), (e.1, descriptor e.2.1 e.2.2)) <$> es).
  assert (ds.*1 = es.*1) as Hfst.
  { unfold ds. rewrite <- list_fmap_compose. by apply list_fmap_ext. }
  assert (allSettled_inv ps R a c (reverse ds ++ []) w1) as Hinv1.
  { apply allSettled_settle_elements; try done.
    - by rewrite app_nil_r.
    - intros i Hi. rewrite app_nil_r in Hi.
      apply list_elem_of_fmap in Hi as [[i' [s v]] [-> Hin]]. by apply (Hbound i' s v).
    - intros i s v Hin. by apply (Hbound i s v). }
  rewrite app_nil_r in Hinv1.
  assert (length (reverse ds) = length es) as Hlen
    by (unfold ds; by rewrite length_reverse, length_fmap).
  assert (∀ i, i ∈ (reverse ds).*1 ↔ i ∈ es.*1) as Hsame.
  { intros i. rewrite fmap_reverse, Hfst. apply elem_of_reverse. }
  pose proof (allSettled_result _ _ _ _ _ _ Hinv1) as Hres. rewrite Hlen in Hres.
  split; [apply (allSettled_queue _ _ _ _ _ _ Hinv1)|]. split.
  - intros Hfew. rewrite decide_False in Hres by lia.
    by rewrite (state_of_Some _ _ _ Hres).
  - intros Hall. rewrite decide_True in Hres by done.
    split; [by rewrite (state_of_Some _ _ _ Hres)|].
    destruct (allSettled_array _ _ _ _ _ _ Hinv1) as (arr & Harr & Hlarr & Hmem).
    exists a, arr. split; [by rewrite (value_of_Some _ _ _ Hres)|].
    split; [done|].
    assert (∀ i s v, (i, (s, v)) ∈ es → arr !! i = Some (Some (descriptor s v))) as Hmem'.
    { intros i s v Hin. apply Hmem. apply elem_of_reverse. unfold ds.
      apply list_elem_of_fmap. by exists (i, (s, v)). }
    split; [|done].
    assert (length ps - 1 ∈ es.*1) as Hlast.
    { destruct (decide (length ps - 1 ∈ es.*1)) as [|Hnot]; [done|].
      exfalso. assert (length es.*1 < length ps) as Hshort.
      { eapply (missing_index _ (length ps) (length ps - 1)); [done| |lia|done].
        intros i Hi.
        apply list_elem_of_fmap in Hi as [[i' [s v]] [-> Hin]]. by apply (Hbound i' s v). }
      rewrite length_fmap in Hshort. lia. }
    apply list_elem_of_fmap in Hlast as [[i [s v]] [Hi Hin]]. cbn [fst] in Hi.
    apply Hmem' in Hin. apply lookup_lt_Some in Hin. lia.
Qed.

Lemma X_allSettled_reports_every_outcome_witness :
  let w := (new_promise Done (new_promise Done empty_world).2).2 in
  let ps := [0; 1] in
  let R := (allSettled (VPromise <$> ps) w).1 in
  let w0 := (allSettled (VPromise <$> ps) w).2 in
  let es := [(1, (rejected, VStr "no")); (0, (fulfilled, VNum 1))] in
  let w1 := settle_elements ps es w0 in
  (microtasks w = [] ∧ NoDup ps) ∧
  state_of R w0 = pending ∧ state_of R w1 = fulfilled ∧
  ∃ a arr, value_of R w1 = VArray a ∧ arrays w1 !! a = Some arr ∧ length arr = 2 ∧
           arr !! 0 = Some (Some (VFulfilledDescriptor (VNum 1))) ∧
           arr !! 1 = Some (Some (VRejectedDescriptor (VStr "no"))).
Proof.
  intros w ps R w0 es w1.
  assert (NoDup ps) as Hnd.
  { unfold ps. apply NoDup_cons. split; [|apply NoDup_singleton].
    rewrite list_elem_of_singleton. lia. }
  destruct (X_allSettled_reports_every_outcome w ps eq_refl Hnd) as [_ H].
  { intros p Hp. unfold ps in Hp.
    apply elem_of_cons in Hp as [->|Hp]; [reflexivity|].
    apply list_elem_of_singleton in Hp as ->. reflexivity. }
  destruct (H ltac:(discriminate)) as (H0 & _ & H1).
  destruct (H1 es) as (_ & _ & H2).
  { unfold es. simpl. apply NoDup_cons. split; [|apply NoDup_singleton].
    rewrite list_elem_of_singleton. lia. }
  { intros i s v Hin. unfold es in Hin.
    apply elem_of_cons in Hin as [[= -> -> ->]|Hin].
    - split; [simpl; lia|]. split; discriminate.
    - apply list_elem_of_singleton in Hin as [= -> -> ->].
      split; [simpl; lia|]. split; [discriminate|]. intros _. split; reflexivity. }
  destruct (H2 eq_refl) as (Hs & a & arr & Hv & Ha & Hl & Hmem).
  split; [split; [reflexivity|exact Hnd]|]. split; [exact H0|]. split; [exact Hs|].
  exists a, arr. split; [exact Hv|]. split; [exact Ha|]. split; [exact Hl|]. split.
  - apply (Hmem 0 fulfilled (VNum 1)). unfold es. apply list_elem_of_further, list_elem_of_here.
  - apply (Hmem 1 rejected (VStr "no")). unfold es. apply list_elem_of_here.
Defined.

(** ** Settled instances hold no handler *)

Lemma tidy_heap_eq w w' : heap w' = heap w → tidy w → tidy w'.
Proof. intros E H p i. rewrite E. apply H. Qed.

Lemma tidy_alloc w :
  tidy w → tidy (set_heap (λ h, h ++ [mkInstance pending VUndefined []]) w).
Proof.
  intros H p i Hp. simpl in Hp. apply lookup_app_Some in Hp as [Hp|[_ Hp]].
  - by apply (H p).
  - apply list_lookup_singleton_Some in Hp as [_ <-]. done.
Qed.

Lemma tidy_but_alter f this w : tidy w → tidy_but this (set_heap (alter f this) w).
Proof.
  intros H p i Hne Hp. simpl in Hp. rewrite list_lookup_alter_ne in Hp by done.
  by apply (H p).
Qed.

Lemma tidy_runHandlers this w : tidy_but this w → tidy (runHandlers this w).
Proof.
  intros H. unfold runHandlers.
  destruct (is_pending (state_of this w)) eqn:E.
  - apply is_pending_true in E. intros p i Hp Hs.
    destruct (decide (p = this)) as [->|Hne]; [|by apply (H p)].
    rewrite (state_of_Some _ _ _ Hp) in E. done.
  - rewrite foldl_queueMicrotask. intros p i Hp Hs. simpl in Hp.
    destruct (decide (p = this)) as [->|Hne].
    + rewrite list_lookup_alter, decide_True in Hp by done.
      destruct (heap w !! this); [|done]. by injection Hp as <-.
    + rewrite list_lookup_alter_ne in Hp by done. by apply (H p).
Qed.

Lemma tidy_reject_fn this reason w : tidy w → tidy (reject_fn this reason w).
Proof.
  intros H. unfold reject_fn. destruct (negb _); [done|].
  by apply tidy_runHandlers, tidy_but_alter.
Qed.

Lemma tidy_fulfil this v w : tidy w → tidy (fulfil this v w).
Proof. intros H. by apply tidy_runHandlers, tidy_but_alter. Qed.

Lemma tidy_construct executor w :
  (∀ d w', tidy w' → tidy (executor d w').2) → tidy w → tidy (construct executor w).2.
Proof.
  intros He H. unfold construct.
  pose proof (He (length (heap w)) _ (tidy_alloc w H)) as H1.
  destruct (executor _ _) as [[error|] w2]; simpl in *; [|done].
  by apply tidy_reject_fn.
Qed.

Lemma tidy_then this f g w : tidy w → tidy (then_ this f g w).2.
Proof.
  unfold then_. apply tidy_construct. intros d w' H. simpl.
  by apply tidy_runHandlers, tidy_but_alter.
Qed.

Lemma tidy_set_flags f w : tidy w → tidy (set_flags f w).
Proof. by apply tidy_heap_eq. Qed.

Lemma tidy_guarded_reject called this r w :
  tidy w → tidy (guarded_reject called this r w).
Proof.
  intros H. unfold guarded_reject. destruct (flag_of called w); [done|].
  by apply tidy_reject_fn, tidy_set_flags.
Qed.

Lemma tidy_resolve_fn_call_then :
  (∀ v this w, tidy w → tidy (resolve_fn this v w)) ∧
  (∀ m this w, tidy w → tidy (resolve_fn this (VObject m) w)) ∧
  (∀ body this called w, tidy w → tidy (call_then this called body w)).
Proof.
  apply jsvalue_script_ind; intros; simpl;
    try (destruct (negb (is_pending (state_of this w))) eqn:E; [assumption|]);
    try (apply tidy_fulfil; assumption);
    try (apply tidy_reject_fn; assumption); try assumption.
  - case_decide; [by apply tidy_reject_fn | by apply tidy_then].
  - specialize (H this w H0). simpl in H. by rewrite E in H.
  - apply H. by apply tidy_set_flags.
  - destruct (flag_of called w); [done|]. by apply tidy_reject_fn, tidy_set_flags.
  - apply H0. destruct (flag_of called w); [done|]. by apply H, tidy_set_flags.
  - by apply H0, tidy_guarded_reject.
Qed.

Lemma tidy_resolve_fn this v w : tidy w → tidy (resolve_fn this v w).
Proof. apply tidy_resolve_fn_call_then. Qed.

Lemma tidy_guarded_resolve called this v w :
  tidy w → tidy (guarded_resolve called this v w).
Proof.
  intros H. unfold guarded_resolve. destruct (flag_of called w); [done|].
  by apply tidy_resolve_fn, tidy_set_flags.
Qed.

Lemma tidy_run_executor executor this w :
  tidy w → tidy (run_executor executor this w).2.
Proof.
  revert w. induction executor; intros w H; simpl; try done.
  - by apply IHexecutor, tidy_resolve_fn.
  - by apply IHexecutor, tidy_reject_fn.
Qed.

Lemma tidy_static_resolve v w : tidy w → tidy (static_resolve v w).2.
Proof.
  intros H.
  assert (static_resolve v w = construct (λ d w1, (None, resolve_fn d v w1)) w ∨
          ∃ q, v = VPromise q) as [->|[q ->]] by (destruct v; eauto).
  - apply tidy_construct; [|done]. intros d w' H'. by apply tidy_resolve_fn.
  - done.
Qed.

Lemma tidy_static_reject r w : tidy w → tidy (static_reject r w).2.
Proof.
  intros H. apply tidy_construct; [|done]. intros d w' H'. by apply tidy_reject_fn.
Qed.

Lemma tidy_wrap_then r f w :
  tidy w →
  tidy (let '(q, w2) := static_resolve r w in
        let '(t, w3) := then_ q f NotCallable w2 in
        (Normal (VPromise t), w3)).2.
Proof.
  intros H. pose proof (tidy_static_resolve r w H) as H1.
  destruct (static_resolve r w) as [q w2]. simpl in H1.
  pose proof (tidy_then q f NotCallable w2 H1) as H2.
  by destruct (then_ q f NotCallable w2) as [t w3].
Qed.

Lemma tidy_call f : ∀ args w, tidy w → tidy (call f args w).2.
Proof.
  induction f; intros args w H; cbn [call];
    repeat match goal with
    | |- context [if ?b then _ else _] => destruct b
    end; cbn [fst snd]; try assumption;
    try (first [ by apply tidy_resolve_fn | by apply tidy_reject_fn
               | by apply tidy_guarded_resolve | by apply tidy_guarded_reject ]);
    try (by apply IHf).
  - specialize (IHf [] w H). destruct (call f [] w) as [[r|e] w1]; [|done].
    by apply tidy_wrap_then.
  - by apply tidy_wrap_then.
  - specialize (IHf [] w H). destruct (call f [] w) as [[r|e] w1]; [|done].
    by apply tidy_wrap_then.
Qed.

Lemma tidy_run_job j w : tidy w → tidy (run_job j w).
Proof.
  intros H. destruct j as [this h]. unfold run_job.
  set (w1 := match state_of this w with fulfilled => _ | _ => w end).
  assert (tidy w1) as H1.
  { subst w1. destruct (state_of this w); try done.
    destruct (negb _); [by apply tidy_call|].
    pose proof (tidy_call (onfulfilled h) [value_of this w] w H) as Hc.
    destruct (call (onfulfilled h) _ w) as [[r|e] w']; simpl in Hc;
      by apply tidy_call. }
  clearbody w1.
  destruct (state_of this w1); try done.
  destruct (negb _); [by apply tidy_call|].
  pose proof (tidy_call (onrejected h) [value_of this w1] w1 H1) as Hc.
  destruct (call (onrejected h) _ w1) as [[r|e] w']; simpl in Hc;
    by apply tidy_call.
Qed.

Lemma tidy_tick w : tidy w → tidy (tick w).
Proof.
  intros H. unfold tick. destruct (microtasks w) as [|j rest]; [done|].
  by apply tidy_run_job.
Qed.

Lemma tidy_forEach_from {A} (f : A → nat → world → world) (l : list A) n w :
  (∀ x k w', tidy w' → tidy (f x k w')) → tidy w → tidy (forEach_from n f l w).
Proof.
  intros Hf. revert n w. induction l as [|x l IH]; intros n w H; simpl; [done|].
  by apply IH, Hf.
Qed.

Ltac tidy_round :=
  repeat match goal with
  | H : tidy ?w |- context [static_resolve ?v ?w] =>
      let E := fresh "T" in
      pose proof (tidy_static_resolve v w H) as E;
      destruct (static_resolve v w) as [? ?]; cbn [snd] in E; clear H
  | H : tidy ?w |- context [then_ ?p ?f ?g ?w] =>
      let E := fresh "T" in
      pose proof (tidy_then p f g w H) as E;
      destruct (then_ p f g w) as [? ?]; cbn [snd] in E; clear H
  | H : tidy ?w |- context [catch ?p ?g ?w] =>
      let E := fresh "T" in
      pose proof (tidy_then p NotCallable g w H) as E;
      change (then_ p NotCallable g w) with (catch p g w) in E;
      destruct (catch p g w) as [? ?]; cbn [snd] in E; clear H
  | H : tidy ?w |- context [finally ?p ?g ?w] =>
      let E := fresh "T" in
      pose proof (tidy_then p (PassThroughFulfilled g) (PassThroughRejected g) w H) as E;
      change (then_ p (PassThroughFulfilled g) (PassThroughRejected g) w)
        with (finally p g w) in E;
      destruct (finally p g w) as [? ?]; cbn [snd] in E; clear H
  end;
  cbv beta iota zeta; cbn [fst snd]; try assumption.

Lemma tidy_all values w : tidy w → tidy (all values w).2.
Proof.
  intros H. unfold all, new_array, new_counter. cbv beta iota zeta.
  apply tidy_construct; [|done]. intros d w' H'. case_decide; cbn [fst snd].
  - by apply tidy_resolve_fn.
  - apply tidy_forEach_from; [|done]. intros v k w2 H2. tidy_round.
Qed.

Lemma tidy_allSettled values w : tidy w → tidy (allSettled values w).2.
Proof.
  intros H. unfold allSettled, new_array, new_counter. cbv beta iota zeta.
  apply tidy_construct; [|done]. intros d w' H'. case_decide; cbn [fst snd].
  - by apply tidy_resolve_fn.
  - apply tidy_forEach_from; [|done]. intros v k w2 H2. tidy_round.
Qed.

Lemma tidy_race values w : tidy w → tidy (race values w).2.
Proof.
  intros H. unfold race. apply tidy_construct; [|done]. intros d w' H'. cbn [fst snd].
  apply tidy_forEach_from; [|done]. intros v k w2 H2. tidy_round.
Qed.

Lemma tidy_any values w : tidy w → tidy (any values w).2.
Proof.
  intros H. unfold any, new_array, new_counter. cbv beta iota zeta.
  apply tidy_construct; [|done]. intros d w' H'. case_decide; cbn [fst snd].
  - by apply tidy_reject_fn.
  - apply tidy_forEach_from; [|done]. intros v k w2 H2. tidy_round.
Qed.

Lemma tidy_exec o w : tidy w → tidy (exec o w).
Proof.
  intros H. destruct o; cbn [exec].
  - apply tidy_construct; [|done]. intros d w'. apply tidy_run_executor.
  - by apply tidy_call.
  - by apply tidy_then.
  - by apply tidy_then.
  - by apply tidy_then.
  - by apply tidy_static_resolve.
  - by apply tidy_static_reject.
  - by apply tidy_all.
  - by apply tidy_allSettled.
  - by apply tidy_race.
  - by apply tidy_any.
  - by apply tidy_tick.
Qed.

(** X10.  No settled instance holds a handler: whatever the client and the
    host do, the handlers of an instance are handed to the microtask queue
    when it is settled, and a handler registered later is queued at once. *)
Theorem X_settled_instances_hold_no_handlers os w :
  tidy w → tidy (run os w) ∧
  ∀ p, state_of p (run os w) ≠ pending → handlers_of p (run os w) = [].
Proof.
  intros H. assert (tidy (run os w)) as Hrun.
  { revert w H. induction os as [|o os IH]; intros w H; simpl; [done|].
    by apply IH, tidy_exec. }
  split; [done|]. intros p. unfold state_of, handlers_of.
  destruct (heap (run os w) !! p) as [i|] eqn:E; [|done].
  by apply (Hrun p).
Qed.

Lemma X_settled_instances_hold_no_handlers_witness :
  let os := [New Done; Then 0 (UserFn 1 (λ _, Normal VUndefined)) NotCallable;
             Call (ResolveOf 0) [VNum 1]] in
  handlers_of 0 (run (take 2 os) empty_world) ≠ [] ∧
  handlers_of 0 (run os empty_world) = [].
Proof.
  intros os. split; [discriminate|].
  destruct (X_settled_instances_hold_no_handlers os empty_world) as [_ H].
  - intros p i Hp. discriminate.
  - apply H. discriminate.
Defined.

(** ** The adapter, and a chain that returns itself *)

(** X11.  The adapter of the conformance tests.  [deferred()] returns a new
    pending instance with its two closures and changes nothing else; calling
    [reject], or [resolve] with a value that is not a thenable, settles that
    instance for good.  [resolved] and [rejected] return instances that are
    settled with their argument, and [resolved] of the deferred instance is
    that instance. *)
Theorem X_adapter_deferred w :
  let d := (Adapter.deferred w).1 in
  let w1 := (Adapter.deferred w).2 in
  let p := Adapter.promise d in
  p = length (heap w) ∧ heap w1 = heap w ++ [fresh_instance] ∧
  microtasks w1 = microtasks w ∧ calls w1 = calls w ∧
  (∀ r os,
     let w2 := run (Call (Adapter.reject d) [r] :: os) w1 in
     state_of p w2 = rejected ∧ value_of p w2 = r) ∧
  (∀ v os, callable_then v = false → then_throws v = false →
     let w2 := run (Call (Adapter.resolve d) [v] :: os) w1 in
     state_of p w2 = fulfilled ∧ value_of p w2 = v) ∧
  (∀ v, (Adapter.resolved (VPromise p) w1).1 = p ∧
        (callable_then v = false → then_throws v = false →
         let q := (Adapter.resolved v w1).1 in
         let w2 := (Adapter.resolved v w1).2 in
         state_of q w2 = fulfilled ∧ value_of q w2 = v) ∧
        (let q := (Adapter.rejected v w1).1 in
         let w2 := (Adapter.rejected v w1).2 in
         state_of q w2 = rejected ∧ value_of q w2 = v)).
Proof.
  intros d w1 p.
  assert (heap w1 !! p = Some fresh_instance) as Hp by apply lookup_alloc_new.
  assert (p < length (heap w1)) as Hlt by (by eapply lookup_lt_Some).
  split; [done|]. split; [done|]. split; [done|]. split; [done|].
  split; [|split].
  - intros r os w2. unfold w2.
    change (run (Call (Adapter.reject d) [r] :: os) w1)
      with (run os (reject_fn p r w1)).
    rewrite (reject_fn_pending p r w1 _ Hp eq_refl).
    destruct (state_of_settled_world p rejected r (handlers fresh_instance) w1 Hlt)
      as (Hs & Hv & _).
    destruct (settled_is_final os
                (settled_world p rejected r (handlers fresh_instance) w1) p)
      as [-> ->]; [by rewrite Hs|done].
  - intros v os Hc Ht w2. unfold w2.
    change (run (Call (Adapter.resolve d) [v] :: os) w1)
      with (run os (resolve_fn p v w1)).
    rewrite (resolve_fn_plain p v w1 _ Hp eq_refl Hc Ht).
    destruct (state_of_settled_world p fulfilled v (handlers fresh_instance) w1 Hlt)
      as (Hs & Hv & _).
    destruct (settled_is_final os
                (settled_world p fulfilled v (handlers fresh_instance) w1) p)
      as [-> ->]; [by rewrite Hs|done].
  - intros v. split; [done|]. split.
    + intros Hc Ht. unfold Adapter.resolved.
      rewrite (static_resolve_plain v w1 Hc Ht). cbn [fst snd].
      unfold state_of, value_of. simpl. by rewrite lookup_alloc_new.
    + unfold Adapter.rejected. rewrite (static_reject_at_once v w1). cbn [fst snd].
      unfold state_of, value_of. simpl. by rewrite lookup_alloc_new.
Qed.

Lemma X_adapter_deferred_witness :
  let d := (Adapter.deferred empty_world).1 in
  let w1 := (Adapter.deferred empty_world).2 in
  let w2 := run (Call (Adapter.resolve d) [VNum 1] :: [Call (Adapter.reject d) [VNum 2]]) w1 in
  state_of (Adapter.promise d) w2 = fulfilled ∧ value_of (Adapter.promise d) w2 = VNum 1.
Proof.
  destruct (X_adapter_deferred empty_world) as (_ & _ & _ & _ & _ & H & _).
  apply (H (VNum 1) [Call (RejectOf 0) [VNum 2]]); reflexivity.
Defined.

(** X12.  A continuation that returns the very instance that [then] returned
    for it: that instance is rejected with the self-resolution TypeError in
    the microtask that runs the continuation. *)
Theorem X_chaining_cycle_detected w p i label body s v :
  heap w !! p = Some i → handlers i = [] → microtasks w = [] →
  s ≠ pending → (state i = pending ∨ (state i = s ∧ value i = v)) →
  (s = fulfilled → callable_then v = false ∧ then_throws v = false) →
  let f := UserFn label body in
  let d := (then_ p f f w).1 in
  let w2 := once_settled (state i) p s v (then_ p f f w).2 in
  body [v] = Normal (VPromise d) →
  state_of d w2 = pending ∧
  state_of d (tick w2) = rejected ∧ value_of d (tick w2) = self_resolution_error.
Proof.
  intros Hi Hh Hq Hs Hcase Hplain f d w2 Hbody.
  destruct (registered_job w p i f f s v Hi Hh Hq)
    as (Hd & _ & _ & Hp2 & Hd2 & Hq2 & Hc2 & _ & _); try done.
  fold d w2 in Hd, Hp2, Hd2, Hq2, Hc2.
  split; [by rewrite (state_of_Some _ _ _ Hd2)|].
  rewrite (tick_cons _ _ _ Hq2). fold (pop_all w2). set (w0 := pop_all w2).
  assert (heap w0 !! p = Some (mkInstance s v [])) as Hp0 by done.
  assert (d < length (heap w0)) as Hdlt by (by eapply lookup_lt_Some).
  assert (run_job (Job p (mkHandler f f (ResolveOf d) (RejectOf d))) w0 =
          resolve_fn d (VPromise d) (set_calls (λ l, l ++ [(label, [v])]) w0)) as ->.
  { destruct s; [done| |].
    - rewrite run_job_fulfilled' by (by rewrite (state_of_Some _ _ _ Hp0)).
      rewrite (value_of_Some _ _ _ Hp0).
      cbn [onfulfilled resolve reject value f is_function negb call]. by rewrite Hbody.
    - rewrite run_job_rejected by (by rewrite (state_of_Some _ _ _ Hp0)).
      rewrite (value_of_Some _ _ _ Hp0).
      cbn [onrejected resolve reject value f is_function negb call]. by rewrite Hbody. }
  set (w3 := set_calls _ w0).
  assert (heap w3 !! d = Some fresh_instance) as Hd3 by done.
  rewrite (resolve_fn_self d w3 _ Hd3 eq_refl).
  by destruct (state_of_settled_world d rejected self_resolution_error
                 (handlers fresh_instance) w3 Hdlt) as (-> & -> & _).
Qed.

Lemma X_chaining_cycle_detected_witness :
  let w := (static_resolve (VNum 1) empty_world).2 in
  let f := UserFn 1 (λ _, Normal (VPromise 1)) in
  let w2 := (then_ 0 f f w).2 in
  (then_ 0 f f w).1 = 1 ∧
  state_of 1 (tick w2) = rejected ∧ value_of 1 (tick w2) = self_resolution_error.
Proof.
  intros w f w2.
  destruct (X_chaining_cycle_detected w 0 (mkInstance fulfilled (VNum 1) []) 1
              (λ _, Normal (VPromise 1)) fulfilled (VNum 1)
              eq_refl eq_refl eq_refl) as (_ & H1 & H2);
    [discriminate|right; split; reflexivity|split; reflexivity|reflexivity|].
  split; [reflexivity|]. split; [exact H1|exact H2].
Defined.

(** ** [all] and [any] on values that are not thenables *)

Lemma subscribe_plain f1 f2 v index w :
  plain v →
  let d := length (heap w) in
  let w' := subscribe f1 f2 v index w in
  heap w' = heap w ++ [mkInstance fulfilled v [];
                       mkInstance pending VUndefined [second_handler f2 d index];
                       fresh_instance] ∧
  microtasks w' = microtasks w ++ [Job d (first_handler f1 d index)] ∧
  arrays w' = arrays w ∧ counters w' = counters w ∧ calls w' = calls w.
Proof.
  intros [Hc Ht] d w'. unfold w', subscribe.
  rewrite (static_resolve_plain v w Hc Ht). fold d.
  set (w3 := set_heap _ w).
  assert (heap w3 !! d = Some (mkInstance fulfilled v [])) as Hd
    by exact (lookup_alloc_new (heap w) _).
  assert (length (heap w3) = d + 1) as Hl3.
  { unfold w3. simpl. by rewrite length_app. }
  pose proof (then_idle d (f1 index) NotCallable w3 _ Hd) as E.
  rewrite Hl3 in E. rewrite E by done. clear E.
  set (w4 := queueMicrotask _ _).
  assert (heap w4 !! (d + 1) = Some fresh_instance) as Ht4.
  { unfold w4. simpl. rewrite <- Hl3. apply lookup_alloc_new. }
  assert (length (heap w4) = d + 2) as Hl4.
  { unfold w4. cbn [heap queueMicrotask set_microtasks set_heap].
    rewrite length_app, Hl3. simpl. lia. }
  unfold catch.
  pose proof (then_pending (d + 1) NotCallable (f2 index) w4 _ Ht4 eq_refl) as E.
  rewrite Hl4 in E. rewrite E. clear E.
  cbn [snd value handlers fresh_instance app].
  split; [|done]. simpl.
  rewrite <- !app_assoc. simpl.
  rewrite insert_app_r_alt by (unfold d; lia).
  replace (d + 1 - length (heap w)) with 1 by (unfold d; lia). simpl.
  by rewrite <- app_assoc.
Qed.

Lemma subscribe_plain_all f1 f2 : ∀ vs index w,
  Forall plain vs →
  let d := length (heap w) in
  let w' := forEach_from index (subscribe f1 f2) vs w in
  (∀ k v, vs !! k = Some v →
     heap w' !! (d + 3 * k) = Some (mkInstance fulfilled v []) ∧
     heap w' !! (d + 3 * k + 1) =
       Some (mkInstance pending VUndefined
               [second_handler f2 (d + 3 * k) (index + k)])) ∧
  (∀ x, x < d → heap w' !! x = heap w !! x) ∧
  microtasks w' = microtasks w ++ wrapper_jobs f1 d index vs ∧
  arrays w' = arrays w ∧ counters w' = counters w ∧ calls w' = calls w.
Proof.
  induction vs as [|v vs IH]; intros index w Hvs d w'.
  - unfold w'. simpl. rewrite app_nil_r. repeat split; done.
  - apply Forall_cons in Hvs as [Hv Hvs].
    destruct (subscribe_plain f1 f2 v index w Hv) as (Hh & Hm & Ha & Hc & Hl).
    fold d in Hh, Hm.
    set (w1 := subscribe f1 f2 v index w) in *.
    assert (length (heap w1) = d + 3) as Hl1.
    { rewrite Hh, length_app. simpl. unfold d. lia. }
    destruct (IH (S index) w1 Hvs) as (Hel & Hold & Hm' & Ha' & Hc' & Hl').
    change (forEach_from (S index) (subscribe f1 f2) vs w1) with w' in *.
    rewrite Hl1 in Hel, Hold, Hm'.
    split; [|split; [|split; [|split; [|split]]]].
    + intros [|k] v' Hk; simpl in Hk.
      * injection Hk as <-. rewrite Nat.mul_0_r, !Nat.add_0_r.
        rewrite !Hold by lia. rewrite Hh.
        rewrite !lookup_app_r by (unfold d; lia).
        rewrite Nat.sub_diag.
        replace (d + 1 - length (heap w)) with 1 by (unfold d; lia). done.
      * replace (d + 3 * S k) with (d + 3 + 3 * k) by lia.
        replace (index + S k) with (S index + k) by lia.
        by apply Hel.
    + intros x Hx. rewrite Hold by lia. rewrite Hh.
      by rewrite lookup_app_l.
    + rewrite Hm', Hm, <- app_assoc. done.
    + congruence.
    + congruence.
    + congruence.
Qed.

Lemma all_subscribes_values vs w :
  vs ≠ [] →
  all vs w =
  (length (heap w),
   forEach_from 0
     (subscribe
        (λ index, AllOnFulfilled (length (arrays w)) (length (counters w))
                    (length vs) index (ResolveOf (length (heap w))))
        (λ _, AllOnRejected (RejectOf (length (heap w)))))
     vs
     (set_heap (λ h, h ++ [fresh_instance])
        (set_counters (λ s, s ++ [0]) (set_arrays (λ s, s ++ [[]]) w)))).
Proof.
  intros Hne. unfold all, new_array, new_counter, construct, forEach.
  cbn beta iota zeta. cbn [fst snd heap set_heap set_counters set_arrays arrays counters].
  by rewrite decide_False by (by destruct vs).
Qed.

Lemma any_subscribes_values vs w :
  vs ≠ [] →
  any vs w =
  (length (heap w),
   forEach_from 0
     (subscribe
        (λ _, ResolveOf (length (heap w)))
        (λ index, AnyOnRejected (length (arrays w)) (length (counters w))
                    (length vs) index (RejectOf (length (heap w)))))
     vs
     (set_heap (λ h, h ++ [fresh_instance])
        (set_counters (λ s, s ++ [0]) (set_arrays (λ s, s ++ [[]]) w)))).
Proof.
  intros Hne. unfold any, new_array, new_counter, construct, forEach.
  cbn beta iota zeta. cbn [fst snd heap set_heap set_counters set_arrays arrays counters].
  by rewrite decide_False by (by destruct vs).
Qed.

Lemma array_store_end k v (arr : list (option jsvalue)) :
  length arr = k → array_store k v arr = arr ++ [Some v].
Proof.
  intros <-. unfold array_store. rewrite decide_False by lia.
  by rewrite Nat.sub_diag.
Qed.

Lemma all_plain_step vs R a c k w :
  all_plain_inv vs R a c k w → k < length vs →
  all_plain_inv vs R a c (S k) (tick w) ∧ calls (tick w) = calls w.
Proof.
  intros [Hq Hcnt Harr Hres Hwait] Hk.
  destruct (lookup_lt_is_Some_2 vs k Hk) as [v Hv].
  rewrite (drop_S _ _ _ Hv) in Hq. cbn [wrapper_jobs] in Hq.
  rewrite decide_False in Hres by lia.
  destruct (Hwait k v (le_n k) Hv) as [Hx Ht].
  set (x := R + 1 + 3 * k) in *.
  set (f1 := λ index, AllOnFulfilled a c (length vs) index (ResolveOf R)) in *.
  set (f2 := λ _ : nat, AllOnRejected (RejectOf R)) in *.
  set (rest := wrapper_jobs f1 (x + 3) (S k) (drop (S k) vs) ++
               ((λ j, Job (R + 1 + 3 * j + 1) (second_handler f2 (R + 1 + 3 * j) j))
                  <$> seq 0 k)).
  set (w0 := set_microtasks (λ _, rest) w).
  set (wa := set_arrays (alter (array_store k v) a) (set_counters (alter S c) w0)).
  set (w1 := if decide (S k = length vs)
             then settled_world R fulfilled (VArray a) [] wa else wa).
  assert (tick w = settled_world (x + 1) fulfilled VUndefined [second_handler f2 x k] w1)
    as Htick.
  { change (microtasks w = Job x (first_handler f1 x k) :: rest) in Hq.
    rewrite (tick_cons _ _ _ Hq). fold w0.
    assert (heap w0 !! x = Some (mkInstance fulfilled v [])) as Hx0 by done.
    rewrite run_job_fulfilled' by (by rewrite (state_of_Some _ _ _ Hx0)).
    rewrite (value_of_Some _ _ _ Hx0).
    cbn [first_handler onfulfilled resolve reject value].
    assert (is_function (f1 k) = true) as -> by done. cbn [negb].
    unfold f1 at 1.
    rewrite (call_AllOnFulfilled a c (length vs) k R v w0 k (Some <$> take k vs))
      by done.
    cbv zeta. fold wa w1. cbn [call snd arg0].
    assert (heap w1 !! (x + 1) =
            Some (mkInstance pending VUndefined [second_handler f2 x k])) as Ht1.
    { unfold w1. case_decide; [|done].
      rewrite lookup_settled_world_ne by (unfold x; lia). done. }
    by rewrite (resolve_fn_plain (x + 1) VUndefined w1 _ Ht1 eq_refl). }
  assert (∀ y, y ≠ R → heap w1 !! y = heap w !! y) as Hframe1.
  { intros y Hy. unfold w1. case_decide; [|done].
    by rewrite lookup_settled_world_ne. }
  assert (heap w1 !! R = Some (if decide (S k = length vs)
            then mkInstance fulfilled (VArray a) [] else fresh_instance)) as HR1.
  { unfold w1. case_decide; [|done].
    by apply (lookup_settled_world_eq R fulfilled (VArray a) [] wa fresh_instance). }
  assert (microtasks w1 = rest ∧ calls w1 = calls w ∧
          counters w1 = alter S c (counters w) ∧
          arrays w1 = alter (array_store k v) a (arrays w)) as (Hm1 & Hc1 & Hn1 & Ha1).
  { unfold w1. case_decide; [|done]. simpl. by rewrite app_nil_r. }
  rewrite Htick. split; [|done]. split.
  - change (microtasks (settled_world (x + 1) fulfilled VUndefined
                          [second_handler f2 x k] w1))
      with (microtasks w1 ++ [Job (x + 1) (second_handler f2 x k)]).
    rewrite Hm1. unfold rest.
    replace (R + 1 + 3 * S k) with (x + 3) by (unfold x; lia).
    rewrite <- app_assoc. f_equal.
    by rewrite seq_S, fmap_app.
  - simpl. rewrite Hn1, list_lookup_alter, decide_True by done. by rewrite Hcnt.
  - simpl. rewrite Ha1, list_lookup_alter, decide_True by done. rewrite Harr. simpl.
    rewrite array_store_end.
    + by rewrite (take_S_r _ _ _ Hv), fmap_app.
    + rewrite length_fmap, length_take. lia.
  - rewrite lookup_settled_world_ne by (unfold x; lia). done.
  - intros j v' Hj Hv'.
    rewrite !lookup_settled_world_ne by (unfold x; lia).
    rewrite !Hframe1 by lia. apply Hwait; [lia|done].
Qed.

Lemma all_plain_steps vs R a c n : ∀ k w,
  all_plain_inv vs R a c k w → k + n ≤ length vs →
  all_plain_inv vs R a c (k + n) (ticks n w) ∧ calls (ticks n w) = calls w.
Proof.
  induction n as [|n IH]; intros k w Hinv Hkn.
  - by rewrite Nat.add_0_r.
  - destruct (all_plain_step vs R a c k w Hinv) as [Hinv1 Hc1]; [lia|].
    destruct (IH (S k) (tick w) Hinv1) as [Hinv2 Hc2]; [lia|].
    replace (k + S n) with (S k + n) by lia. split; [done|].
    simpl. congruence.
Qed.

Lemma all_plain_establishes vs w :
  vs ≠ [] → Forall plain vs → microtasks w = [] →
  (all vs w).1 = length (heap w) ∧ calls (all vs w).2 = calls w ∧
  all_plain_inv vs (length (heap w)) (length (arrays w)) (length (counters w)) 0
    (all vs w).2.
Proof.
  intros Hne Hvs Hm. rewrite (all_subscribes_values vs w Hne). cbn [fst snd].
  split; [done|].
  set (R := length (heap w)). set (f1 := λ index, AllOnFulfilled _ _ _ index _).
  set (f2 := λ _ : nat, AllOnRejected _). set (w1 := set_heap _ _).
  assert (length (heap w1) = R + 1) as Hl1
    by (unfold w1; simpl; rewrite length_app; simpl; done).
  destruct (subscribe_plain_all f1 f2 vs 0 w1 Hvs) as (Hel & Hold & Hq & Ha & Hc & Hl).
  rewrite Hl1 in Hel, Hold, Hq.
  split; [by rewrite Hl|]. split.
  - rewrite Hq. unfold w1. simpl. rewrite Hm. simpl.
    by rewrite Nat.add_0_r, app_nil_r.
  - rewrite Hc. unfold w1. simpl. rewrite lookup_app_r by done.
    by rewrite Nat.sub_diag.
  - rewrite Ha. unfold w1. simpl. rewrite lookup_app_r by done.
    by rewrite Nat.sub_diag.
  - rewrite decide_False by (by destruct vs).
    rewrite Hold by lia. apply lookup_alloc_new.
  - intros j v _ Hj. by apply Hel.
Qed.

(** X13.  [all] on values none of which is a thenable, with no other work
    queued.  The result is not fulfilled by the call: it is pending for as
    many microtasks as there are values less one, and the microtask after that
    fulfils it with an array that holds the values in their order.  No
    function of the client is called. *)
Theorem X_all_of_plain_values w vs :
  vs ≠ [] → Forall plain vs → microtasks w = [] →
  let R := (all vs w).1 in
  let w0 := (all vs w).2 in
  (∀ k, k < length vs → state_of R (ticks k w0) = pending) ∧
  (let w1 := ticks (length vs) w0 in
   state_of R w1 = fulfilled ∧ calls w1 = calls w ∧
   ∃ a arr, value_of R w1 = VArray a ∧ arrays w1 !! a = Some arr ∧
            array_elements arr = vs).
Proof.
  intros Hne Hvs Hm R w0.
  destruct (all_plain_establishes vs w Hne Hvs Hm) as (HR & Hc0 & Hinv).
  fold R in HR. fold w0 in Hinv, Hc0. rewrite <- HR in Hinv.
  set (a := length (arrays w)) in *. set (c := length (counters w)) in *.
  split.
  - intros k Hk.
    destruct (all_plain_steps vs R a c k 0 w0 Hinv) as [Hinv1 _]; [simpl; lia|].
    simpl in Hinv1. pose proof (all_plain_result _ _ _ _ _ _ Hinv1) as H.
    rewrite decide_False in H by lia. by rewrite (state_of_Some _ _ _ H).
  - destruct (all_plain_steps vs R a c (length vs) 0 w0 Hinv) as [Hinv1 Hc1];
      [simpl; lia|].
    simpl in Hinv1. pose proof (all_plain_result _ _ _ _ _ _ Hinv1) as H.
    rewrite decide_True in H by done.
    split; [by rewrite (state_of_Some _ _ _ H)|]. split; [congruence|].
    exists a, (Some <$> vs). split; [by rewrite (value_of_Some _ _ _ H)|].
    pose proof (all_plain_array _ _ _ _ _ _ Hinv1) as Ha.
    rewrite firstn_all in Ha. split; [done|].
    unfold array_elements. rewrite <- list_fmap_compose.
    rewrite <- (list_fmap_id vs) at 2. by apply list_fmap_ext.
Qed.

Lemma X_all_of_plain_values_witness :
  let vs := [VNum 1; VStr "two"; VNull] in
  let R := (all vs empty_world).1 in
  let w0 := (all vs empty_world).2 in
  state_of R (ticks 2 w0) = pending ∧
  state_of R (ticks 3 w0) = fulfilled ∧
  ∃ a arr, value_of R (ticks 3 w0) = VArray a ∧ arrays (ticks 3 w0) !! a = Some arr ∧
           array_elements arr = vs.
Proof.
  intros vs R w0.
  destruct (X_all_of_plain_values empty_world vs) as (H1 & H2 & _ & H3);
    [discriminate|repeat constructor|reflexivity|].
  split; [apply H1; simpl; lia|]. split; [exact H2|exact H3].
Defined.

(** X14.  [any] on values none of which is a thenable, with no other work
    queued: the result is pending when the call returns, the first microtask
    fulfils it with the first value, and nothing that happens later changes
    that. *)
Theorem X_any_of_plain_values w v vs :
  Forall plain (v :: vs) → microtasks w = [] →
  let R := (any (v :: vs) w).1 in
  let w0 := (any (v :: vs) w).2 in
  state_of R w0 = pending ∧
  state_of R (tick w0) = fulfilled ∧ value_of R (tick w0) = v ∧
  calls (tick w0) = calls w ∧
  ∀ os, state_of R (run os (tick w0)) = fulfilled ∧
        value_of R (run os (tick w0)) = v.
Proof.
  intros Hvs Hm R w0. unfold R, w0.
  rewrite (any_subscribes_values (v :: vs) w) by done. cbn [fst snd].
  clear R w0. set (R := length (heap w)).
  set (f1 := λ _ : nat, ResolveOf R).
  set (f2 := λ index, AnyOnRejected _ _ _ index _). set (w1 := set_heap _ _).
  assert (length (heap w1) = R + 1) as Hl1
    by (unfold w1; simpl; rewrite length_app; simpl; done).
  destruct (subscribe_plain_all f1 f2 (v :: vs) 0 w1 Hvs)
    as (Hel & Hold & Hq & _ & _ & Hl).
  rewrite Hl1 in Hel, Hold, Hq.
  set (w0 := forEach_from 0 (subscribe f1 f2) (v :: vs) w1) in *.
  assert (heap w0 !! R = Some fresh_instance) as HR.
  { rewrite Hold by lia. apply lookup_alloc_new. }
  destruct (Hel 0 v eq_refl) as [Hx Ht].
  rewrite Nat.mul_0_r, !Nat.add_0_r in Hx, Ht.
  assert (microtasks w1 = []) as Hm1 by done.
  rewrite Hm1 in Hq. cbn [wrapper_jobs app] in Hq.
  apply Forall_cons in Hvs as [[Hv1 Hv2] _].
  split; [by rewrite (state_of_Some _ _ _ HR)|].
  rewrite (tick_cons _ _ _ Hq). set (w2 := set_microtasks _ w0).
  assert (heap w2 !! (R + 1) = Some (mkInstance fulfilled v [])) as Hx2 by done.
  assert (run_job (Job (R + 1) (first_handler f1 (R + 1) 0)) w2 =
          settled_world (R + 1 + 1) fulfilled VUndefined
            [second_handler f2 (R + 1) 0]
            (settled_world R fulfilled v [] w2)) as ->.
  { rewrite run_job_fulfilled' by (by rewrite (state_of_Some _ _ _ Hx2)).
    rewrite (value_of_Some _ _ _ Hx2).
    cbn [first_handler onfulfilled resolve reject value f1 is_function negb call arg0].
    rewrite (resolve_fn_plain R v w2 fresh_instance) by done.
    cbn [snd call arg0 handlers fresh_instance].
    rewrite (resolve_fn_plain (R + 1 + 1) VUndefined _
               (mkInstance pending VUndefined [second_handler f2 (R + 1) 0])); try done.
    rewrite lookup_settled_world_ne by lia. done. }
  assert (heap (settled_world (R + 1 + 1) fulfilled VUndefined
                  [second_handler f2 (R + 1) 0]
                  (settled_world R fulfilled v [] w2)) !! R
          = Some (mkInstance fulfilled v [])) as HR3.
  { rewrite lookup_settled_world_ne by lia.
    by apply (lookup_settled_world_eq R fulfilled v [] w2 fresh_instance). }
  split; [by rewrite (state_of_Some _ _ _ HR3)|].
  split; [by rewrite (value_of_Some _ _ _ HR3)|].
  split; [simpl; by rewrite Hl|].
  intros os.
  match goal with |- context [run os ?W] =>
    destruct (settled_is_final os W R) as [-> ->];
      [by rewrite (state_of_Some _ _ _ HR3)|]
  end.
  by rewrite (state_of_Some _ _ _ HR3), (value_of_Some _ _ _ HR3).
Qed.

Lemma X_any_of_plain_values_witness :
  let vs := [VNum 1; VNum 2] in
  let R := (any vs empty_world).1 in
  let w0 := (any vs empty_world).2 in
  state_of R w0 = pending ∧
  state_of R (tick w0) = fulfilled ∧ value_of R (tick w0) = VNum 1.
Proof.
  intros vs R w0.
  destruct (X_any_of_plain_values empty_world (VNum 1) [VNum 2])
    as (H1 & H2 & H3 & _); [repeat constructor|reflexivity|].
  split; [exact H1|]. split; [exact H2|exact H3].
Defined.

(** ** A thenable that calls back after [then] has returned *)

(** X15.  A thenable whose [then] returns without calling either callback
    leaves the instance pending and queues nothing.  The first call of a
    callback it kept then acts as the closure of the instance would:
    [resolvePromise(x)] resolves the instance with [x], [rejectPromise(r)]
    rejects it with [r]; after it, both callbacks do nothing. *)
Theorem X_thenable_calls_back_after_returning w this i :
  heap w !! this = Some i → state i = pending →
  let called := length (flags w) in
  let w1 := resolve_fn this (VObject (ThenFunction Done)) w in
  let locked := set_flags (λ f, f ++ [true]) w in
  state_of this w1 = pending ∧ heap w1 = heap w ∧ microtasks w1 = microtasks w ∧
  (∀ x, exec (Call (GuardedResolve called this) [x]) w1 = resolve_fn this x locked) ∧
  (∀ x, callable_then x = false → then_throws x = false →
     let w2 := exec (Call (GuardedResolve called this) [x]) w1 in
     state_of this w2 = fulfilled ∧ value_of this w2 = x ∧
     exec (Call (GuardedReject called this) [x]) w2 = w2 ∧
     exec (Call (GuardedResolve called this) [x]) w2 = w2) ∧
  (∀ r,
     let w2 := exec (Call (GuardedReject called this) [r]) w1 in
     w2 = reject_fn this r locked ∧
     state_of this w2 = rejected ∧ value_of this w2 = r ∧
     exec (Call (GuardedReject called this) [r]) w2 = w2 ∧
     exec (Call (GuardedResolve called this) [r]) w2 = w2).
Proof.
  intros Hi Hs called w1 locked.
  assert (state_of this w = pending) as Hst by (by rewrite (state_of_Some _ _ _ Hi)).
  assert (w1 = set_flags (λ s, s ++ [false]) w) as Hw1.
  { unfold w1. by rewrite resolve_fn_thenable. }
  assert (flag_of called w1 = false) as Hflag by (rewrite Hw1; apply flag_of_new_flag).
  assert (set_flags (<[called := true]>) w1 = locked) as Hraise
    by (rewrite Hw1; apply raise_new_flag).
  assert (flag_of called locked = true) as Hlocked by apply flag_of_locked.
  assert (heap locked !! this = Some i) as Hil by done.
  assert (this < length (heap locked)) as Hlt by (by eapply lookup_lt_Some).
  assert (∀ x, exec (Call (GuardedResolve called this) [x]) w1 = resolve_fn this x locked)
    as Hres.
  { intros x.
    change (exec (Call (GuardedResolve called this) [x]) w1)
      with (guarded_resolve called this x w1).
    unfold guarded_resolve. by rewrite Hflag, Hraise. }
  assert (∀ r, exec (Call (GuardedReject called this) [r]) w1 = reject_fn this r locked)
    as Hrej.
  { intros r.
    change (exec (Call (GuardedReject called this) [r]) w1)
      with (guarded_reject called this r w1).
    unfold guarded_reject. by rewrite Hflag, Hraise. }
  assert (∀ w2 y, flag_of called w2 = true →
            exec (Call (GuardedReject called this) [y]) w2 = w2 ∧
            exec (Call (GuardedResolve called this) [y]) w2 = w2) as Hnoop.
  { intros w2 y Hf. split.
    - change (exec (Call (GuardedReject called this) [y]) w2)
        with (guarded_reject called this y w2).
      unfold guarded_reject. by rewrite Hf.
    - change (exec (Call (GuardedResolve called this) [y]) w2)
        with (guarded_resolve called this y w2).
      unfold guarded_resolve. by rewrite Hf. }
  split; [by rewrite Hw1|]. split; [by rewrite Hw1|]. split; [by rewrite Hw1|].
  split; [done|]. split.
  - intros x Hc Ht w2. unfold w2. rewrite Hres.
    rewrite (resolve_fn_plain this x locked i Hil Hs Hc Ht).
    destruct (state_of_settled_world this fulfilled x (handlers i) locked Hlt)
      as (-> & -> & _).
    split; [done|]. split; [done|]. by apply Hnoop.
  - intros r w2. unfold w2. rewrite Hrej. split; [done|].
    rewrite (reject_fn_pending this r locked i Hil Hs).
    destruct (state_of_settled_world this rejected r (handlers i) locked Hlt)
      as (-> & -> & _).
    split; [done|]. split; [done|]. by apply Hnoop.
Qed.

Lemma X_thenable_calls_back_after_returning_witness :
  let w := (new_promise Done empty_world).2 in
  let w1 := resolve_fn 0 (VObject (ThenFunction Done)) w in
  let w2 := exec (Call (GuardedResolve 0 0) [VNum 4]) w1 in
  state_of 0 w1 = pending ∧ state_of 0 w2 = fulfilled ∧ value_of 0 w2 = VNum 4.
Proof.
  intros w w1 w2.
  destruct (X_thenable_calls_back_after_returning w 0 fresh_instance eq_refl eq_refl)
    as (H1 & _ & _ & _ & H2 & _).
  destruct (H2 (VNum 4) eq_refl eq_refl) as (H3 & H4 & _).
  split; [exact H1|]. split; [exact H3|exact H4].
Defined.

(** ** The first sketch of the class *)

Section draft3.
Import Draft3.

Implicit Types (w : world) (h : list instance) (rec : nat → world → option world).

Lemma d3_world_eq w w' : heap w = heap w' → calls w = calls w' → w = w'.
Proof. destruct w, w'; simpl; congruence. Qed.

Lemma d3_state_of_Some w p i : heap w !! p = Some i → state_of p w = state i.
Proof. unfold state_of. by intros ->. Qed.

Lemma d3_value_of_Some w p i : heap w !! p = Some i → value_of p w = value i.
Proof. unfold value_of. by intros ->. Qed.

Lemma d3_handlers_of_Some w p i : heap w !! p = Some i → handlers_of p w = handlers i.
Proof. unfold handlers_of. by intros ->. Qed.

Lemma d3_alter_missing (f : instance → instance) p h : h !! p = None → alter f p h = h.
Proof.
  revert p. induction h as [|x h IH]; intros [|p] Hp; simpl in *; try done.
  f_equal. by apply IH.
Qed.

Lemma d3_alter_same (f : instance → instance) p h i :
  h !! p = Some i → f i = i → alter f p h = h.
Proof.
  revert p. induction h as [|x h IH]; intros [|p] Hp Hf; simpl in *; try done.
  - injection Hp as ->. by rewrite Hf.
  - f_equal. by apply IH.
Qed.

Lemma count_pending_le h : count_pending h ≤ length h.
Proof. induction h as [|i h IH]; simpl; [done|]. destruct (is_pending _); lia. Qed.

Lemma count_pending_settled h p i :
  h !! p = Some i → state i ≠ pending → count_pending h < length h.
Proof.
  revert p. induction h as [|x h IH]; intros [|p] Hp Hs; simpl in *; try done.
  - injection Hp as ->. pose proof (count_pending_le h).
    destruct (state i); simpl; (congruence || lia).
  - specialize (IH p Hp Hs). destruct (is_pending _); lia.
Qed.

Lemma count_pending_settle h p i s v :
  h !! p = Some i → state i = pending → s ≠ pending →
  S (count_pending (alter (λ i, mkInstance s v (handlers i)) p h)) = count_pending h.
Proof.
  revert p. induction h as [|x h IH]; intros [|p] Hp Hi Hs; simpl in *; try done.
  - injection Hp as ->. rewrite Hi. destruct s; simpl; (congruence || lia).
  - rewrite <- (IH p Hp Hi Hs). unfold alter. destruct (is_pending _); lia.
Qed.

Lemma count_pending_keep (f : instance → instance) h p :
  (∀ i, state (f i) = state i) → count_pending (alter f p h) = count_pending h.
Proof.
  intros Hf. revert p. induction h as [|x h IH]; intros [|p]; simpl; try done.
  - by rewrite Hf.
  - f_equal. apply IH.
Qed.

Lemma count_pending_alloc h :
  count_pending (h ++ [mkInstance pending VUndefined []]) = S (count_pending h).
Proof. induction h as [|x h IH]; simpl; [done|]. rewrite IH. lia. Qed.

(** *** More fuel changes no result *)

Lemma settle_with_mono rec rec' s this v w w' :
  extends rec rec' →
  settle_with rec s this v w = Some w' → settle_with rec' s this v w = Some w'.
Proof.
  intros Hext. unfold settle_with. destruct (negb _); [done|]. apply Hext.
Qed.

Lemma call_with_mono rec rec' f :
  extends rec rec' → ∀ args w r,
  call_with rec f args w = Some r → call_with rec' f args w = Some r.
Proof.
  intros Hext. induction f; intros args w r; cbn [call_with]; try done.
  - destruct (settle_with rec fullfilled p (arg0 args) w) as [w'|] eqn:E; [|done].
    by rewrite (settle_with_mono _ _ _ _ _ _ _ Hext E).
  - destruct (settle_with rec rejected p (arg0 args) w) as [w'|] eqn:E; [|done].
    by rewrite (settle_with_mono _ _ _ _ _ _ _ Hext E).
  - destruct (is_absent f); [done|].
    destruct (call_with rec f [] w) as [r'|] eqn:E; [|done].
    by rewrite (IHf _ _ _ E).
  - destruct (is_absent f); [done|].
    destruct (call_with rec f [] w) as [r'|] eqn:E; [|done].
    by rewrite (IHf _ _ _ E).
Qed.

Lemma run_handler_mono rec rec' this hd w w' :
  extends rec rec' →
  run_handler rec this hd w = Some w' → run_handler rec' this hd w = Some w'.
Proof.
  intros Hext. unfold run_handler.
  set (first := match state_of this w with fullfilled => _ | _ => Some w end).
  set (first' := match state_of this w with fullfilled => _ | _ => Some w end).
  assert (∀ w1, first = Some w1 → first' = Some w1) as Hfirst.
  { intros w1. unfold first, first'. destruct (state_of this w); try done.
    destruct (is_absent (onfulfilled hd)).
    - destruct (call_with rec _ _ w) as [r|] eqn:E; [|done].
      by rewrite (call_with_mono _ _ _ Hext _ _ _ E).
    - destruct (call_with rec (onfulfilled hd) _ w) as [r|] eqn:E; [|done].
      rewrite (call_with_mono _ _ _ Hext _ _ _ E). simpl.
      destruct r.1.
      + destruct (call_with rec _ _ r.2) as [r'|] eqn:E'; [|done].
        by rewrite (call_with_mono _ _ _ Hext _ _ _ E').
      + destruct (call_with rec _ _ r.2) as [r'|] eqn:E'; [|done].
        by rewrite (call_with_mono _ _ _ Hext _ _ _ E'). }
  destruct first as [w1|]; [|done]. rewrite (Hfirst w1 eq_refl). simpl.
  clear Hfirst. clearbody first'.
  destruct (state_of this w1); try done.
  destruct (is_absent (onrejected hd)).
  - destruct (call_with rec _ _ w1) as [r|] eqn:E; [|done].
    by rewrite (call_with_mono _ _ _ Hext _ _ _ E).
  - destruct (call_with rec (onrejected hd) _ w1) as [r|] eqn:E; [|done].
    rewrite (call_with_mono _ _ _ Hext _ _ _ E). simpl.
    destruct r.1.
    + destruct (call_with rec _ _ r.2) as [r'|] eqn:E'; [|done].
      by rewrite (call_with_mono _ _ _ Hext _ _ _ E').
    + destruct (call_with rec _ _ r.2) as [r'|] eqn:E'; [|done].
      by rewrite (call_with_mono _ _ _ Hext _ _ _ E').
Qed.

Lemma foldl_handlers_None rec this hs :
  foldl (λ ow hd, ow ≫= run_handler rec this hd) None hs = None.
Proof. induction hs as [|hd hs IH]; [done|]. simpl. apply IH. Qed.

Lemma foldl_handlers_mono rec rec' this hs : ∀ ow w',
  extends rec rec' →
  foldl (λ ow hd, ow ≫= run_handler rec this hd) ow hs = Some w' →
  foldl (λ ow hd, ow ≫= run_handler rec' this hd) ow hs = Some w'.
Proof.
  induction hs as [|hd hs IH]; intros ow w' Hext; [done|]. simpl.
  destruct ow as [w|]; simpl; [|by rewrite foldl_handlers_None].
  destruct (run_handler rec this hd w) as [w1|] eqn:E;
    [|by rewrite foldl_handlers_None].
  rewrite (run_handler_mono _ _ _ _ _ _ Hext E). by apply IH.
Qed.

Lemma runHandlers_mono fuel : ∀ fuel', fuel ≤ fuel' →
  extends (runHandlers fuel) (runHandlers fuel').
Proof.
  induction fuel as [|fuel IH]; intros fuel' Hle this w w'; [done|].
  destruct fuel' as [|fuel']; [lia|]. cbn [runHandlers].
  destruct (is_pending _); [done|].
  destruct (foldl _ (Some w) _) as [w1|] eqn:E; [|done].
  rewrite (foldl_handlers_mono _ (runHandlers fuel') _ _ _ _ (IH fuel' ltac:(lia)) E).
  done.
Qed.

(** *** The fuel of the model is enough *)

Lemma shrinks_refl w : shrinks w w.
Proof. by split. Qed.

Lemma shrinks_trans w1 w2 w3 : shrinks w1 w2 → shrinks w2 w3 → shrinks w1 w3.
Proof. intros [? ?] [? ?]. split; [lia|congruence]. Qed.

Lemma settle_with_total n rec s this v w :
  returns_below n rec → s ≠ pending → count_pending (heap w) < n →
  ∃ w', settle_with rec s this v w = Some w' ∧ shrinks w w'.
Proof.
  intros Hrec Hs Hn. unfold settle_with.
  destruct (is_pending (state_of this w)) eqn:E; simpl;
    [|exists w; split; [done|apply shrinks_refl]].
  destruct (heap w !! this) as [i|] eqn:Hi.
  - assert (state i = pending) as Hp.
    { rewrite (d3_state_of_Some _ _ _ Hi) in E. by destruct (state i). }
    set (w1 := set_heap _ w).
    pose proof (count_pending_settle (heap w) this i s v Hi Hp Hs) as Hc.
    destruct (Hrec this w1) as (w' & Hw' & Hsh).
    { intros _. unfold w1. simpl. lia. }
    exists w'. split; [done|]. eapply shrinks_trans; [|exact Hsh].
    split; [unfold w1; simpl; lia|]. unfold w1. simpl. by rewrite length_alter.
  - assert (set_heap (alter (λ i, mkInstance s v (handlers i)) this) w = w) as ->.
    { apply d3_world_eq; [|done]. simpl. by apply d3_alter_missing. }
    apply Hrec. intros Hne. by destruct (state_of this w).
Qed.

Lemma call_with_total n rec f :
  returns_below n rec → ∀ args w, count_pending (heap w) < n →
  ∃ r, call_with rec f args w = Some r ∧ shrinks w r.2.
Proof.
  intros Hrec. induction f; intros args w Hn; cbn [call_with].
  - eexists. split; [done|apply shrinks_refl].
  - eexists. split; [done|by split].
  - destruct (settle_with_total n rec fullfilled p (arg0 args) w Hrec) as (w' & -> & Hsh);
      [done|done|]. eexists. split; [done|done].
  - destruct (settle_with_total n rec rejected p (arg0 args) w Hrec) as (w' & -> & Hsh);
      [done|done|]. eexists. split; [done|done].
  - destruct (is_absent f); [eexists; split; [done|apply shrinks_refl]|].
    destruct (IHf [] w Hn) as (r & -> & Hsh). simpl.
    destruct r.1; eexists; (split; [done|done]).
  - destruct (is_absent f); [eexists; split; [done|apply shrinks_refl]|].
    destruct (IHf [] w Hn) as (r & -> & Hsh). simpl.
    destruct r.1; eexists; (split; [done|done]).
Qed.

Lemma call_then_call_total n rec f g1 g2 (a : jsvalue) w :
  returns_below n rec → count_pending (heap w) < n →
  ∃ w',
    (call_with rec f [a] w ≫= λ r,
       match r.1 with
       | Normal result => snd <$> call_with rec g1 [result] r.2
       | Throw error => snd <$> call_with rec g2 [error] r.2
       end) = Some w' ∧ shrinks w w'.
Proof.
  intros Hrec Hn.
  destruct (call_with_total n rec f Hrec [a] w Hn) as (r & -> & [Hc Hl]). simpl.
  destruct r.1 as [x|e].
  - destruct (call_with_total n rec g1 Hrec [x] r.2) as (r' & -> & Hsh'); [lia|].
    exists r'.2. split; [done|]. by eapply shrinks_trans.
  - destruct (call_with_total n rec g2 Hrec [e] r.2) as (r' & -> & Hsh'); [lia|].
    exists r'.2. split; [done|]. by eapply shrinks_trans.
Qed.

Lemma run_handler_total n rec this hd w :
  returns_below n rec → count_pending (heap w) < n →
  ∃ w', run_handler rec this hd w = Some w' ∧ shrinks w w'.
Proof.
  intros Hrec Hn. unfold run_handler.
  assert (∃ w1, match state_of this w with
                | fullfilled =>
                    if is_absent (onfulfilled hd) then
                      snd <$> call_with rec (resolve hd) [value_of this w] w
                    else
                      call_with rec (onfulfilled hd) [value_of this w] w ≫= λ r,
                        match r.1 with
                        | Normal result => snd <$> call_with rec (resolve hd) [result] r.2
                        | Throw error => snd <$> call_with rec (reject hd) [error] r.2
                        end
                | _ => Some w
                end = Some w1 ∧ shrinks w w1) as (w1 & -> & Hsh1).
  { destruct (state_of this w); try (exists w; split; [done|apply shrinks_refl]).
    destruct (is_absent (onfulfilled hd)).
    - destruct (call_with_total n rec (resolve hd) Hrec [value_of this w] w Hn)
        as (r & -> & Hsh). by exists r.2.
    - by apply (call_then_call_total n). }
  simpl. destruct Hsh1 as [Hc1 Hl1].
  assert (count_pending (heap w1) < n) as Hn1 by lia.
  assert (∃ w', match state_of this w1 with
                | rejected =>
                    if is_absent (onrejected hd) then
                      snd <$> call_with rec (reject hd) [value_of this w1] w1
                    else
                      call_with rec (onrejected hd) [value_of this w1] w1 ≫= λ r,
                        match r.1 with
                        | Normal result => snd <$> call_with rec (reject hd) [result] r.2
                        | Throw error => snd <$> call_with rec (reject hd) [error] r.2
                        end
                | _ => Some w1
                end = Some w' ∧ shrinks w1 w') as (w' & -> & Hsh').
  { destruct (state_of this w1); try (exists w1; split; [done|apply shrinks_refl]).
    destruct (is_absent (onrejected hd)).
    - destruct (call_with_total n rec (reject hd) Hrec [value_of this w1] w1 Hn1)
        as (r & -> & Hsh). by exists r.2.
    - by apply (call_then_call_total n). }
  exists w'. split; [done|]. eapply shrinks_trans; [|exact Hsh']. by split.
Qed.

Lemma foldl_handlers_total n rec this hs : ∀ w,
  returns_below n rec → count_pending (heap w) < n →
  ∃ w', foldl (λ ow hd, ow ≫= run_handler rec this hd) (Some w) hs = Some w' ∧
        shrinks w w'.
Proof.
  induction hs as [|hd hs IH]; intros w Hrec Hn.
  - exists w. split; [done|apply shrinks_refl].
  - destruct (run_handler_total n rec this hd w Hrec Hn) as (w1 & Hw1 & [Hc Hl]).
    simpl. rewrite Hw1.
    destruct (IH w1 Hrec) as (w' & Hw' & Hsh); [lia|].
    exists w'. split; [done|]. eapply shrinks_trans; [|exact Hsh]. by split.
Qed.

Lemma runHandlers_total n : 0 < n → returns_below n (runHandlers n).
Proof.
  induction n as [|n IH]; [lia|]. intros _ this w Hn. cbn [runHandlers].
  destruct (is_pending (state_of this w)) eqn:E.
  { exists w. split; [done|apply shrinks_refl]. }
  assert (count_pending (heap w) < n) as Hlt.
  { assert (state_of this w ≠ pending) as Hne by (by destruct (state_of this w)).
    specialize (Hn Hne). lia. }
  destruct (foldl_handlers_total n (runHandlers n) this (handlers_of this w) w)
    as (w' & -> & [Hc Hl]); [apply IH; lia|done|].
  simpl. eexists. split; [done|]. split; simpl.
  - by rewrite count_pending_keep.
  - by rewrite length_alter.
Qed.

Lemma enough_fuel_returns w : returns_below (enough_fuel w) (runHandlers (enough_fuel w)).
Proof. apply runHandlers_total. unfold enough_fuel. lia. Qed.

Lemma resolve_fn_total this v w : ∃ w', resolve_fn this v w = Some w' ∧ shrinks w w'.
Proof.
  apply (settle_with_total (enough_fuel w)); [apply enough_fuel_returns|done|].
  pose proof (count_pending_le (heap w)). unfold enough_fuel. lia.
Qed.

Lemma reject_fn_total this r w : ∃ w', reject_fn this r w = Some w' ∧ shrinks w w'.
Proof.
  apply (settle_with_total (enough_fuel w)); [apply enough_fuel_returns|done|].
  pose proof (count_pending_le (heap w)). unfold enough_fuel. lia.
Qed.

Lemma call_total f args w : ∃ r, call f args w = Some r ∧ shrinks w r.2.
Proof.
  apply (call_with_total (enough_fuel w)); [apply enough_fuel_returns|].
  pose proof (count_pending_le (heap w)). unfold enough_fuel. lia.
Qed.

Lemma then_total this f g w : ∃ r, then_ this f g w = Some r.
Proof.
  unfold then_, construct.
  set (w1 := set_heap _ w). set (w2 := set_heap _ w1).
  destruct (enough_fuel_returns w2 this w2) as (w3 & Hw3 & _).
  { intros Hs. unfold enough_fuel.
    destruct (heap w2 !! this) as [i|] eqn:Hi.
    - rewrite (d3_state_of_Some _ _ _ Hi) in Hs.
      pose proof (count_pending_settled _ _ _ Hi Hs). lia.
    - unfold state_of in Hs. by rewrite Hi in Hs. }
  rewrite Hw3. simpl. eauto.
Qed.

Lemma run_executor_total executor this : ∀ w,
  ∃ r, run_executor executor this w = Some r.
Proof.
  induction executor; intros w; simpl; eauto.
  - destruct (resolve_fn_total this v w) as (w' & -> & _). simpl. apply IHexecutor.
  - destruct (reject_fn_total this r w) as (w' & -> & _). simpl. apply IHexecutor.
Qed.

Lemma new_promise_total executor w : ∃ r, new_promise executor w = Some r.
Proof.
  unfold new_promise, construct.
  destruct (run_executor_total executor (length (heap w))
              (set_heap (λ h, h ++ [mkInstance pending VUndefined []]) w))
    as ([[e|] w2] & ->); simpl; [|eauto].
  destruct (reject_fn_total (length (heap w)) e w2) as (w3 & -> & _). simpl. eauto.
Qed.

Lemma exec_total o w : ∃ w', exec o w = Some w'.
Proof.
  destruct o; cbn [exec].
  - destruct (new_promise_total executor w) as (r & ->). simpl. eauto.
  - destruct (call_total f args w) as (r & -> & _). simpl. eauto.
  - destruct (then_total p onfulfilled0 onrejected0 w) as (r & ->). simpl. eauto.
  - destruct (then_total p NotCallable onrejected0 w) as (r & Hr).
    unfold catch. rewrite Hr. simpl. eauto.
  - destruct (then_total p (PassThroughFulfilled onfinally)
                (PassThroughRejected onfinally) w) as (r & Hr).
    unfold finally. rewrite Hr. simpl. eauto.
Qed.

(** *** The operations in closed form *)

Lemma runHandlers_idle fuel this w :
  0 < fuel → handlers_of this w = [] → runHandlers fuel this w = Some w.
Proof.
  intros Hf Hh. destruct fuel as [|fuel]; [lia|]. cbn [runHandlers].
  destruct (is_pending _); [done|]. rewrite Hh. simpl. f_equal.
  apply d3_world_eq; [|done]. simpl. unfold handlers_of in Hh.
  destruct (heap w !! this) as [i|] eqn:Hi.
  - apply (d3_alter_same _ _ _ i Hi). destruct i; simpl in *. by subst.
  - by apply d3_alter_missing.
Qed.

Lemma settle_idle fuel s this v w i :
  0 < fuel → heap w !! this = Some i → state i = pending → handlers i = [] →
  settle_with (runHandlers fuel) s this v w =
  Some (set_heap (<[this := mkInstance s v []]>) w).
Proof.
  intros Hf Hi Hs Hh. unfold settle_with.
  rewrite (d3_state_of_Some _ _ _ Hi), Hs. simpl.
  assert (set_heap (alter (λ i, mkInstance s v (handlers i)) this) w =
          set_heap (<[this := mkInstance s v []]>) w) as ->.
  { apply d3_world_eq; [|done]. simpl.
    apply (list_alter_const _ _ _ i); [done|]. by rewrite Hh. }
  apply runHandlers_idle; [done|]. unfold handlers_of. simpl.
  rewrite list_lookup_insert_eq; [done|]. by eapply lookup_lt_Some.
Qed.

Lemma then_settled_idle p s v f g w :
  heap w !! p = Some (mkInstance s v []) → s ≠ pending →
  let d := length (heap w) in
  then_ p f g w =
  (run_handler (runHandlers (S d)) p (d3_handler f g d)
     (d3_registered p s v (d3_handler f g d) w)
   ≫= λ w3, Some (d, set_heap (alter (λ i, mkInstance (state i) (value i) []) p) w3)).
Proof.
  intros Hp Hs d. unfold then_, construct. fold d.
  assert (p < d) as Hlt by (by eapply lookup_lt_Some).
  set (w2 := set_heap (alter _ p) _).
  assert (w2 = d3_registered p s v (d3_handler f g d) w) as ->.
  { apply d3_world_eq; [|done]. unfold w2. simpl.
    rewrite (alter_alloc _ (heap w) _ p (mkInstance s v []) (mkInstance s v [d3_handler f g d]));
      done. }
  set (w2 := d3_registered _ _ _ _ _).
  assert (heap w2 !! p = Some (mkInstance s v [d3_handler f g d])) as Hp2.
  { unfold w2. simpl. rewrite lookup_app_l by (by rewrite length_insert).
    by rewrite list_lookup_insert_eq. }
  assert (enough_fuel w2 = S (S d)) as ->.
  { unfold enough_fuel, w2. simpl. rewrite length_app, length_insert. simpl.
    fold d. lia. }
  cbn [runHandlers].
  rewrite (d3_state_of_Some _ _ _ Hp2), (d3_handlers_of_Some _ _ _ Hp2).
  cbn [state value handlers].
  assert (is_pending s = false) as -> by (by destruct s).
  cbn [foldl mbind option_bind].
  destruct (run_handler _ p _ w2) as [w3|]; done.
Qed.

Lemma then_pending_d3 p v0 hs f g w :
  heap w !! p = Some (mkInstance pending v0 hs) →
  let d := length (heap w) in
  then_ p f g w =
  Some (d, set_heap (λ h, <[p := mkInstance pending v0 (hs ++ [d3_handler f g d])]> h
                          ++ [mkInstance pending VUndefined []]) w).
Proof.
  intros Hp d. unfold then_, construct. fold d.
  assert (p < d) as Hlt by (by eapply lookup_lt_Some).
  set (w2 := set_heap (alter _ p) _).
  assert (w2 = set_heap (λ h, <[p := mkInstance pending v0 (hs ++ [d3_handler f g d])]> h
                              ++ [mkInstance pending VUndefined []]) w) as ->.
  { apply d3_world_eq; [|done]. unfold w2. simpl.
    by rewrite (alter_alloc _ (heap w) _ p (mkInstance pending v0 hs)
                  (mkInstance pending v0 (hs ++ [d3_handler f g d]))). }
  set (w2 := set_heap _ w).
  assert (heap w2 !! p = Some (mkInstance pending v0 (hs ++ [d3_handler f g d]))) as Hp2.
  { unfold w2. simpl. rewrite lookup_app_l by (by rewrite length_insert).
    by rewrite list_lookup_insert_eq. }
  unfold enough_fuel. cbn [runHandlers].
  by rewrite (d3_state_of_Some _ _ _ Hp2).
Qed.

Lemma run_handler_callable fuel p s v hs f g d v0 c lg w :
  0 < fuel → s ≠ pending → p ≠ d →
  heap w !! p = Some (mkInstance s v hs) →
  heap w !! d = Some (mkInstance pending v0 []) →
  let k := match s with fullfilled => f | _ => g end in
  is_absent k = false →
  (∀ rec w', call_with rec k [v] w' = Some (c, set_calls (λ l, l ++ lg) w')) →
  run_handler (runHandlers fuel) p (d3_handler f g d) w =
  Some (set_heap (<[d := mkInstance (d3_result s c).1 (d3_result s c).2 []]>)
          (set_calls (λ l, l ++ lg) w)).
Proof.
  intros Hf Hs Hpd Hp Hd k Hk Hcall. unfold run_handler.
  rewrite (d3_state_of_Some _ _ _ Hp), (d3_value_of_Some _ _ _ Hp).
  cbn [state value d3_handler onfulfilled onrejected resolve reject].
  set (w1 := set_calls (λ l, l ++ lg) w).
  assert (heap w1 !! d = Some (mkInstance pending v0 [])) as Hd1 by done.
  destruct s; [done| |]; unfold k in Hk, Hcall.
  - rewrite Hk, Hcall. cbn [mbind option_bind fst snd].
    assert (∀ s' x, state_of p (set_heap (<[d := mkInstance s' x []]>) w1) = fullfilled)
      as Hstay.
    { intros s' x. unfold state_of. simpl. rewrite list_lookup_insert_ne by done.
      by rewrite Hp. }
    destruct c as [x|e]; cbn [call_with arg0 d3_result fst snd]; fold w1.
    + rewrite (settle_idle fuel fullfilled d x w1 _ Hf Hd1) by done.
      cbn [mbind option_bind fmap option_fmap option_map snd].
      by rewrite Hstay.
    + rewrite (settle_idle fuel rejected d e w1 _ Hf Hd1) by done.
      cbn [mbind option_bind fmap option_fmap option_map snd].
      by rewrite Hstay.
  - cbn [mbind option_bind].
    rewrite (d3_state_of_Some _ _ _ Hp), (d3_value_of_Some _ _ _ Hp).
    cbn [state value]. rewrite Hk, Hcall. cbn [mbind option_bind fst snd].
    destruct c as [x|e]; cbn [call_with arg0 d3_result fst snd]; fold w1.
    + by rewrite (settle_idle fuel rejected d x w1 _ Hf Hd1).
    + by rewrite (settle_idle fuel rejected d e w1 _ Hf Hd1).
Qed.

Lemma run_handler_absent fuel p s v hs f g d v0 w :
  0 < fuel → s ≠ pending → p ≠ d →
  heap w !! p = Some (mkInstance s v hs) →
  heap w !! d = Some (mkInstance pending v0 []) →
  is_absent (match s with fullfilled => f | _ => g end) = true →
  run_handler (runHandlers fuel) p (d3_handler f g d) w =
  Some (set_heap (<[d := mkInstance s v []]>) w).
Proof.
  intros Hf Hs Hpd Hp Hd Hk. unfold run_handler.
  rewrite (d3_state_of_Some _ _ _ Hp), (d3_value_of_Some _ _ _ Hp).
  cbn [state value d3_handler onfulfilled onrejected resolve reject].
  destruct s; [done| |].
  - rewrite Hk. cbn [call_with arg0].
    rewrite (settle_idle fuel fullfilled d v w _ Hf Hd) by done.
    cbn [mbind option_bind fmap option_fmap option_map snd].
    unfold state_of. simpl. rewrite list_lookup_insert_ne by done.
    by rewrite Hp.
  - cbn [mbind option_bind].
    rewrite (d3_state_of_Some _ _ _ Hp), (d3_value_of_Some _ _ _ Hp).
    cbn [state value]. rewrite Hk. cbn [call_with arg0].
    by rewrite (settle_idle fuel rejected d v w _ Hf Hd).
Qed.

(** [then] on a settled instance on which nothing else is registered, when
    the continuation chosen by its state is a function. *)
Lemma then_settled_callable p s v f g c lg w :
  heap w !! p = Some (mkInstance s v []) → s ≠ pending →
  let k := match s with fullfilled => f | _ => g end in
  is_absent k = false →
  (∀ rec w', call_with rec k [v] w' = Some (c, set_calls (λ l, l ++ lg) w')) →
  let d := length (heap w) in
  ∃ w', then_ p f g w = Some (d, w') ∧ calls w' = calls w ++ lg ∧
        state_of d w' = (d3_result s c).1 ∧ value_of d w' = (d3_result s c).2 ∧
        heap w' !! p = Some (mkInstance s v []) ∧ length (heap w') = S d.
Proof.
  intros Hp Hs k Hk Hcall d.
  assert (p < d) as Hlt by (by eapply lookup_lt_Some).
  rewrite (then_settled_idle p s v f g w Hp Hs). fold d.
  set (w2 := d3_registered _ _ _ _ _).
  assert (heap w2 !! p = Some (mkInstance s v [d3_handler f g d])) as Hp2.
  { unfold w2. simpl. rewrite lookup_app_l by (by rewrite length_insert).
    by rewrite list_lookup_insert_eq. }
  assert (heap w2 !! d = Some (mkInstance pending VUndefined [])) as Hd2.
  { unfold w2. simpl. rewrite lookup_app_r by (by rewrite length_insert).
    rewrite length_insert. fold d. by rewrite Nat.sub_diag. }
  assert (length (heap w2) = S d) as Hl2.
  { unfold w2. simpl. rewrite length_app, length_insert. simpl. fold d. lia. }
  assert (calls w2 = calls w) as Hc2 by done.
  rewrite (run_handler_callable (S d) p s v [d3_handler f g d] f g d VUndefined c lg w2);
    try done; try lia.
  clearbody w2.
  cbn [mbind option_bind]. eexists. split; [done|].
  split; [cbn [calls set_heap set_calls]; by rewrite Hc2|].
  unfold state_of, value_of. cbn [heap set_heap set_calls].
  rewrite !list_lookup_alter_ne by lia.
  rewrite list_lookup_insert_eq by (rewrite Hl2; lia).
  split; [done|]. split; [done|]. split.
  - rewrite list_lookup_alter, decide_True by done.
    rewrite list_lookup_insert_ne by lia. by rewrite Hp2.
  - by rewrite length_alter, length_insert.
Qed.

Lemma then_settled_absent p s v f g w :
  heap w !! p = Some (mkInstance s v []) → s ≠ pending →
  is_absent (match s with fullfilled => f | _ => g end) = true →
  let d := length (heap w) in
  ∃ w', then_ p f g w = Some (d, w') ∧ calls w' = calls w ∧
        state_of d w' = s ∧ value_of d w' = v.
Proof.
  intros Hp Hs Hk d.
  assert (p < d) as Hlt by (by eapply lookup_lt_Some).
  rewrite (then_settled_idle p s v f g w Hp Hs). fold d.
  set (w2 := d3_registered _ _ _ _ _).
  assert (heap w2 !! p = Some (mkInstance s v [d3_handler f g d])) as Hp2.
  { unfold w2. simpl. rewrite lookup_app_l by (by rewrite length_insert).
    by rewrite list_lookup_insert_eq. }
  assert (heap w2 !! d = Some (mkInstance pending VUndefined [])) as Hd2.
  { unfold w2. simpl. rewrite lookup_app_r by (by rewrite length_insert).
    rewrite length_insert. fold d. by rewrite Nat.sub_diag. }
  assert (length (heap w2) = S d) as Hl2.
  { unfold w2. simpl. rewrite length_app, length_insert. simpl. fold d. lia. }
  assert (calls w2 = calls w) as Hc2 by done.
  rewrite (run_handler_absent (S d) p s v [d3_handler f g d] f g d VUndefined w2);
    try done; try lia.
  clearbody w2.
  cbn [mbind option_bind]. eexists. split; [done|]. split; [done|].
  unfold state_of, value_of. cbn [heap set_heap set_calls].
  rewrite !list_lookup_alter_ne by lia.
  by rewrite list_lookup_insert_eq by (rewrite Hl2; lia).
Qed.

(** Settling a pending instance on which one continuation is registered. *)
Lemma settle_registered_with fuel p v0 f g d u s v c lg w :
  2 ≤ fuel →
  heap w !! p = Some (mkInstance pending v0 [d3_handler f g d]) →
  heap w !! d = Some (mkInstance pending u []) → p ≠ d → s ≠ pending →
  let k := match s with fullfilled => f | _ => g end in
  is_absent k = false →
  (∀ rec w', call_with rec k [v] w' = Some (c, set_calls (λ l, l ++ lg) w')) →
  settle_with (runHandlers fuel) s p v w =
  Some (set_heap (λ h, <[p := mkInstance s v []]>
                         (<[d := mkInstance (d3_result s c).1 (d3_result s c).2 []]> h))
          (set_calls (λ l, l ++ lg) w)).
Proof.
  intros Hfuel Hp Hd Hpd Hs k Hk Hcall.
  assert (p < length (heap w)) as Hlt by (by eapply lookup_lt_Some).
  assert (d < length (heap w)) as Hdlt by (by eapply lookup_lt_Some).
  unfold settle_with. rewrite (d3_state_of_Some _ _ _ Hp). cbn [state is_pending negb].
  assert (set_heap (alter (λ i, mkInstance s v (handlers i)) p) w =
          set_heap (<[p := mkInstance s v [d3_handler f g d]]>) w) as ->.
  { apply d3_world_eq; [|done]. simpl. by apply (list_alter_const _ _ _ _ _ Hp). }
  set (w1 := set_heap _ w).
  assert (heap w1 !! p = Some (mkInstance s v [d3_handler f g d])) as Hp1.
  { unfold w1. simpl. by rewrite list_lookup_insert_eq. }
  assert (heap w1 !! d = Some (mkInstance pending u [])) as Hd1.
  { unfold w1. simpl. by rewrite list_lookup_insert_ne. }
  destruct fuel as [|fuel]; [lia|]. cbn [runHandlers].
  rewrite (d3_state_of_Some _ _ _ Hp1), (d3_handlers_of_Some _ _ _ Hp1).
  cbn [state value handlers].
  assert (is_pending s = false) as -> by (by destruct s).
  cbn [foldl mbind option_bind].
  rewrite (run_handler_callable fuel p s v [d3_handler f g d] f g d u c lg w1);
    try done; try lia.
  cbn [mbind option_bind]. f_equal. apply d3_world_eq; [|done].
  unfold w1. cbn [heap set_heap set_calls].
  rewrite (list_insert_insert_ne _ d p) by done.
  rewrite (list_alter_const _ _ p (mkInstance s v [d3_handler f g d]) (mkInstance s v []));
    [|rewrite list_lookup_insert_eq; [done|by rewrite length_insert]|done].
  by rewrite list_insert_insert_eq.
Qed.

Lemma settle_registered p v0 f g d u s v c lg w :
  heap w !! p = Some (mkInstance pending v0 [d3_handler f g d]) →
  heap w !! d = Some (mkInstance pending u []) → p ≠ d → s ≠ pending →
  let k := match s with fullfilled => f | _ => g end in
  is_absent k = false →
  (∀ rec w', call_with rec k [v] w' = Some (c, set_calls (λ l, l ++ lg) w')) →
  ∃ w', settle_with (runHandlers (enough_fuel w)) s p v w = Some w' ∧
        calls w' = calls w ++ lg ∧
        state_of p w' = s ∧ value_of p w' = v ∧
        state_of d w' = (d3_result s c).1 ∧ value_of d w' = (d3_result s c).2.
Proof.
  intros Hp Hd Hpd Hs k Hk Hcall.
  assert (p < length (heap w)) as Hlt by (by eapply lookup_lt_Some).
  assert (d < length (heap w)) as Hdlt by (by eapply lookup_lt_Some).
  rewrite (settle_registered_with (enough_fuel w) p v0 f g d u s v c lg w);
    try done; [|unfold enough_fuel; lia].
  eexists. split; [done|]. split; [done|].
  unfold state_of, value_of. cbn [heap set_heap set_calls].
  rewrite list_lookup_insert_eq by (by rewrite length_insert).
  rewrite list_lookup_insert_ne by done.
  by rewrite list_lookup_insert_eq.
Qed.

(** The handler of [p] settles [d1], on which a continuation is registered
    that settles [d2]. *)
Lemma run_handler_chain fuel p v hs f d1 u1 g d2 u2 x lf c lg w :
  2 ≤ fuel → p ≠ d1 → p ≠ d2 → d1 ≠ d2 →
  heap w !! p = Some (mkInstance fullfilled v hs) →
  heap w !! d1 = Some (mkInstance pending u1 [d3_handler g NotCallable d2]) →
  heap w !! d2 = Some (mkInstance pending u2 []) →
  is_absent f = false → is_absent g = false →
  (∀ rec w', call_with rec f [v] w' = Some (Normal x, set_calls (λ l, l ++ lf) w')) →
  (∀ rec w', call_with rec g [x] w' = Some (c, set_calls (λ l, l ++ lg) w')) →
  run_handler (runHandlers fuel) p (d3_handler f NotCallable d1) w =
  Some (set_heap (λ h, <[d1 := mkInstance fullfilled x []]>
                         (<[d2 := mkInstance (d3_result fullfilled c).1
                                    (d3_result fullfilled c).2 []]> h))
          (set_calls (λ l, l ++ lf ++ lg) w)).
Proof.
  intros Hfuel Hp1 Hp2 H12 Hp Hd1 Hd2 Hf Hg Hcf Hcg. unfold run_handler.
  rewrite (d3_state_of_Some _ _ _ Hp), (d3_value_of_Some _ _ _ Hp).
  cbn [state value d3_handler onfulfilled onrejected resolve reject].
  rewrite Hf, Hcf. cbn [mbind option_bind fst snd call_with arg0].
  set (w1 := set_calls (λ l, l ++ lf) w).
  rewrite (settle_registered_with fuel d1 u1 g NotCallable d2 u2 fullfilled x c lg w1);
    try done.
  cbn [mbind option_bind fmap option_fmap option_map snd].
  set (w2 := set_heap _ _).
  assert (state_of p w2 = fullfilled) as ->.
  { unfold state_of, w2, w1. cbn [heap set_heap set_calls].
    rewrite !list_lookup_insert_ne by done. by rewrite Hp. }
  f_equal. apply d3_world_eq; [done|].
  unfold w2, w1. cbn [calls set_heap set_calls]. by rewrite app_assoc.
Qed.

End draft3.

(** X17.  In the sketch a continuation registered on a settled instance runs
    inside the call of [then]: the log has its entry and the new instance is
    settled when [then] returns.  What a fulfilment continuation returns
    fulfils the new instance, whatever it is; what it throws rejects it. *)
Theorem X_draft3_then_runs_at_once w p s v label body label' body' :
  Draft3.heap w !! p = Some (Draft3.mkInstance s v []) → s ≠ Draft3.pending →
  let f := Draft3.UserFn label body in
  let g := Draft3.UserFn label' body' in
  let d := length (Draft3.heap w) in
  ∃ w', Draft3.then_ p f g w = Some (d, w') ∧
    match s with
    | Draft3.fullfilled =>
        Draft3.calls w' = Draft3.calls w ++ [(label, [v])] ∧
        match body [v] with
        | Normal x => Draft3.state_of d w' = Draft3.fullfilled ∧ Draft3.value_of d w' = x
        | Throw e => Draft3.state_of d w' = Draft3.rejected ∧ Draft3.value_of d w' = e
        end
    | _ =>
        Draft3.calls w' = Draft3.calls w ++ [(label', [v])] ∧
        Draft3.state_of d w' = Draft3.rejected
    end.
Proof.
  intros Hp Hs f g d.
  destruct s; [done| |].
  - destruct (then_settled_callable p Draft3.fullfilled v f g (body [v]) [(label, [v])] w
                Hp Hs eq_refl) as (w' & Hw' & Hc & Hst & Hv & _); [done|].
    exists w'. split; [done|]. split; [done|].
    fold d in Hst, Hv. by destruct (body [v]).
  - destruct (then_settled_callable p Draft3.rejected v f g (body' [v]) [(label', [v])] w
                Hp Hs eq_refl) as (w' & Hw' & Hc & Hst & Hv & _); [done|].
    exists w'. split; [done|]. split; [done|].
    fold d in Hst. by destruct (body' [v]).
Qed.

Lemma X_draft3_then_runs_at_once_witness :
  let w := Draft3.mkWorld [Draft3.mkInstance Draft3.fullfilled (VNum 1) []] [] in
  let f := Draft3.UserFn 1 (λ _, Normal (VPromise 0)) in
  let g := Draft3.UserFn 2 (λ _, Normal VUndefined) in
  ∃ w', Draft3.then_ 0 f g w = Some (1, w') ∧
        Draft3.calls w' = [(1, [VNum 1])] ∧
        Draft3.state_of 1 w' = Draft3.fullfilled ∧ Draft3.value_of 1 w' = VPromise 0.
Proof.
  intros w f g.
  destruct (X_draft3_then_runs_at_once w 0 Draft3.fullfilled (VNum 1) 1
              (λ _, Normal (VPromise 0)) 2 (λ _, Normal VUndefined) eq_refl)
    as (w' & H1 & H2 & H3 & H4); [discriminate|].
  exists w'. split; [exact H1|]. split; [exact H2|]. split; [exact H3|exact H4].
Defined.

(** X18.  In the sketch a rejection continuation does not recover: what it
    returns is handed to the downstream [reject] (line 877), so the instance
    returned by [catch] is rejected with the value returned, whether the
    continuation was registered before the rejection or after it. *)
Theorem X_draft3_rejection_is_not_recovered w p i r label body x :
  Draft3.heap w !! p = Some i → Draft3.handlers i = [] →
  (Draft3.state i = Draft3.pending ∨
   (Draft3.state i = Draft3.rejected ∧ Draft3.value i = r)) →
  body [r] = Normal x →
  let g := Draft3.UserFn label body in
  let d := length (Draft3.heap w) in
  ∃ w1 w2,
    Draft3.catch p g w = Some (d, w1) ∧
    match Draft3.state i with
    | Draft3.pending => Draft3.reject_fn p r w1
    | _ => Some w1
    end = Some w2 ∧
    Draft3.calls w2 = Draft3.calls w ++ [(label, [r])] ∧
    Draft3.state_of d w2 = Draft3.rejected ∧ Draft3.value_of d w2 = x.
Proof.
  intros Hp Hh Hcase Hbody g d. unfold Draft3.catch.
  assert (p < d) as Hlt by (by eapply lookup_lt_Some).
  destruct i as [s v hs]. simpl in Hh, Hcase. subst hs.
  destruct Hcase as [->|[-> ->]].
  - rewrite (then_pending_d3 p v [] Draft3.NotCallable g w Hp). fold d.
    set (w1 := Draft3.set_heap _ w). exists w1.
    destruct (settle_registered p v Draft3.NotCallable g d VUndefined Draft3.rejected r
                (Normal x) [(label, [r])] w1) as (w2 & Hw2 & Hc & _ & _ & Hs & Hv);
      try done.
    + unfold w1. simpl. rewrite lookup_app_l by (by rewrite length_insert).
      by rewrite list_lookup_insert_eq.
    + unfold w1. simpl. rewrite lookup_app_r by (by rewrite length_insert).
      rewrite length_insert. fold d. by rewrite Nat.sub_diag.
    + lia.
    + intros rec w'. simpl. by rewrite Hbody.
    + exists w2. split; [done|]. split; [exact Hw2|]. done.
  - destruct (then_settled_callable p Draft3.rejected r Draft3.NotCallable g (Normal x)
                [(label, [r])] w Hp) as (w1 & Hw1 & Hc & Hs & Hv & _); try done.
    { intros rec w'. simpl. by rewrite Hbody. }
    exists w1, w1. done.
Qed.

Lemma X_draft3_rejection_is_not_recovered_witness :
  let w := Draft3.mkWorld [Draft3.mkInstance Draft3.rejected (VStr "no") []] [] in
  let g := Draft3.UserFn 1 (λ _, Normal (VStr "recovered")) in
  ∃ w1, Draft3.catch 0 g w = Some (1, w1) ∧
        Draft3.state_of 1 w1 = Draft3.rejected ∧
        Draft3.value_of 1 w1 = VStr "recovered".
Proof.
  intros w g.
  destruct (X_draft3_rejection_is_not_recovered w 0
              (Draft3.mkInstance Draft3.rejected (VStr "no") []) (VStr "no") 1
              (λ _, Normal (VStr "recovered")) (VStr "recovered") eq_refl eq_refl)
    as (w1 & w2 & H1 & H2 & _ & H3 & H4);
    [right; split; reflexivity|reflexivity|].
  simpl in H2. injection H2 as <-. exists w1. split; [exact H1|]. split; [exact H3|exact H4].
Defined.

(** X19.  [finally] of the sketch on a settled instance calls [onfinally] with
    no argument inside the call and does not wait for what it returns: the new
    instance has the state and the result of the source, unless [onfinally]
    throws, which rejects it with the error thrown. *)
Theorem X_draft3_finally_passes_through w p s v label body :
  Draft3.heap w !! p = Some (Draft3.mkInstance s v []) → s ≠ Draft3.pending →
  let d := length (Draft3.heap w) in
  (∃ w', Draft3.finally p (Draft3.UserFn label body) w = Some (d, w') ∧
         Draft3.calls w' = Draft3.calls w ++ [(label, [])] ∧
         match body [] with
         | Normal _ => Draft3.state_of d w' = s ∧ Draft3.value_of d w' = v
         | Throw e => Draft3.state_of d w' = Draft3.rejected ∧ Draft3.value_of d w' = e
         end) ∧
  (∃ w', Draft3.finally p Draft3.NotCallable w = Some (d, w') ∧
         Draft3.calls w' = Draft3.calls w ∧
         Draft3.state_of d w' = s ∧ Draft3.value_of d w' = v).
Proof.
  intros Hp Hs d. unfold Draft3.finally. split.
  - set (c := match s, body [] with
              | _, Throw e => Throw e
              | Draft3.fullfilled, Normal _ => Normal v
              | _, Normal _ => Throw v
              end).
    destruct (then_settled_callable p s v
                (Draft3.PassThroughFulfilled (Draft3.UserFn label body))
                (Draft3.PassThroughRejected (Draft3.UserFn label body))
                c [(label, [])] w Hp Hs) as (w' & Hw' & Hc & Hst & Hv & _).
    { by destruct s. }
    { intros rec w'. unfold c. destruct s; [done| |]; simpl; by destruct (body []). }
    exists w'. split; [done|]. split; [done|]. fold d in Hst, Hv.
    unfold c in Hst, Hv. destruct s; [done| |]; by destruct (body []).
  - set (c := match s with Draft3.fullfilled => Normal v | _ => Throw v end).
    destruct (then_settled_callable p s v
                (Draft3.PassThroughFulfilled Draft3.NotCallable)
                (Draft3.PassThroughRejected Draft3.NotCallable)
                c [] w Hp Hs) as (w' & Hw' & Hc & Hst & Hv & _).
    { by destruct s. }
    { intros rec w'. unfold c. destruct s; [done| |]; simpl;
        (f_equal; f_equal; destruct w'; unfold Draft3.set_calls; simpl;
         by rewrite app_nil_r). }
    exists w'. split; [done|]. rewrite app_nil_r in Hc. split; [done|].
    fold d in Hst, Hv. unfold c in Hst, Hv. by destruct s.
Qed.

Lemma X_draft3_finally_passes_through_witness :
  let w := Draft3.mkWorld [Draft3.mkInstance Draft3.rejected (VStr "no") []] [] in
  ∃ w', Draft3.finally 0 (Draft3.UserFn 5 (λ _, Normal (VNum 0))) w = Some (1, w') ∧
        Draft3.calls w' = [(5, [])] ∧
        Draft3.state_of 1 w' = Draft3.rejected ∧ Draft3.value_of 1 w' = VStr "no".
Proof.
  intros w.
  destruct (X_draft3_finally_passes_through w 0 Draft3.rejected (VStr "no") 5
              (λ _, Normal (VNum 0)) eq_refl) as [(w' & H1 & H2 & H3 & H4) _];
    [discriminate|].
  exists w'. split; [exact H1|]. split; [exact H2|]. split; [exact H3|exact H4].
Defined.

(** X20.  In the sketch settling the first instance of a chain
    [p.then(f).then(g)] runs [f] and then [g] inside the call of [resolve]:
    when [resolve] returns, the log has both entries and both instances of the
    chain are settled. *)
Theorem X_draft3_chain_runs_inside_resolve w p u v lf f lg g x :
  Draft3.heap w !! p = Some (Draft3.mkInstance Draft3.pending u []) →
  f [v] = Normal x →
  let d1 := length (Draft3.heap w) in
  let d2 := S d1 in
  ∃ w1 w2 w3,
    Draft3.then_ p (Draft3.UserFn lf f) Draft3.NotCallable w = Some (d1, w1) ∧
    Draft3.then_ d1 (Draft3.UserFn lg g) Draft3.NotCallable w1 = Some (d2, w2) ∧
    Draft3.calls w2 = Draft3.calls w ∧
    Draft3.state_of d1 w2 = Draft3.pending ∧ Draft3.state_of d2 w2 = Draft3.pending ∧
    Draft3.resolve_fn p v w2 = Some w3 ∧
    Draft3.calls w3 = Draft3.calls w ++ [(lf, [v]); (lg, [x])] ∧
    Draft3.state_of p w3 = Draft3.fullfilled ∧ Draft3.value_of p w3 = v ∧
    Draft3.state_of d1 w3 = Draft3.fullfilled ∧ Draft3.value_of d1 w3 = x ∧
    match g [x] with
    | Normal y => Draft3.state_of d2 w3 = Draft3.fullfilled ∧ Draft3.value_of d2 w3 = y
    | Throw e => Draft3.state_of d2 w3 = Draft3.rejected ∧ Draft3.value_of d2 w3 = e
    end.
Proof.
  intros Hp Hf d1 d2.
  assert (p < d1) as Hlt by (by eapply lookup_lt_Some).
  rewrite (then_pending_d3 p u [] (Draft3.UserFn lf f) Draft3.NotCallable w Hp). fold d1.
  set (w1 := Draft3.set_heap _ w). exists w1.
  assert (Draft3.heap w1 !! d1 = Some (Draft3.mkInstance Draft3.pending VUndefined [])) as Hd1.
  { unfold w1. simpl. rewrite lookup_app_r by (by rewrite length_insert).
    rewrite length_insert. fold d1. by rewrite Nat.sub_diag. }
  assert (length (Draft3.heap w1) = d2) as Hl1.
  { unfold w1. simpl. rewrite length_app, length_insert. simpl. fold d1. unfold d2. lia. }
  assert (Draft3.heap w1 !! p =
          Some (Draft3.mkInstance Draft3.pending u
                  [d3_handler (Draft3.UserFn lf f) Draft3.NotCallable d1])) as Hp1.
  { unfold w1. simpl. rewrite lookup_app_l by (by rewrite length_insert).
    by rewrite list_lookup_insert_eq. }
  assert (Draft3.calls w1 = Draft3.calls w) as Hc1 by done.
  clearbody w1.
  rewrite (then_pending_d3 d1 VUndefined [] (Draft3.UserFn lg g) Draft3.NotCallable w1 Hd1).
  rewrite Hl1. set (w2 := Draft3.set_heap _ w1). exists w2.
  assert (Draft3.heap w2 !! p =
          Some (Draft3.mkInstance Draft3.pending u
                  [d3_handler (Draft3.UserFn lf f) Draft3.NotCallable d1])) as Hp2.
  { unfold w2. cbn [Draft3.heap Draft3.set_heap].
    rewrite lookup_app_l by (rewrite length_insert, Hl1; unfold d2; lia).
    rewrite list_lookup_insert_ne by lia. done. }
  assert (Draft3.heap w2 !! d1 =
          Some (Draft3.mkInstance Draft3.pending VUndefined
                  [d3_handler (Draft3.UserFn lg g) Draft3.NotCallable d2])) as Hd12.
  { unfold w2. cbn [Draft3.heap Draft3.set_heap].
    rewrite lookup_app_l by (rewrite length_insert, Hl1; unfold d2; lia).
    rewrite list_lookup_insert_eq by (rewrite Hl1; unfold d2; lia). done. }
  assert (Draft3.heap w2 !! d2 = Some (Draft3.mkInstance Draft3.pending VUndefined [])) as Hd22.
  { unfold w2. cbn [Draft3.heap Draft3.set_heap].
    rewrite lookup_app_r by (rewrite length_insert, Hl1; lia).
    rewrite length_insert, Hl1. by rewrite Nat.sub_diag. }
  assert (length (Draft3.heap w2) = S d2) as Hl2.
  { unfold w2. cbn [Draft3.heap Draft3.set_heap].
    rewrite length_app, length_insert, Hl1. simpl. lia. }
  assert (Draft3.calls w2 = Draft3.calls w) as Hc2 by done.
  clearbody w2. clear Hp1 Hd1 Hl1.
  unfold Draft3.resolve_fn, Draft3.settle_with.
  rewrite (d3_state_of_Some _ _ _ Hp2). cbn [Draft3.state Draft3.is_pending negb].
  assert (Draft3.set_heap (alter (λ i, Draft3.mkInstance Draft3.fullfilled v
                                         (Draft3.handlers i)) p) w2 =
          Draft3.set_heap (<[p := Draft3.mkInstance Draft3.fullfilled v
               [d3_handler (Draft3.UserFn lf f) Draft3.NotCallable d1]]>) w2) as ->.
  { apply d3_world_eq; [|done]. simpl. by apply (list_alter_const _ _ _ _ _ Hp2). }
  set (w3 := Draft3.set_heap _ w2).
  assert (p < length (Draft3.heap w2)) as Hplt by (by eapply lookup_lt_Some).
  assert (Draft3.heap w3 !! p =
          Some (Draft3.mkInstance Draft3.fullfilled v
                  [d3_handler (Draft3.UserFn lf f) Draft3.NotCallable d1])) as Hp3.
  { unfold w3. simpl. by rewrite list_lookup_insert_eq. }
  assert (Draft3.heap w3 !! d1 =
          Some (Draft3.mkInstance Draft3.pending VUndefined
                  [d3_handler (Draft3.UserFn lg g) Draft3.NotCallable d2])) as Hd13.
  { unfold w3. simpl. rewrite list_lookup_insert_ne by lia. done. }
  assert (Draft3.heap w3 !! d2 = Some (Draft3.mkInstance Draft3.pending VUndefined [])) as Hd23.
  { unfold w3. simpl. rewrite list_lookup_insert_ne by (unfold d2; lia). done. }
  assert (Draft3.calls w3 = Draft3.calls w) as Hc3 by done.
  assert (length (Draft3.heap w3) = S d2) as Hl3.
  { unfold w3. simpl. by rewrite length_insert. }
  unfold Draft3.enough_fuel. rewrite Hl2. clearbody w3.
  set (fuel := S d2). assert (2 ≤ fuel) as Hfuel by (unfold fuel, d2; lia).
  clearbody fuel. cbn [Draft3.runHandlers].
  rewrite (d3_state_of_Some _ _ _ Hp3), (d3_handlers_of_Some _ _ _ Hp3).
  cbn [Draft3.state Draft3.value Draft3.handlers Draft3.is_pending foldl mbind option_bind].
  rewrite (run_handler_chain fuel p v
             [d3_handler (Draft3.UserFn lf f) Draft3.NotCallable d1]
             (Draft3.UserFn lf f) d1 VUndefined
             (Draft3.UserFn lg g) d2 VUndefined x [(lf, [v])] (g [x]) [(lg, [x])] w3);
    try done; try (unfold d2; lia).
  2:{ intros rec w'. simpl. by rewrite Hf. }
  cbn [mbind option_bind]. eexists.
  split; [done|]. split; [done|]. split; [done|].
  split; [by rewrite (d3_state_of_Some _ _ _ Hd12)|].
  split; [by rewrite (d3_state_of_Some _ _ _ Hd22)|].
  split; [done|].
  split; [cbn [Draft3.calls Draft3.set_heap Draft3.set_calls]; by rewrite Hc3|].
  unfold Draft3.state_of, Draft3.value_of.
  cbn [Draft3.heap Draft3.set_heap Draft3.set_calls].
  rewrite list_lookup_alter, decide_True by done.
  rewrite !(list_lookup_alter_ne _ _ p) by (unfold d2; lia).
  rewrite !(list_lookup_insert_ne _ d1 p) by lia.
  rewrite !(list_lookup_insert_ne _ d2 p) by (unfold d2; lia).
  rewrite Hp3.
  rewrite list_lookup_insert_eq by (rewrite length_insert, Hl3; unfold d2; lia).
  rewrite !(list_lookup_insert_ne _ d1 d2) by (unfold d2; lia).
  rewrite list_lookup_insert_eq by (rewrite Hl3; lia).
  cbn [Draft3.state Draft3.value Draft3.handlers].
  split; [done|]. split; [done|]. split; [done|]. split; [done|].
  by destruct (g [x]).
Qed.

Lemma X_draft3_chain_runs_inside_resolve_witness :
  let w := Draft3.mkWorld [Draft3.mkInstance Draft3.pending VUndefined []] [] in
  let f := λ _ : list jsvalue, Normal (VNum 2) in
  let g := λ _ : list jsvalue, Throw (VStr "stop") in
  ∃ w1 w2 w3,
    Draft3.then_ 0 (Draft3.UserFn 1 f) Draft3.NotCallable w = Some (1, w1) ∧
    Draft3.then_ 1 (Draft3.UserFn 2 g) Draft3.NotCallable w1 = Some (2, w2) ∧
    Draft3.resolve_fn 0 (VNum 1) w2 = Some w3 ∧
    Draft3.calls w3 = [(1, [VNum 1]); (2, [VNum 2])] ∧
    Draft3.state_of 2 w3 = Draft3.rejected ∧ Draft3.value_of 2 w3 = VStr "stop".
Proof.
  intros w f g.
  destruct (X_draft3_chain_runs_inside_resolve w 0 VUndefined (VNum 1) 1 f 2 g (VNum 2)
              eq_refl eq_refl)
    as (w1 & w2 & w3 & H1 & H2 & _ & _ & _ & H3 & H4 & _ & _ & _ & _ & H5).
  exists w1, w2, w3. split; [exact H1|]. split; [exact H2|]. split; [exact H3|].
  split; [exact H4|]. exact H5.
Defined.

(** *** Settled instances of the sketch *)

Section draft3_final.
Import Draft3.

Implicit Types (w : world) (h : list instance) (rec : nat → world → option world).

Lemma d3_final_refl w : d3_final w w.
Proof. by intros p _. Qed.

Lemma d3_final_trans w1 w2 w3 : d3_final w1 w2 → d3_final w2 w3 → d3_final w1 w3.
Proof.
  intros H12 H23 p Hp. destruct (H12 p Hp) as [Hs Hv].
  destruct (H23 p) as [Hs' Hv']; [by rewrite Hs|].
  split; congruence.
Qed.

Lemma d3_final_heap_eq w w' : heap w' = heap w → d3_final w w'.
Proof. intros He p _. unfold state_of, value_of. by rewrite He. Qed.

Lemma d3_final_alter_pending (f : instance → instance) this w :
  state_of this w = pending → d3_final w (set_heap (alter f this) w).
Proof.
  intros Hthis p Hp. assert (this ≠ p) as Hne by (intros ->; done).
  unfold state_of, value_of. simpl. by rewrite list_lookup_alter_ne.
Qed.

Lemma d3_final_alter_keep (f : instance → instance) this w :
  (∀ i, state (f i) = state i ∧ value (f i) = value i) →
  d3_final w (set_heap (alter f this) w).
Proof.
  intros Hf p _. unfold state_of, value_of. simpl.
  destruct (decide (this = p)) as [->|Hne].
  - rewrite list_lookup_alter. destruct (heap w !! p) as [i|]; simpl; rewrite decide_True by done; [|done].
    by destruct (Hf i) as [-> ->].
  - by rewrite list_lookup_alter_ne.
Qed.

Lemma d3_final_alloc i w : d3_final w (set_heap (λ h, h ++ [i]) w).
Proof.
  intros p Hp. unfold state_of, value_of in *. simpl.
  destruct (heap w !! p) as [j|] eqn:Hj; [|done].
  by rewrite (lookup_app_l_Some _ _ _ _ Hj).
Qed.

Lemma settle_with_final rec s this v w w' :
  d3_finalises rec → settle_with rec s this v w = Some w' → d3_final w w'.
Proof.
  intros Hrec. unfold settle_with.
  destruct (is_pending (state_of this w)) eqn:E; simpl.
  - intros Hw'. eapply d3_final_trans; [|exact (Hrec _ _ _ Hw')].
    apply d3_final_alter_pending. by destruct (state_of this w).
  - intros [= <-]. apply d3_final_refl.
Qed.

Lemma call_with_final rec f :
  d3_finalises rec → ∀ args w r, call_with rec f args w = Some r → d3_final w r.2.
Proof.
  intros Hrec. induction f; intros args w r; cbn [call_with].
  - intros [= <-]. apply d3_final_refl.
  - intros [= <-]. by apply d3_final_heap_eq.
  - destruct (settle_with rec fullfilled p (arg0 args) w) as [w'|] eqn:Hw'; [|done].
    simpl. intros [= <-]. by eapply settle_with_final.
  - destruct (settle_with rec rejected p (arg0 args) w) as [w'|] eqn:Hw'; [|done].
    simpl. intros [= <-]. by eapply settle_with_final.
  - destruct (is_absent f); [intros [= <-]; apply d3_final_refl|].
    destruct (call_with rec f [] w) as [r'|] eqn:Hr'; [|done]. simpl.
    pose proof (IHf _ _ _ Hr'). by destruct r'.1; intros [= <-].
  - destruct (is_absent f); [intros [= <-]; apply d3_final_refl|].
    destruct (call_with rec f [] w) as [r'|] eqn:Hr'; [|done]. simpl.
    pose proof (IHf _ _ _ Hr'). by destruct r'.1; intros [= <-].
Qed.

Lemma call_then_call_final rec f g1 g2 (a : jsvalue) w w' :
  d3_finalises rec →
  (call_with rec f [a] w ≫= λ r,
     match r.1 with
     | Normal result => snd <$> call_with rec g1 [result] r.2
     | Throw error => snd <$> call_with rec g2 [error] r.2
     end) = Some w' →
  d3_final w w'.
Proof.
  intros Hrec. destruct (call_with rec f [a] w) as [r|] eqn:Hr; [|done]. simpl.
  pose proof (call_with_final rec f Hrec _ _ _ Hr) as H1.
  destruct r.1 as [x|e].
  - destruct (call_with rec g1 [x] r.2) as [r'|] eqn:Hr'; [|done]. simpl.
    intros [= <-]. eapply d3_final_trans; [exact H1|].
    by eapply call_with_final.
  - destruct (call_with rec g2 [e] r.2) as [r'|] eqn:Hr'; [|done]. simpl.
    intros [= <-]. eapply d3_final_trans; [exact H1|].
    by eapply call_with_final.
Qed.

Lemma call_snd_final rec f args w w' :
  d3_finalises rec → snd <$> call_with rec f args w = Some w' → d3_final w w'.
Proof.
  intros Hrec. destruct (call_with rec f args w) as [r|] eqn:Hr; [|done]. simpl.
  intros [= <-]. by eapply call_with_final.
Qed.

Lemma run_handler_final rec this hd w w' :
  d3_finalises rec → run_handler rec this hd w = Some w' → d3_final w w'.
Proof.
  intros Hrec. unfold run_handler.
  destruct (match state_of this w with
            | fullfilled =>
                if is_absent (onfulfilled hd) then
                  snd <$> call_with rec (resolve hd) [value_of this w] w
                else
                  call_with rec (onfulfilled hd) [value_of this w] w ≫= λ r,
                    match r.1 with
                    | Normal result => snd <$> call_with rec (resolve hd) [result] r.2
                    | Throw error => snd <$> call_with rec (reject hd) [error] r.2
                    end
            | _ => Some w
            end) as [w1|] eqn:H1; [|done].
  simpl. intros H2.
  assert (d3_final w w1) as F1.
  { destruct (state_of this w); try (injection H1 as <-; apply d3_final_refl).
    destruct (is_absent (onfulfilled hd)).
    - by eapply call_snd_final.
    - by eapply call_then_call_final. }
  eapply d3_final_trans; [exact F1|].
  destruct (state_of this w1); try (injection H2 as <-; apply d3_final_refl).
  destruct (is_absent (onrejected hd)).
  - by eapply call_snd_final.
  - by eapply call_then_call_final.
Qed.

Lemma foldl_handlers_final rec this hs : ∀ w w',
  d3_finalises rec →
  foldl (λ ow hd, ow ≫= run_handler rec this hd) (Some w) hs = Some w' →
  d3_final w w'.
Proof.
  induction hs as [|hd hs IH]; intros w w' Hrec; simpl.
  - intros [= <-]. apply d3_final_refl.
  - destruct (run_handler rec this hd w) as [w1|] eqn:H1.
    + intros H2. eapply d3_final_trans; [by eapply run_handler_final|by eapply IH].
    + by rewrite foldl_handlers_None.
Qed.

Lemma runHandlers_final fuel : d3_finalises (runHandlers fuel).
Proof.
  induction fuel as [|fuel IH]; intros this w w'; cbn [runHandlers]; [done|].
  destruct (is_pending (state_of this w)); [intros [= <-]; apply d3_final_refl|].
  destruct (foldl _ _ _) as [w1|] eqn:H1; [|done]. simpl. intros [= <-].
  eapply d3_final_trans; [by eapply foldl_handlers_final|].
  by apply d3_final_alter_keep.
Qed.

Lemma resolve_fn_final this v w w' : resolve_fn this v w = Some w' → d3_final w w'.
Proof. apply settle_with_final, runHandlers_final. Qed.

Lemma reject_fn_final this r w w' : reject_fn this r w = Some w' → d3_final w w'.
Proof. apply settle_with_final, runHandlers_final. Qed.

Lemma then_final this f g w r : then_ this f g w = Some r → d3_final w r.2.
Proof.
  unfold then_, construct.
  set (w1 := set_heap _ w). set (w2 := set_heap _ w1).
  destruct (runHandlers (enough_fuel w2) this w2) as [w3|] eqn:H3; [|done].
  simpl. intros [= <-]. simpl.
  eapply d3_final_trans; [apply d3_final_alloc|].
  eapply d3_final_trans; [|exact (runHandlers_final _ _ _ _ H3)].
  by apply d3_final_alter_keep.
Qed.

Lemma run_executor_final executor this : ∀ w res,
  run_executor executor this w = Some res → d3_final w res.2.
Proof.
  induction executor as [|error|v rest IH|reason rest IH]; intros w res; simpl.
  - intros [= <-]. apply d3_final_refl.
  - intros [= <-]. apply d3_final_refl.
  - destruct (resolve_fn this v w) as [w1|] eqn:H1; [|done]. simpl. intros H2.
    eapply d3_final_trans; [by eapply resolve_fn_final|by apply IH].
  - destruct (reject_fn this reason w) as [w1|] eqn:H1; [|done]. simpl. intros H2.
    eapply d3_final_trans; [by eapply reject_fn_final|by apply IH].
Qed.

Lemma new_promise_final executor w r :
  new_promise executor w = Some r → d3_final w r.2.
Proof.
  unfold new_promise, construct.
  set (w1 := set_heap _ w).
  destruct (run_executor executor (length (heap w)) w1) as [[e w2]|] eqn:H2; [|done].
  simpl. pose proof (run_executor_final _ _ _ _ H2) as F2. simpl in F2.
  assert (d3_final w w2) as F.
  { eapply d3_final_trans; [apply d3_final_alloc|exact F2]. }
  destruct e as [e|].
  - destruct (reject_fn (length (heap w)) e w2) as [w3|] eqn:H3; [|done].
    simpl. intros [= <-]. simpl.
    eapply d3_final_trans; [exact F|by eapply reject_fn_final].
  - by intros [= <-].
Qed.

Lemma exec_final o w w' : exec o w = Some w' → d3_final w w'.
Proof.
  destruct o; cbn [exec].
  - destruct (new_promise executor w) as [r|] eqn:Hr; [|done]. simpl.
    intros [= <-]. by eapply new_promise_final.
  - destruct (call f args w) as [r|] eqn:Hr; [|done]. simpl.
    intros [= <-]. eapply call_with_final; [apply runHandlers_final|exact Hr].
  - destruct (then_ p onfulfilled0 onrejected0 w) as [r|] eqn:Hr; [|done]. simpl.
    intros [= <-]. by eapply then_final.
  - destruct (catch p onrejected0 w) as [r|] eqn:Hr; [|done]. simpl.
    intros [= <-]. by eapply then_final.
  - destruct (finally p onfinally w) as [r|] eqn:Hr; [|done]. simpl.
    intros [= <-]. by eapply then_final.
Qed.

(** Every sequence of operations returns, and leaves the settled instances
    as they were. *)
Lemma run_settled os : ∀ w, ∃ w', run os w = Some w' ∧ d3_final w w'.
Proof.
  unfold run. induction os as [|o os IH]; intros w; simpl.
  - exists w. split; [done|apply d3_final_refl].
  - destruct (exec_total o w) as [w1 H1]. rewrite H1. simpl.
    destruct (IH w1) as (w' & Hw' & F). exists w'. split; [done|].
    eapply d3_final_trans; [by eapply exec_final|exact F].
Qed.

End draft3_final.

(** X21.  In the sketch too an instance is settled once: every sequence of
    operations returns, and an instance that was fulfilled or rejected before
    it has the same state and the same result after it. *)
Theorem X_draft3_settled_is_final os w p :
  Draft3.state_of p w ≠ Draft3.pending →
  ∃ w', Draft3.run os w = Some w' ∧
        Draft3.state_of p w' = Draft3.state_of p w ∧
        Draft3.value_of p w' = Draft3.value_of p w.
Proof.
  intros Hp. destruct (run_settled os w) as (w' & Hw' & F).
  exists w'. split; [done|]. by apply F.
Qed.

Lemma X_draft3_settled_is_final_witness :
  let w := Draft3.mkWorld [Draft3.mkInstance Draft3.rejected (VStr "no") []] [] in
  let os := [Draft3.Call (Draft3.ResolveOf 0) [VNum 1];
             Draft3.Catch 0 (Draft3.UserFn 7 (λ _, Normal (VNum 2)))] in
  ∃ w', Draft3.run os w = Some w' ∧
        Draft3.state_of 0 w' = Draft3.rejected ∧
        Draft3.value_of 0 w' = VStr "no".
Proof.
  intros w os.
  refine (X_draft3_settled_is_final os w 0 _). simpl. discriminate.
Defined.

(** X22.  The [resolve] closure of the sketch stores whatever it is given: a
    thenable, another instance or the instance itself fulfils the instance at
    once, without adoption and without a self-resolution error, and nothing
    that is done later changes that. *)
Theorem X_draft3_resolve_stores_any_value w p u v os :
  Draft3.heap w !! p = Some (Draft3.mkInstance Draft3.pending u []) →
  let w1 := Draft3.set_heap (<[p := Draft3.mkInstance Draft3.fullfilled v []]>) w in
  Draft3.resolve_fn p v w = Some w1 ∧
  ∃ w', Draft3.run os w1 = Some w' ∧
        Draft3.state_of p w' = Draft3.fullfilled ∧ Draft3.value_of p w' = v.
Proof.
  intros Hp w1. split.
  - unfold Draft3.resolve_fn, Draft3.enough_fuel.
    by apply (settle_idle _ _ _ _ _ _ (Nat.lt_0_succ _) Hp).
  - destruct (run_settled os w1) as (w' & Hw' & F). exists w'. split; [done|].
    assert (Draft3.heap w1 !! p = Some (Draft3.mkInstance Draft3.fullfilled v [])) as H1.
    { unfold w1. simpl. apply list_lookup_insert_eq. by eapply lookup_lt_Some. }
    destruct (F p) as [Hs Hv].
    + by rewrite (d3_state_of_Some _ _ _ H1).
    + by rewrite Hs, Hv, (d3_state_of_Some _ _ _ H1), (d3_value_of_Some _ _ _ H1).
Qed.

Lemma X_draft3_resolve_stores_any_value_witness :
  let w := Draft3.mkWorld [Draft3.mkInstance Draft3.pending VUndefined []] [] in
  let thenable := VObject (ThenFunction (CallFirst (VNum 1) Done)) in
  Draft3.resolve_fn 0 thenable w =
    Some (Draft3.mkWorld [Draft3.mkInstance Draft3.fullfilled thenable []] []) ∧
  ∃ w', Draft3.run [Draft3.Call (Draft3.RejectOf 0) [VStr "late"]]
          (Draft3.mkWorld [Draft3.mkInstance Draft3.fullfilled thenable []] []) = Some w' ∧
        Draft3.state_of 0 w' = Draft3.fullfilled ∧ Draft3.value_of 0 w' = thenable.
Proof.
  intros w thenable.
  exact (X_draft3_resolve_stores_any_value w 0 VUndefined thenable
           [Draft3.Call (Draft3.RejectOf 0) [VStr "late"]] eq_refl).
Defined.
